(** * Mappings editor library: normalisation of the field tree

    A shallow embedding of the helper library of the index-management
    mappings editor ([getFieldMeta], [getFieldConfig], [normalize],
    [deNormalize], [updateFieldsPathAfterFieldNameChange],
    [shouldDeleteChildFieldsAfterTypeChange], [isStateValid]) together with
    the properties of the flat table it builds. *)

From Stdlib Require Import String Ascii ZArith List Lia.
From stdpp Require Import base option list gmap strings pretty.

Local Open Scope string_scope.
Local Open Scope list_scope.

(** ** JavaScript values

    Field definitions are plain JSON-like data.  An object is the list of its
    own enumerable properties in enumeration order, so that [Object.entries]
    is the list itself.  (JavaScript enumerates array-index keys first; no
    function of the library enumerates an object that it built itself, so the
    embedding lists keys in insertion order.)  [None] at type [option value]
    stands for [undefined]. *)

Module Js.

Inductive lit : Type :=
| LNull
| LBool (b : bool)
| LNum (z : Z)
| LStr (s : string).

#[local] Unset Elimination Schemes.

Inductive value : Type :=
| VLit (l : lit)
| VArr (a : list value)
| VObj (o : list (string * value)).

#[local] Set Elimination Schemes.

Definition obj : Type := list (string * value).

Definition VStr (s : string) : value := VLit (LStr s).

(** [o[k]] *)
Fixpoint obj_get (k : string) (o : obj) : option value :=
  match o with
  | [] => None
  | (k', v) :: o' => if String.eqb k k' then Some v else obj_get k o'
  end.

(** [o[k] = v] *)
Fixpoint obj_set (k : string) (v : value) (o : obj) : obj :=
  match o with
  | [] => [(k, v)]
  | (k', v') :: o' =>
      if String.eqb k k' then (k, v) :: o' else (k', v') :: obj_set k v o'
  end.

(** [const { k, ...rest } = o]: the properties of [o] other than [k] *)
Fixpoint obj_omit (k : string) (o : obj) : obj :=
  match o with
  | [] => []
  | (k', v) :: o' =>
      if String.eqb k k' then obj_omit k o' else (k', v) :: obj_omit k o'
  end.

Definition keys (o : obj) : list string := map fst o.

(** Index keys of arrays and strings: [["0", x0], ["1", x1], ...] *)
Definition index_entries (xs : list value) : obj :=
  imap (fun i x => (pretty i, x)) xs.

Definition chars (s : string) : list value :=
  map (fun c => VStr (String c EmptyString)) (list_ascii_of_string s).

(** [Object.entries(v)] for a value that is neither [null] nor [undefined] *)
Definition entries (v : value) : obj :=
  match v with
  | VObj o => o
  | VArr a => index_entries a
  | VLit (LStr s) => index_entries (chars s)
  | VLit _ => []
  end.

(** [Boolean(v)] *)
Definition truthy (v : option value) : bool :=
  match v with
  | None => false
  | Some (VLit LNull) => false
  | Some (VLit (LBool b)) => b
  | Some (VLit (LNum z)) => negb (Z.eqb z 0)
  | Some (VLit (LStr s)) => negb (String.eqb s "")
  | Some (VArr _) => true
  | Some (VObj _) => true
  end.

(** [{ ...target, ...v }] *)
Definition spread (target : obj) (v : value) : obj :=
  fold_left (fun acc kv => obj_set (fst kv) (snd kv) acc) (entries v) target.

(** [v === s] for a string literal [s] *)
Definition is_str (s : string) (v : option value) : bool :=
  match v with
  | Some (VLit (LStr s')) => String.eqb s' s
  | _ => false
  end.

(** A property declared with type [string] *)
Definition as_str (v : option value) : option string :=
  match v with
  | Some (VLit (LStr s)) => Some s
  | _ => None
  end.

(** [l.join(sep)] *)
Fixpoint join (sep : string) (l : list string) : string :=
  match l with
  | [] => ""
  | x :: l' =>
      match l' with
      | [] => x
      | _ :: _ => x +:+ sep +:+ join sep l'
      end
  end.

(** [s.split(c)] for a one-character separator *)
Fixpoint split (c : ascii) (s : string) : list string :=
  match s with
  | EmptyString => [""]
  | String a s' =>
      if Ascii.eqb a c then "" :: split c s'
      else
        match split c s' with
        | [] => [String a ""]
        | x :: l => String a x :: l
        end
  end.

(** Nesting depth of objects and arrays *)
Fixpoint depth (v : value) : nat :=
  match v with
  | VLit _ => 0
  | VArr a => S (fold_right (fun x n => Nat.max (depth x) n) 0 a)
  | VObj o => S (fold_right (fun kv n => Nat.max (depth (snd kv)) n) 0 o)
  end.

End Js.

Import Js.

(** ** Outcomes

    A run returns a value, throws, exhausts the recursion budget that stands
    for the call stack, or leaves the embedding ([Untyped]): it reads a
    property whose value is not of its declared TypeScript type, or prints a
    number outside the range of the integers that JavaScript holds exactly. *)

Inductive exn : Type :=
| TypeError
| Error (msg : string).

Inductive res (A : Type) : Type :=
| Ok (a : A)
| Throw (e : exn)
| OutOfFuel
| Untyped.

Arguments Ok {A} a.
Arguments Throw {A} e.
Arguments OutOfFuel {A}.
Arguments Untyped {A}.

#[global] Instance res_bind : MBind res := fun A B f r =>
  match r with
  | Ok a => f a
  | Throw e => Throw e
  | OutOfFuel => OutOfFuel
  | Untyped => Untyped
  end.

#[global] Instance res_ret : MRet res := @Ok.

(** [xs.forEach] / [xs.reduce] with a body that may fail *)
Fixpoint foldM {A S : Type} (f : S -> A -> res S) (s : S) (xs : list A) : res S :=
  match xs with
  | [] => Ok s
  | x :: xs' => s' ← f s x; foldM f s' xs'
  end.

(** ** Plain objects used as tables

    A table written as an object literal is read with [table[k]], which also
    finds the properties that every plain object inherits from
    [Object.prototype]: functions, and under [__proto__] the prototype
    itself.  None of them is [undefined], all are truthy, and none has a
    property that the library reads from what it finds. *)

Definition Object_prototype_names : list string :=
  ["constructor"; "__defineGetter__"; "__defineSetter__"; "hasOwnProperty";
   "__lookupGetter__"; "__lookupSetter__"; "isPrototypeOf";
   "propertyIsEnumerable"; "toString"; "valueOf"; "__proto__";
   "toLocaleString"].

Definition inherited (k : string) : bool :=
  existsb (String.eqb k) Object_prototype_names.

(** What [table[k]] finds: an own entry, an inherited property, or nothing
    ([undefined]). *)
Inductive looked (A : Type) : Type :=
| Own (a : A)
| Inherited
| Absent.

Arguments Own {A} a.
Arguments Inherited {A}.
Arguments Absent {A}.

Definition plain_get {A : Type} (table : gmap string A) (k : string) : looked A :=
  match table !! k with
  | Some a => Own a
  | None => if inherited k then Inherited else Absent
  end.

(** ** Types of the editor *)

Inductive ChildFieldName : Type := CFields | CProperties.

Definition ChildFieldName_key (n : ChildFieldName) : string :=
  match n with
  | CFields => "fields"
  | CProperties => "properties"
  end.

Definition is_CProperties (n : option ChildFieldName) : bool :=
  match n with Some CProperties => true | _ => false end.

Definition is_CFields (n : option ChildFieldName) : bool :=
  match n with Some CFields => true | _ => false end.

Record FieldMeta : Type := mkFieldMeta {
  m_childFieldsName : option ChildFieldName;
  m_canHaveChildFields : bool;
  m_hasChildFields : bool;
  m_canHaveMultiFields : bool;
  m_hasMultiFields : bool;
  m_isExpanded : bool;
  m_childFields : option (list string)
}.

(** [NormalizedField extends FieldMeta] *)
Record NormalizedField : Type := mkNormalizedField {
  id : string;
  parentId : option string;
  nestedDepth : nat;
  isMultiField : bool;
  path : string;
  source : obj;
  childFieldsName : option ChildFieldName;
  canHaveChildFields : bool;
  hasChildFields : bool;
  canHaveMultiFields : bool;
  hasMultiFields : bool;
  isExpanded : bool;
  childFields : option (list string)
}.

Record NormalizedFields : Type := mkNormalizedFields {
  byId : gmap string NormalizedField;
  rootLevelFields : list string;
  maxNestedDepth : nat
}.

(** ** Field metadata *)

Definition getChildFieldsName (dataType : option value) : option ChildFieldName :=
  if is_str "text" dataType || is_str "keyword" dataType then Some CFields
  else if is_str "object" dataType || is_str "nested" dataType then Some CProperties
  else None.

(** [field[childFieldsName!]] *)
Definition child_container (field : obj) (n : option ChildFieldName) : option value :=
  match n with
  | Some c => obj_get (ChildFieldName_key c) field
  | None => obj_get "undefined" field
  end.

(** [Boolean(x) && Object.keys(x).length > 0] *)
Definition has_entries (x : option value) : bool :=
  truthy x &&
  match x with
  | Some v => negb (Nat.eqb (length (entries v)) 0)
  | None => false
  end.

Definition getFieldMeta (field : obj) (isMultiField : option bool) : FieldMeta :=
  let multi := match isMultiField with Some b => b | None => false end in
  let childFieldsName := getChildFieldsName (obj_get "type" field) in
  let canHaveChildFields :=
    if multi then false else is_CProperties childFieldsName in
  let hasChildFields :=
    if multi then false
    else canHaveChildFields && has_entries (child_container field childFieldsName) in
  let canHaveMultiFields :=
    if multi then false else is_CFields childFieldsName in
  let hasMultiFields :=
    if multi then false
    else canHaveMultiFields && has_entries (child_container field childFieldsName) in
  {| m_childFieldsName := childFieldsName;
     m_canHaveChildFields := canHaveChildFields;
     m_hasChildFields := hasChildFields;
     m_canHaveMultiFields := canHaveMultiFields;
     m_hasMultiFields := hasMultiFields;
     m_isExpanded := false;
     m_childFields := None |}.

(** ** Parameter configuration *)

Definition FieldConfig : Type := obj.

Record PropDefinition : Type := mkPropDefinition {
  prop_fieldConfig : option FieldConfig
}.

Record ParameterDefinition : Type := mkParameterDefinition {
  param_fieldConfig : option FieldConfig;
  param_props : option (gmap string PropDefinition)
}.

Definition dquote : string := String (ascii_of_nat 34) EmptyString.

Definition no_field_config (prop param : string) : string :=
  "No field config found for prop " +:+ dquote +:+ prop +:+ dquote +:+
  " on param " +:+ dquote +:+ param +:+ dquote +:+ " ".

(** [x || {}] *)
Definition or_empty (c : option FieldConfig) : FieldConfig :=
  match c with Some x => x | None => [] end.

Section Constants.

(** The table [PARAMETERS_DEFINITION] of the constants module, keyed by
    parameter name. *)
Variable PARAMETERS_DEFINITION : gmap string ParameterDefinition.

(** A property found on [Object.prototype] has neither [props] nor
    [fieldConfig]. *)
Definition getFieldConfig (param : string) (prop : option string) : res FieldConfig :=
  match plain_get PARAMETERS_DEFINITION param with
  | Absent => Throw TypeError
  | Inherited =>
      match prop with
      | Some p => Throw (Error (no_field_config p param))
      | None => Ok []
      end
  | Own def =>
      match prop with
      | Some p =>
          match param_props def with
          | None => Throw (Error (no_field_config p param))
          | Some props =>
              match plain_get props p with
              | Absent => Throw (Error (no_field_config p param))
              | Inherited => Ok []
              | Own pd => Ok (or_empty (prop_fieldConfig pd))
              end
          end
      | None => Ok (or_empty (param_fieldConfig def))
      end
  end.

End Constants.

(** ** Type change policy *)

Definition shouldDeleteChildFieldsAfterTypeChange (oldType newType : string) : bool :=
  if String.eqb oldType "text" && negb (String.eqb newType "keyword") then true
  else if String.eqb oldType "keyword" && negb (String.eqb newType "text") then true
  else if String.eqb oldType "object" && negb (String.eqb newType "nested") then true
  else if String.eqb oldType "nested" && negb (String.eqb newType "object") then true
  else false.

(** ** Validity of the editor state *)

(** A section of the state that tracks validity: its [isValid] is [true],
    [false] or [undefined] ([None]). *)
Record StateSection : Type := mkStateSection { sec_isValid : option bool }.

(** The state object: its entries in enumeration order; a key may hold
    [undefined] ([None]). *)
Definition State : Type := list (string * option StateSection).

Definition stateWithValidity : list string :=
  ["configuration"; "fieldsJsonEditor"; "fieldForm"].

Definition includes (l : list string) (k : string) : bool :=
  existsb (String.eqb k) l.

Definition isStateValid_step (isValid : option bool) (kv : string * option StateSection)
  : option bool :=
  match snd kv with
  | None => isValid
  | Some value =>
      match isValid, sec_isValid value with
      | Some a, Some b => Some (a && b)
      | _, _ => None
      end
  end.

Definition isStateValid (state : State) : option bool :=
  fold_left isStateValid_step
    (List.filter (fun kv => includes stateWithValidity (fst kv)) state)
    (Some true).

(** ** Normalisation *)

(** What a call of [normalizeFields] mutates: the table [to], the array
    [idsArray] it pushes to, the number of identifiers drawn so far and the
    variable [maxNestedDepth] of the enclosing [normalize]. *)
Record NormState : Type := mkNormState {
  ns_to : gmap string NormalizedField;
  ns_ids : list string;
  ns_next : nat;
  ns_max : nat
}.

(** [paths.length ? `${paths.join('.')}.${name}` : name] *)
Definition field_path (paths : list string) (name : string) : string :=
  match paths with
  | [] => name
  | _ :: _ => join "." paths +:+ "." +:+ name
  end.

(** [{ id, parentId, nestedDepth, isMultiField, path, source, ...meta }] *)
Definition mkRow (id : string) (parentId : option string) (nestedDepth : nat)
    (isMultiField : bool) (path : string) (source : obj) (meta : FieldMeta)
  : NormalizedField :=
  {| id := id;
     parentId := parentId;
     nestedDepth := nestedDepth;
     isMultiField := isMultiField;
     path := path;
     source := source;
     childFieldsName := m_childFieldsName meta;
     canHaveChildFields := m_canHaveChildFields meta;
     hasChildFields := m_hasChildFields meta;
     canHaveMultiFields := m_canHaveMultiFields meta;
     hasMultiFields := m_hasMultiFields meta;
     isExpanded := m_isExpanded meta;
     childFields := m_childFields meta |}.

Definition set_childFields (meta : FieldMeta) (cs : option (list string)) : FieldMeta :=
  {| m_childFieldsName := m_childFieldsName meta;
     m_canHaveChildFields := m_canHaveChildFields meta;
     m_hasChildFields := m_hasChildFields meta;
     m_canHaveMultiFields := m_canHaveMultiFields meta;
     m_hasMultiFields := m_hasMultiFields meta;
     m_isExpanded := m_isExpanded meta;
     m_childFields := cs |}.

(** [{ name: propName, ...value }] *)
Definition named_field (propName : string) (value : value) : obj :=
  spread [("name", VStr propName)] value.

(** [const { properties, fields, ...rest } = field] *)
Definition strip_containers (field : obj) : obj :=
  obj_omit "fields" (obj_omit "properties" field).

(** [hasChildFields || hasMultiFields] *)
Definition has_children (meta : FieldMeta) : bool :=
  m_hasChildFields meta || m_hasMultiFields meta.

Definition next_depth (meta : FieldMeta) (nestedDepth : nat) : nat :=
  if m_canHaveChildFields meta || m_canHaveMultiFields meta
  then nestedDepth + 1 else nestedDepth.

Section Normalize.

(** [uid n] is the identifier that [uuid.v4()] returns at the [n]-th call
    (counting from 0).  A version-4 UUID is a string of 36 characters, none
    of them the name of a property of [Object.prototype], so that
    [acc[id] = normalizedField] defines an own property of the table. *)
Variable uid : nat -> string.

(** [getUniqueId()], given the number of identifiers drawn so far *)
Definition getUniqueId (drawn : nat) : string * nat := (uid drawn, S drawn).

(** The callback of the [reduce] in [normalizeFields]; [recurse] is the
    recursive call. *)
Definition normalizeEntry
    (recurse : value -> list string -> nat -> bool -> option string ->
               NormState -> res NormState)
    (paths : list string) (nestedDepth : nat) (isMultiField : bool)
    (parentId : option string) (st : NormState) (kv : string * value)
  : res NormState :=
  let propName := fst kv in
  let value := snd kv in
  let '(id, drawn) := getUniqueId (ns_next st) in
  let idsArray := ns_ids st ++ [id] in
  let field := named_field propName value in
  let meta := getFieldMeta field (Some isMultiField) in
  r ← (if has_children meta then
         let nextDepth := next_depth meta nestedDepth in
         match child_container field (m_childFieldsName meta) with
         | None => Throw TypeError
         | Some children =>
             st' ← recurse children (paths ++ [propName]) nextDepth
                    (m_canHaveMultiFields meta) (Some id)
                    (mkNormState (ns_to st) [] drawn
                       (Nat.max (ns_max st) nextDepth));
             Ok (set_childFields meta (Some (ns_ids st')),
                 ns_to st', ns_next st', ns_max st')
         end
       else Ok (meta, ns_to st, drawn, ns_max st));
  let '(meta', to, next, maxDepth) := r in
  let normalizedField :=
    mkRow id parentId nestedDepth isMultiField
      (field_path paths propName) (strip_containers field) meta' in
  Ok (mkNormState (<[id := normalizedField]> to) idsArray next maxDepth).

(** [fuel] bounds the depth of the recursion: it is the room that the call
    stack leaves for nested calls. *)
Fixpoint normalizeFields (fuel : nat) (props : value) (paths : list string)
    (nestedDepth : nat) (isMultiField : bool) (parentId : option string)
    (st : NormState) : res NormState :=
  match fuel with
  | O => OutOfFuel
  | S fuel' =>
      foldM (normalizeEntry (normalizeFields fuel')
               paths nestedDepth isMultiField parentId)
        st (entries props)
  end.

(** [normalize] is run on a stack with room for the nesting of its argument,
    which is all that the recursion needs (lemma [normalize_total]); on a
    tree nested deeper than the stack of the host allows, the source throws a
    [RangeError], which this definition leaves out and [normalizeFields]
    shows as [OutOfFuel]. *)
Definition normalize (fieldsToNormalize : obj) : res NormalizedFields :=
  st ← normalizeFields (S (depth (VObj fieldsToNormalize)))
         (VObj fieldsToNormalize) [] 0 false None (mkNormState ∅ [] 0 0);
  Ok {| byId := ns_to st;
        rootLevelFields := ns_ids st;
        maxNestedDepth := ns_max st |}.

End Normalize.

(** ** Denormalisation *)

(** The property key [childFieldsName!] *)
Definition container_key (n : option ChildFieldName) : string :=
  match n with
  | Some c => ChildFieldName_key c
  | None => "undefined"
  end.

(** [String(v)], the conversion that a property key undergoes.  A number is
    an integer: up to [2^53 - 1] in absolute value JavaScript holds it
    exactly and prints it in decimal, and the embedding prints no other
    number.  An array prints its elements separated by commas, [null] as the
    empty string.  An object prints as [[object Object]] through the
    [toString] it inherits; an own [toString] property hides that method and
    is not callable, being data, and the [valueOf] tried next returns the
    object itself, so that the conversion throws. *)
Fixpoint to_string (v : value) : res string :=
  match v with
  | VLit LNull => Ok "null"
  | VLit (LBool b) => Ok (if b then "true" else "false")
  | VLit (LNum z) =>
      if (Z.abs z <=? 2 ^ 53 - 1)%Z then Ok (pretty z) else Untyped
  | VLit (LStr s) => Ok s
  | VArr a =>
      ss ← (fix elements (xs : list value) : res (list string) :=
              match xs with
              | [] => Ok []
              | x :: xs' =>
                  s ← match x with
                      | VLit LNull => Ok ""
                      | _ => to_string x
                      end;
                  ss ← elements xs';
                  Ok (s :: ss)
              end) a;
      Ok (join "," ss)
  | VObj o =>
      match obj_get "toString" o with
      | Some _ => Throw TypeError
      | None => Ok "[object Object]"
      end
  end.

(** The key [k] of [to[k]], [k] being the value of a property that may be
    missing *)
Definition property_key (k : option value) : res string :=
  match k with
  | Some v => to_string v
  | None => Ok "undefined"
  end.

(** An object that [deNormalizePaths] fills: its own properties, and its
    prototype once an assignment to [__proto__] has replaced
    [Object.prototype] ([None] until then).  Such a prototype is a field
    object, whose own prototype is [Object.prototype]. *)
Record Target : Type := mkTarget {
  own : obj;
  proto : option obj
}.

(** [{}] *)
Definition empty_target : Target := mkTarget [] None.

(** Does a data property named [__proto__] stand between the object and the
    accessor of [Object.prototype]? *)
Definition shadows_proto (to : Target) : bool :=
  bool_decide (is_Some (obj_get "__proto__" (own to))) ||
  match proto to with
  | Some p => bool_decide (is_Some (obj_get "__proto__" p))
  | None => false
  end.

(** [to[name] = field].  Every property met along the prototype chain is a
    writable data property, except [__proto__] on [Object.prototype]: when
    the assignment reaches that accessor, it replaces the prototype of [to]
    by [field] and defines no property. *)
Definition assign (name : string) (field : obj) (to : Target) : Target :=
  if String.eqb name "__proto__" && negb (shadows_proto to)
  then mkTarget (own to) (Some field)
  else mkTarget (obj_set name (VObj field) (own to)) (proto to).

(** The callback of the [forEach] in [deNormalizePaths].  The children are
    rebuilt before the field is attached: each field object is fresh, so
    attaching it first and filling its container afterwards, as the source
    does, builds the same tree. *)
Definition deNormalizeId (recurse : list string -> Target -> res Target)
    (table : gmap string NormalizedField) (to : Target) (id : string)
  : res Target :=
  match table !! id with
  | None => Throw TypeError
  | Some row =>
      name ← property_key (obj_get "name" (source row));
      let normalizedField := obj_omit "name" (source row) in
      match childFields row with
      | Some cs =>
          children ← recurse cs empty_target;
          Ok (assign name
                (obj_set (container_key (childFieldsName row))
                   (VObj (own children)) normalizedField) to)
      | None => Ok (assign name normalizedField to)
      end
  end.

(** [fuel] bounds the depth of the recursion, which follows [childFields]
    and does not end on a table with a cycle. *)
Fixpoint deNormalizePaths (fuel : nat) (table : gmap string NormalizedField)
    (ids : list string) (to : Target) : res Target :=
  match fuel with
  | O => OutOfFuel
  | S fuel' => foldM (deNormalizeId (deNormalizePaths fuel' table) table) to ids
  end.

(** The result is given by the own properties of the object returned. *)
Definition deNormalize (fuel : nat) (normalized : NormalizedFields) : res obj :=
  to ← deNormalizePaths fuel (byId normalized) (rootLevelFields normalized)
         empty_target;
  Ok (own to).

(** ** Path maintenance

    Tables are objects that the caller shares with the library, so they live
    in a store and are passed by reference; rows are only ever built by
    object literals and are stored by value. *)

Abbreviation loc := positive.
Abbreviation heap := (gmap loc (gmap string NormalizedField)).

(** The object that a reference denotes (a reference of the program always
    denotes one) *)
Definition heap_get (l : loc) (h : heap) : res (gmap string NormalizedField) :=
  match h !! l with
  | Some t => Ok t
  | None => Untyped
  end.

(** [table[k] = row] on the object at [l] *)
Definition heap_put (l : loc) (k : string) (row : NormalizedField) (h : heap) : res heap :=
  t ← heap_get l h;
  Ok (<[l := <[k := row]> t]> h).

(** [{ ..._field, path }] *)
Definition set_path (r : NormalizedField) (p : string) : NormalizedField :=
  {| id := id r;
     parentId := parentId r;
     nestedDepth := nestedDepth r;
     isMultiField := isMultiField r;
     path := p;
     source := source r;
     childFieldsName := childFieldsName r;
     canHaveChildFields := canHaveChildFields r;
     hasChildFields := hasChildFields r;
     canHaveMultiFields := canHaveMultiFields r;
     hasMultiFields := hasMultiFields r;
     isExpanded := isExpanded r;
     childFields := childFields r |}.

(** The callback of the [forEach] over the child rows *)
Definition updateChild (recurse : NormalizedField -> heap -> res heap)
    (h : heap) (childField : option NormalizedField) : res heap :=
  match childField with
  | None => Throw TypeError
  | Some c => recurse c h
  end.

(** The closure [updateFieldPath] reads the table at [byId] and writes to the
    table at [updatedById]; [fuel] bounds the depth of the recursion. *)
Fixpoint updateFieldPath (fuel : nat) (byId updatedById : loc)
    (_field : NormalizedField) (_paths : list string) (h : heap) : res heap :=
  match fuel with
  | O => OutOfFuel
  | S fuel' =>
      match as_str (obj_get "name" (source _field)) with
      | None => Untyped
      | Some name =>
          h1 ← heap_put updatedById (id _field)
                 (set_path _field (field_path _paths name)) h;
          if hasChildFields _field || hasMultiFields _field then
            match childFields _field with
            | None => Throw TypeError
            | Some cs =>
                t ← heap_get byId h1;
                foldM (updateChild (fun c =>
                         updateFieldPath fuel' byId updatedById c (_paths ++ [name])))
                  h1 (map (fun fieldId => t !! fieldId) cs)
            end
          else Ok h1
      end
  end.

(** [field.parentId ? ... : ...] *)
Definition truthy_id (p : option string) : option string :=
  match p with
  | Some s => if String.eqb s "" then None else Some s
  | None => None
  end.

(** [{ ...byId }] allocates the new table; the result names it. *)
Definition updateFieldsPathAfterFieldNameChange (fuel : nat)
    (field : NormalizedField) (byId : loc) (h : heap)
  : res (string * loc * heap) :=
  t ← heap_get byId h;
  let updatedById := fresh (dom h) in
  let h0 := <[updatedById := t]> h in
  paths ← match truthy_id (parentId field) with
          | Some p =>
              t0 ← heap_get byId h0;
              match t0 !! p with
              | Some parent => Ok (split "." (path parent))
              | None => Throw TypeError
              end
          | None => Ok []
          end;
  h' ← updateFieldPath fuel byId updatedById field paths h0;
  u ← heap_get updatedById h';
  match u !! id field with
  | Some r => Ok (path r, updatedById, h')
  | None => Throw TypeError
  end.

(** ** Main types and subtypes *)

(** An entry of [MAIN_DATA_TYPE_DEFINITION]: [subTypes] is [Some types] when
    the definition has a [subTypes] property, with [types] its list
    [subTypes.types]. *)
Record DataTypeDefinition : Type := mkDataTypeDefinition {
  subTypes : option (list string)
}.

(** [acc[k] = v] on a plain object, for a string [v]: under [__proto__] the
    assignment reaches the setter of [Object.prototype], which ignores a
    value that is neither an object nor [null]; any other key becomes an own
    property. *)
Definition plain_set_string (k v : string) (acc : gmap string string)
  : gmap string string :=
  if String.eqb k "__proto__" then acc else <[k := v]> acc.

(** The inner [forEach]: [acc[subType] = type] *)
Definition addSubTypes (type : string) (acc : gmap string string)
    (types : list string) : gmap string string :=
  fold_left (fun acc subType => plain_set_string subType type acc) types acc.

(** [Object.entries(MAIN_DATA_TYPE_DEFINITION).reduce(...)], the table being
    given by its entries in enumeration order *)
Definition subTypesMapToType (MAIN_DATA_TYPE_DEFINITION : list (string * DataTypeDefinition))
  : gmap string string :=
  fold_left (fun acc kv =>
    match subTypes (snd kv) with
    | Some types => addSubTypes (fst kv) acc types
    | None => acc
    end) MAIN_DATA_TYPE_DEFINITION ∅.

(** [subTypesMapToType[subType]] *)
Definition getMainTypeFromSubType
    (MAIN_DATA_TYPE_DEFINITION : list (string * DataTypeDefinition))
    (subType : string) : looked string :=
  plain_get (subTypesMapToType MAIN_DATA_TYPE_DEFINITION) subType.

(** ** Descendants *)

(** The callback of the [forEach] in [getChildFields]: push the child, then
    collect below it. *)
Definition collectChild
    (recurse : NormalizedField -> list NormalizedField -> res (list NormalizedField))
    (to : list NormalizedField) (childField : option NormalizedField)
  : res (list NormalizedField) :=
  match childField with
  | None => Throw TypeError
  | Some c => recurse c (to ++ [c])
  end.

(** [fuel] bounds the depth of the recursion. *)
Fixpoint getChildFields (fuel : nat) (byId : gmap string NormalizedField)
    (_field : NormalizedField) (to : list NormalizedField)
  : res (list NormalizedField) :=
  match fuel with
  | O => OutOfFuel
  | S fuel' =>
      if hasChildFields _field || hasMultiFields _field then
        match childFields _field with
        | None => Throw TypeError
        | Some cs =>
            foldM (collectChild (getChildFields fuel' byId)) to
              (map (fun fieldId => byId !! fieldId) cs)
        end
      else Ok to
  end.

Definition getAllChildFields (fuel : nat) (field : NormalizedField)
    (byId : gmap string NormalizedField) : res (list NormalizedField) :=
  getChildFields fuel byId field [].

(** ** Maximal depth *)

(** [Object.values(byId).reduce(...)]: the maximum does not depend on the
    order in which the rows are enumerated (lemma [max_depth_permutation]). *)
Definition max_depth (rows : list NormalizedField) : nat :=
  fold_left (fun maxDepth field => Nat.max maxDepth (nestedDepth field)) rows 0.

Definition getMaxNestedDepth (byId : gmap string NormalizedField) : nat :=
  max_depth (snd <$> map_to_list byId).

(** ** Tree view *)

#[local] Unset Elimination Schemes.

(** [{ label, children }] *)
Inductive TreeItem (L : Type) : Type :=
| mkTreeItem (label : L) (children : option (list (TreeItem L))).

#[local] Set Elimination Schemes.

Arguments mkTreeItem {L} label children.

(** [xs.map(f)] with a callback that may fail *)
Fixpoint mapM {A B : Type} (f : A -> res B) (xs : list A) : res (list B) :=
  match xs with
  | [] => Ok []
  | x :: xs' => y ← f x; ys ← mapM f xs'; Ok (y :: ys)
  end.

(** The callback of the [map] in [buildFieldTreeFromIds] *)
Definition buildItem {L : Type} (recurse : list string -> res (list (TreeItem L)))
    (byId : gmap string NormalizedField) (render : NormalizedField -> L)
    (id : string) : res (TreeItem L) :=
  match byId !! id with
  | None => Throw TypeError
  | Some field =>
      children ← match childFields field with
                 | Some cs => items ← recurse cs; Ok (Some items)
                 | None => Ok None
                 end;
      Ok (mkTreeItem (render field) children)
  end.

(** [fuel] bounds the depth of the recursion. *)
Fixpoint buildFieldTreeFromIds {L : Type} (fuel : nat) (fieldsIds : list string)
    (byId : gmap string NormalizedField) (render : NormalizedField -> L)
  : res (list (TreeItem L)) :=
  match fuel with
  | O => OutOfFuel
  | S fuel' =>
      mapM (buildItem (fun ids => buildFieldTreeFromIds fuel' ids byId render)
              byId render) fieldsIds
  end.

(** * Specification notions *)

(** ** Shape of the table built by [normalizeFields]

    [rep uid t es paths d m p ids n n'] says that the table [t] holds the rows
    of the entries [es], normalised below parent [p] at depth [d] with
    multi-field flag [m] and ancestor names [paths]: the entries received the
    identifiers [ids], and the rows of [es] and of everything below them are
    those numbered from [n] up to (excluding) [n'], in pre-order. *)

Definition field_meta (propName : string) (value : value) (isMultiField : bool)
  : FieldMeta :=
  getFieldMeta (named_field propName value) (Some isMultiField).

Definition field_row (id : string) (parentId : option string) (nestedDepth : nat)
    (isMultiField : bool) (paths : list string) (propName : string)
    (value : value) (cs : option (list string)) : NormalizedField :=
  mkRow id parentId nestedDepth isMultiField (field_path paths propName)
    (strip_containers (named_field propName value))
    (set_childFields (field_meta propName value isMultiField) cs).

Inductive rep (uid : nat -> string) (t : gmap string NormalizedField)
  : obj -> list string -> nat -> bool -> option string -> list string ->
    nat -> nat -> Prop :=
| rep_nil paths d m p n :
    rep uid t [] paths d m p [] n n
| rep_leaf propName value es paths d m p ids n n' :
    has_children (field_meta propName value m) = false ->
    t !! uid n = Some (field_row (uid n) p d m paths propName value None) ->
    rep uid t es paths d m p ids (S n) n' ->
    rep uid t ((propName, value) :: es) paths d m p (uid n :: ids) n n'
| rep_node propName value es paths d m p ids n n1 n' children cs :
    has_children (field_meta propName value m) = true ->
    child_container (named_field propName value)
      (m_childFieldsName (field_meta propName value m)) = Some children ->
    rep uid t (entries children) (paths ++ [propName])
      (next_depth (field_meta propName value m) d)
      (m_canHaveMultiFields (field_meta propName value m)) (Some (uid n))
      cs (S n) n1 ->
    t !! uid n = Some (field_row (uid n) p d m paths propName value (Some cs)) ->
    rep uid t es paths d m p ids n1 n' ->
    rep uid t ((propName, value) :: es) paths d m p (uid n :: ids) n n'.

(** What every row says about itself: its key, a source without container
    entries, and flags that announce the children. *)
Definition row_sound (k : string) (r : NormalizedField) : Prop :=
  id r = k /\
  ("properties" ∉ keys (source r)) /\ ("fields" ∉ keys (source r)) /\
  ((hasChildFields r || hasMultiFields r) = true <-> is_Some (childFields r)).

(** ** Links between rows *)

Definition parent_of (t : gmap string NormalizedField) (k p : string) : Prop :=
  exists r, t !! k = Some r /\ parentId r = Some p.

(** No row is its own ancestor. *)
Definition acyclic (t : gmap string NormalizedField) : Prop :=
  forall k, ~ tc (parent_of t) k k.

(** Following [parentId] from [k] ends at a row without parent that is listed
    in [rootLevelFields]. *)
Inductive reaches_root (nf : NormalizedFields) : string -> Prop :=
| reaches_here k r :
    byId nf !! k = Some r -> parentId r = None ->
    k ∈ rootLevelFields nf -> reaches_root nf k
| reaches_up k r p :
    byId nf !! k = Some r -> parentId r = Some p ->
    reaches_root nf p -> reaches_root nf k.

(** [source.name] *)
Definition row_name (r : NormalizedField) : option string :=
  as_str (obj_get "name" (source r)).

(** The names along the [parentId] chain of [k], from the root down to [k]. *)
Inductive chain_names (t : gmap string NormalizedField)
  : string -> list string -> Prop :=
| chain_root k r n :
    t !! k = Some r -> parentId r = None -> row_name r = Some n ->
    chain_names t k [n]
| chain_child k r p ns n :
    t !! k = Some r -> parentId r = Some p -> row_name r = Some n ->
    chain_names t p ns ->
    chain_names t k (ns ++ [n]).

(** [in_subtree t r k]: [k] is the identifier of [r] or of a row reached from
    [r] through [childFields]. *)
Inductive in_subtree (t : gmap string NormalizedField)
  : NormalizedField -> string -> Prop :=
| sub_self r : in_subtree t r (id r)
| sub_child r cs c rc k :
    childFields r = Some cs -> c ∈ cs -> t !! c = Some rc ->
    in_subtree t rc k -> in_subtree t r k.

(** Well-formed tables: every row sits under its own, non-empty identifier;
    no child identifier dangles and every child points back to its parent;
    the flags announce the children; and every path is the dot-join of the
    names along the parent chain (which therefore ends at a root). *)
Record wf_table (t : gmap string NormalizedField) : Prop := mk_wf_table {
  wf_ids : forall k r, t !! k = Some r -> id r = k /\ k <> "";
  wf_children : forall k r cs c,
    t !! k = Some r -> childFields r = Some cs -> c ∈ cs ->
    exists rc, t !! c = Some rc /\ parentId rc = Some k;
  wf_flags : forall k r,
    t !! k = Some r ->
    ((hasChildFields r || hasMultiFields r) = true <-> is_Some (childFields r));
  wf_paths : forall k r,
    t !! k = Some r -> exists ns, chain_names t k ns /\ path r = join "." ns
}.

(** [field] is the row [r0] of the table after an edit of its source: same
    identity and links, and a declared name. *)
Definition renamed (t : gmap string NormalizedField) (field : NormalizedField) : Prop :=
  exists r0, t !! id field = Some r0 /\
    parentId field = parentId r0 /\
    childFields field = childFields r0 /\
    hasChildFields field = hasChildFields r0 /\
    hasMultiFields field = hasMultiFields r0 /\
    is_Some (row_name field).

(** [repathed tref u k]: in [u] the row [k] is the row of [tref] with its
    path set to the dot-join of the names along its parent chain in [tref]. *)
Definition repathed (tref u : gmap string NormalizedField) (k : string) : Prop :=
  exists rk ns, tref !! k = Some rk /\ chain_names tref k ns /\
    u !! k = Some (set_path rk (join "." ns)).

(** ** Structural equality of values: same properties, whatever their order *)

#[local] Unset Elimination Schemes.

Inductive veq : value -> value -> Prop :=
| veq_lit l : veq (VLit l) (VLit l)
| veq_arr a b : Forall2 veq a b -> veq (VArr a) (VArr b)
| veq_obj o1 o2 :
    (forall k, option_Forall2 veq (obj_get k o1) (obj_get k o2)) ->
    veq (VObj o1) (VObj o2).

#[local] Set Elimination Schemes.

(** ** Trees that normalisation keeps whole

    Every field is an object with distinct keys and no [name] property of its
    own, and no field is named [__proto__]; a [properties] or [fields] entry
    occurs only as the container that the type of its field designates, holds
    a non-empty object, and does not occur inside a multi-field. *)

Fixpoint nodupb (l : list string) : bool :=
  match l with
  | [] => true
  | x :: l' => negb (existsb (String.eqb x) l') && nodupb l'
  end.

Definition is_container_key (k : string) : bool :=
  String.eqb k "properties" || String.eqb k "fields".

Definition designates (n : option ChildFieldName) (k : string) : bool :=
  match n with
  | Some c => String.eqb (ChildFieldName_key c) k
  | None => false
  end.

Fixpoint well_nested_field (isMultiField : bool) (v : value) {struct v} : bool :=
  match v with
  | VObj o =>
      nodupb (keys o) && negb (existsb (String.eqb "name") (keys o)) &&
      forallb (fun kv =>
        if is_container_key (fst kv) then
          negb isMultiField &&
          designates (getChildFieldsName (obj_get "type" o)) (fst kv) &&
          match snd kv with
          | VObj children =>
              negb (Nat.eqb (length children) 0) && nodupb (keys children) &&
              negb (existsb (String.eqb "__proto__") (keys children)) &&
              forallb (fun kv' =>
                well_nested_field (String.eqb (fst kv) "fields") (snd kv'))
                children
          | _ => false
          end
        else true) o
  | _ => false
  end.

Definition well_nested (fields : obj) : bool :=
  nodupb (keys fields) &&
  negb (existsb (String.eqb "__proto__") (keys fields)) &&
  forallb (fun kv => well_nested_field false (snd kv)) fields.

(** ** Runs that do not throw *)

(** A run that returns or exhausts the stack *)
Definition returns_or_overflows {A : Type} (r : res A) : Prop :=
  match r with
  | Ok _ | OutOfFuel => True
  | Throw _ | Untyped => False
  end.

(** ** Trees whose fields keep their names

    No field has a [name] property of its own; the fields are the entries of
    the tree and, below a field, the entries of whatever its [properties] and
    [fields] entries hold. *)

Fixpoint nameless_field (v : value) : bool :=
  match v with
  | VObj o =>
      negb (existsb (String.eqb "name") (keys o)) &&
      forallb (fun kv =>
        if is_container_key (fst kv) then
          match snd kv with
          | VObj children => forallb (fun kv' => nameless_field (snd kv')) children
          | VArr children => forallb nameless_field children
          | VLit _ => true
          end
        else true) o
  | _ => true
  end.

Definition nameless (fields : obj) : bool :=
  forallb (fun kv => nameless_field (snd kv)) fields.

(** ** Validity of the state, as the sum of its sections *)

(** The sections that count and are present *)
Definition present_sections (state : State) : list StateSection :=
  omap (fun kv => if includes stateWithValidity (fst kv) then snd kv else None) state.

Definition indeterminate (s : StateSection) : bool :=
  match sec_isValid s with None => true | Some _ => false end.

Definition valid (s : StateSection) : bool :=
  match sec_isValid s with Some b => b | None => false end.

Definition aggregate (sections : list StateSection) : option bool :=
  if existsb indeterminate sections then None
  else Some (forallb valid sections).

(** ** Listings of the rows below a field *)

(** Every parent lists its children. *)
Definition parents_listed (t : gmap string NormalizedField) : Prop :=
  forall k r p, t !! k = Some r -> parentId r = Some p ->
    exists rp cs, t !! p = Some rp /\ childFields rp = Some cs /\ k ∈ cs.

(** [children_of r]: the identifiers in [r.childFields], none when absent *)
Definition children_of (r : NormalizedField) : list string :=
  match childFields r with
  | Some cs => cs
  | None => []
  end.

(** [preorder t ids rows]: [rows] lists the rows of [ids] and of everything
    below them, each row before the rows below it, in the order of [ids]. *)
Inductive preorder (t : gmap string NormalizedField)
  : list string -> list NormalizedField -> Prop :=
| preorder_nil : preorder t [] []
| preorder_cons c cs rc below rest :
    t !! c = Some rc ->
    preorder t (children_of rc) below ->
    preorder t cs rest ->
    preorder t (c :: cs) (rc :: below ++ rest).

(** [below t r k]: [k] is reached from a child of [r]. *)
Definition below (t : gmap string NormalizedField) (r : NormalizedField)
    (k : string) : Prop :=
  exists c rc, c ∈ children_of r /\ t !! c = Some rc /\ in_subtree t rc k.

(** The labels of an outline, each item before its children *)
Fixpoint item_labels {L : Type} (item : TreeItem L) : list L :=
  match item with
  | mkTreeItem l children =>
      l :: match children with
           | Some items =>
               (fix all (xs : list (TreeItem L)) : list L :=
                  match xs with
                  | [] => []
                  | x :: xs' => item_labels x ++ all xs'
                  end) items
           | None => []
           end
  end.

Definition outline_labels {L : Type} (items : list (TreeItem L)) : list L :=
  concat (map item_labels items).

(** Rows that differ at most in their path *)
Definition same_but_path (r r' : NormalizedField) : Prop :=
  r' = set_path r (path r').

(** [lists_subType s kv]: the definition [kv] lists [s] among its subtypes. *)
Definition lists_subType (s : string) (kv : string * DataTypeDefinition) : bool :=
  match subTypes (snd kv) with
  | Some types => existsb (String.eqb s) types
  | None => false
  end.

(** ** Sample data *)

Definition uid_demo (n : nat) : string := String "u" (pretty n).

(** [{ myObject: { type: 'object', properties: { name: { type: 'text',
       fields: { raw: { type: 'keyword' } } } } } }] *)
Definition sample_tree : obj :=
  [("myObject", VObj [("type", VStr "object");
     ("properties", VObj [("name", VObj [("type", VStr "text");
        ("fields", VObj [("raw", VObj [("type", VStr "keyword")])])])])])].

(** [{ a: { type: 'object', properties: {} } }] *)
Definition empty_container_tree : obj :=
  [("a", VObj [("type", VStr "object"); ("properties", VObj [])])].

(** [{ title: { type: 'text', fields: { raw: { type: 'keyword' } } } }] *)
Definition multi_field_tree : obj :=
  [("title", VObj [("type", VStr "text");
     ("fields", VObj [("raw", VObj [("type", VStr "keyword")])])])].

(** [{ o: { type: 'object', fields: { x: { type: 'keyword' } } } }] *)
Definition stray_fields_tree : obj :=
  [("o", VObj [("type", VStr "object");
     ("fields", VObj [("x", VObj [("type", VStr "keyword")])])])].

(** [{ myObject: { type: 'object', properties: { name: { type: 'text' } } } }] *)
Definition documented_tree : obj :=
  [("myObject", VObj [("type", VStr "object");
     ("properties", VObj [("name", VObj [("type", VStr "text")])])])].

(** [{ t: { type: 'text', fields: { raw: { type: 'keyword',
       fields: { x: { type: 'keyword' } } } } } }] *)
Definition nested_multi_field_tree : obj :=
  [("t", VObj [("type", VStr "text");
     ("fields", VObj [("raw", VObj [("type", VStr "keyword");
        ("fields", VObj [("x", VObj [("type", VStr "keyword")])])])])])].

(** [{ a: { type: 'text', name: 'b' } }] *)
Definition named_property_tree : obj :=
  [("a", VObj [("type", VStr "text"); ("name", VStr "b")])].

(** The sample tree normalised, and its row [name] (identifier [u1]) after
    the field was renamed to [title]. *)
Definition sample_table : gmap string NormalizedField :=
  match normalize uid_demo sample_tree with
  | Ok nf => byId nf
  | _ => ∅
  end.

Definition sample_renamed : NormalizedField :=
  mkRow "u1" (Some "u0") 1 false "myObject.name"
    [("name", VStr "title"); ("type", VStr "text")]
    (set_childFields
       (getFieldMeta [("name", VStr "title"); ("type", VStr "text");
                      ("fields", VObj [("raw", VObj [("type", VStr "keyword")])])]
          (Some false))
       (Some ["u2"])).

Definition sample_store : gmap positive (gmap string NormalizedField) :=
  {[ 1%positive := sample_table ]}.

Definition sample_parameters : gmap string ParameterDefinition :=
  {[ "boost" := mkParameterDefinition (Some [("type", VStr "range")]) None;
     "index_options" :=
       mkParameterDefinition None
         (Some {[ "text" := mkPropDefinition (Some [("type", VStr "select")]);
                  "plain" := mkPropDefinition None ]}) ]}.

Definition sample_state : State :=
  [("isValid", None);
   ("configuration", Some (mkStateSection (Some true)));
   ("fieldForm", None);
   ("fieldsJsonEditor", Some (mkStateSection (Some false)))].

Definition sample_types : list (string * DataTypeDefinition) :=
  [("text", mkDataTypeDefinition None);
   ("numeric", mkDataTypeDefinition (Some ["long"; "integer"; "short"]));
   ("range", mkDataTypeDefinition (Some ["integer_range"; "date_range"]))].

(** * Properties *)

(** ** Field metadata *)

(** C5. A multi-field member gets all four flags false whatever its type; a
    type outside text, keyword, object and nested has no child container and
    neither capability. *)
Theorem getFieldMeta_no_container (field : obj) :
  (let meta := getFieldMeta field (Some true) in
   m_canHaveChildFields meta = false /\ m_hasChildFields meta = false /\
   m_canHaveMultiFields meta = false /\ m_hasMultiFields meta = false) /\
  (forall isMultiField,
     is_str "text" (obj_get "type" field) = false ->
     is_str "keyword" (obj_get "type" field) = false ->
     is_str "object" (obj_get "type" field) = false ->
     is_str "nested" (obj_get "type" field) = false ->
     let meta := getFieldMeta field isMultiField in
     m_childFieldsName meta = None /\
     m_canHaveChildFields meta = false /\ m_canHaveMultiFields meta = false).
Proof.
  split; [by cbn|].
  intros isMultiField Ht Hk Ho Hn.
  unfold getFieldMeta, getChildFieldsName; cbn.
  rewrite Ht, Hk, Ho, Hn; cbn.
  by destruct isMultiField as [[]|].
Qed.

Lemma getFieldMeta_no_container_witness :
  let field := [("name", VStr "n"); ("type", VStr "integer")] in
  let meta := getFieldMeta field (Some false) in
  m_childFieldsName meta = None /\
  m_canHaveChildFields meta = false /\ m_canHaveMultiFields meta = false.
Proof.
  exact (proj2 (getFieldMeta_no_container
                  [("name", VStr "n"); ("type", VStr "integer")])
           (Some false) eq_refl eq_refl eq_refl eq_refl).
Defined.

(** ** Parameter configuration *)

Lemma inherited_elem (k : string) :
  inherited k = true <-> k ∈ Object_prototype_names.
Proof.
  unfold inherited. rewrite existsb_exists. split.
  - intros (x & Hin & ->%String.eqb_eq). by apply list_elem_of_In.
  - intros Hin. exists k. split; [by apply list_elem_of_In|apply String.eqb_refl].
Qed.

(** C8. The claim fails on the name of a property that every object
    inherits: for a declared parameter with a props table, a prop that has no
    entry in the table but names a property of [Object.prototype] (such as
    [constructor] or [toString]) does not make [getFieldConfig] throw; the
    test [!props[prop]] finds the inherited property and the call returns the
    empty configuration. *)
Theorem getFieldConfig_inherited_prop
    (defs : gmap string ParameterDefinition) (param prop : string)
    (def : ParameterDefinition) (props : gmap string PropDefinition) :
  defs !! param = Some def -> param_props def = Some props ->
  props !! prop = None -> prop ∈ Object_prototype_names ->
  getFieldConfig defs param (Some prop) = Ok [].
Proof.
  intros Hdef Hp Hl Hin%inherited_elem.
  unfold getFieldConfig, plain_get. by rewrite Hdef, Hp, Hl, Hin.
Qed.

Lemma getFieldConfig_inherited_prop_witness :
  getFieldConfig sample_parameters "index_options" (Some "constructor") = Ok [].
Proof.
  apply (getFieldConfig_inherited_prop sample_parameters "index_options"
           "constructor"
           (mkParameterDefinition None
              (Some {[ "text" := mkPropDefinition (Some [("type", VStr "select")]);
                       "plain" := mkPropDefinition None ]}))
           {[ "text" := mkPropDefinition (Some [("type", VStr "select")]);
              "plain" := mkPropDefinition None ]}).
  - reflexivity.
  - reflexivity.
  - vm_compute. reflexivity.
  - apply inherited_elem. reflexivity.
Defined.

(** The entries of the sample table are found, and an unknown prop that is
    not an inherited name throws. *)
Example getFieldConfig_sample :
  getFieldConfig sample_parameters "index_options" (Some "text")
    = Ok [("type", VStr "select")] /\
  getFieldConfig sample_parameters "index_options" None = Ok [] /\
  getFieldConfig sample_parameters "index_options" (Some "other")
    = Throw (Error (no_field_config "other" "index_options")) /\
  getFieldConfig sample_parameters "boost" (Some "text")
    = Throw (Error (no_field_config "text" "boost")).
Proof. by vm_compute. Qed.

(** ** Type change policy *)

(** C9. Going from text to object deletes the child fields, going from text to
    keyword keeps them. *)
Theorem shouldDeleteChildFields_text :
  shouldDeleteChildFieldsAfterTypeChange "text" "object" = true /\
  shouldDeleteChildFieldsAfterTypeChange "text" "keyword" = false.
Proof. split; reflexivity. Qed.

(** ** Validity of the state *)

Lemma isStateValid_fold_none (l : list (string * option StateSection)) :
  fold_left isStateValid_step l None = None.
Proof.
  induction l as [|[k [s|]] l IH]; cbn; auto.
Qed.

Lemma isStateValid_fold (l : list (string * option StateSection)) (b : bool) :
  fold_left isStateValid_step l (Some b) =
  if existsb indeterminate (omap snd l) then None
  else Some (b && forallb valid (omap snd l)).
Proof.
  revert b. induction l as [|[k [s|]] l IH]; intros b; cbn.
  - by rewrite andb_true_r.
  - unfold indeterminate at 1, valid at 1.
    destruct (sec_isValid s) as [v|]; cbn.
    + rewrite IH. destruct (existsb indeterminate (omap snd l)); [done|].
      by rewrite andb_assoc.
    + apply isStateValid_fold_none.
  - apply IH.
Qed.

Lemma present_sections_filter (state : State) :
  omap snd (List.filter (fun kv => includes stateWithValidity (fst kv)) state)
  = present_sections state.
Proof.
  unfold present_sections.
  induction state as [|[k v] state IH]; [done|]. cbn -[includes].
  destruct (includes stateWithValidity k); cbn -[includes]; [|done].
  destruct v; cbn -[includes]; by rewrite IH.
Qed.



(** ** Objects *)

Lemma eqb_refl' (k : string) : String.eqb k k = true.
Proof. apply String.eqb_refl. Qed.

Lemma eqb_ne (k k' : string) : k <> k' -> String.eqb k k' = false.
Proof. intros H. by apply String.eqb_neq. Qed.

Lemma obj_get_None (k : string) (o : obj) : obj_get k o = None <-> k ∉ keys o.
Proof.
  induction o as [|[k' v] o IH]; cbn.
  - split; [intros _; apply not_elem_of_nil|done].
  - rewrite not_elem_of_cons. destruct (String.eqb_spec k k') as [->|Hne].
    + split; [done|]. by intros [? _].
    + rewrite IH. tauto.
Qed.

Lemma obj_get_Some_elem (k : string) (v : value) (o : obj) :
  obj_get k o = Some v -> (k, v) ∈ o.
Proof.
  induction o as [|[k' v'] o IH]; cbn; [done|].
  destruct (String.eqb_spec k k') as [->|Hne].
  - intros [= ->]. apply list_elem_of_here.
  - intros H. apply list_elem_of_further. auto.
Qed.

Lemma obj_get_omit_eq (k : string) (o : obj) : obj_get k (obj_omit k o) = None.
Proof.
  induction o as [|[k' v] o IH]; cbn; [done|].
  destruct (String.eqb k k') eqn:E; [done|]. cbn. by rewrite E.
Qed.

Lemma obj_get_omit_ne (k k' : string) (o : obj) :
  k <> k' -> obj_get k' (obj_omit k o) = obj_get k' o.
Proof.
  intros Hne. induction o as [|[k0 v] o IH]; cbn; [done|].
  destruct (String.eqb_spec k k0) as [->|Hne0].
  - by rewrite IH, eqb_ne by done.
  - cbn. by rewrite IH.
Qed.

Lemma obj_omit_notin (k : string) (o : obj) : k ∉ keys o -> obj_omit k o = o.
Proof.
  induction o as [|[k' v] o IH]; cbn; [done|].
  rewrite not_elem_of_cons. intros [Hne Hnot].
  by rewrite eqb_ne, IH.
Qed.

Lemma keys_omit_subseteq (k k' : string) (o : obj) :
  k' ∈ keys (obj_omit k o) -> k' ∈ keys o.
Proof.
  induction o as [|[k0 v] o IH]; cbn; [done|].
  destruct (String.eqb k k0); cbn; rewrite ?elem_of_cons; intuition.
Qed.

Lemma obj_get_set_eq (k : string) (v : value) (o : obj) :
  obj_get k (obj_set k v o) = Some v.
Proof.
  induction o as [|[k' v'] o IH]; cbn; [by rewrite eqb_refl'|].
  destruct (String.eqb k k') eqn:E; cbn; [by rewrite eqb_refl'|by rewrite E].
Qed.

Lemma obj_get_set_ne (k k' : string) (v : value) (o : obj) :
  k <> k' -> obj_get k' (obj_set k v o) = obj_get k' o.
Proof.
  intros Hne. induction o as [|[k0 v0] o IH]; cbn.
  - by rewrite eqb_ne.
  - destruct (String.eqb_spec k k0) as [->|Hne0]; cbn.
    + by rewrite !eqb_ne.
    + by rewrite IH.
Qed.

Lemma obj_set_notin (k : string) (v : value) (o : obj) :
  k ∉ keys o -> obj_set k v o = o ++ [(k, v)].
Proof.
  induction o as [|[k' v'] o IH]; cbn; [done|].
  rewrite not_elem_of_cons. intros [Hne Hnot].
  by rewrite eqb_ne, IH.
Qed.

(** A property read from a spread comes from the target or from the entries. *)
Lemma obj_get_fold_set (k : string) (c : value) (es target : obj) :
  obj_get k (fold_left (fun acc kv => obj_set (fst kv) (snd kv) acc) es target)
    = Some c ->
  (k, c) ∈ es \/ obj_get k target = Some c.
Proof.
  revert target. induction es as [|[k' v'] es IH]; intros target; cbn; [auto|].
  intros H. apply IH in H as [H|H].
  - left. by apply list_elem_of_further.
  - destruct (decide (k' = k)) as [->|Hne].
    + rewrite obj_get_set_eq in H. injection H as ->. left. apply list_elem_of_here.
    + rewrite obj_get_set_ne in H by done. auto.
Qed.

Lemma fold_set_fresh (es target : obj) :
  NoDup (keys target ++ keys es) ->
  fold_left (fun acc kv => obj_set (fst kv) (snd kv) acc) es target = target ++ es.
Proof.
  revert target. induction es as [|[k v] es IH]; intros target Hnd; cbn.
  - by rewrite app_nil_r.
  - cbn in Hnd. rewrite obj_set_notin.
    + rewrite IH; [by rewrite <- app_assoc|].
      unfold keys. rewrite map_app. cbn. by rewrite <- app_assoc.
    + apply NoDup_app in Hnd as (_ & Hd & _). intros Hin.
      apply (Hd k Hin), list_elem_of_here.
Qed.

Lemma nodupb_NoDup (l : list string) : nodupb l = true -> NoDup l.
Proof.
  induction l as [|x l IH]; cbn; [constructor|].
  intros [Hx Hl]%andb_prop. constructor; [|auto].
  intros Hin. apply negb_true_iff in Hx.
  assert (existsb (String.eqb x) l = true) as Hex; [|congruence].
  apply existsb_exists. exists x. split; [by apply list_elem_of_In|apply eqb_refl'].
Qed.

Lemma existsb_eqb_false (k : string) (l : list string) :
  existsb (String.eqb k) l = false -> k ∉ l.
Proof.
  intros H Hin. assert (existsb (String.eqb k) l = true); [|congruence].
  apply existsb_exists. exists k. split; [by apply list_elem_of_In|apply eqb_refl'].
Qed.

(** Index keys are decimal numerals; none of them is a property name that the
    library reads. *)
Lemma pretty_N_go_ne_t (x : N) (s s' : string) :
  s <> String "t" s' -> pretty_N_go x s <> String "t" s'.
Proof.
  revert s. induction (N.lt_wf_0 x) as [x _ IH]; intros s Hs.
  assert (x = 0 \/ 0 < x)%N as [->|Hpos] by lia.
  - by rewrite pretty_N_go_0.
  - rewrite pretty_N_go_step by done. apply IH.
    { by apply N.div_lt. }
    unfold pretty_N_char. by repeat case_match.
Qed.

Lemma pretty_nat_ne_type (i : nat) : pretty i <> "type".
Proof.
  unfold pretty, pretty_nat, pretty, pretty_N.
  case_decide; [done|]. by apply pretty_N_go_ne_t.
Qed.

Lemma index_entries_keys (xs : list value) (k : string) (v : value) :
  (k, v) ∈ index_entries xs -> (exists i : nat, k = pretty i) /\ v ∈ xs.
Proof.
  unfold index_entries. intros Hin.
  apply elem_of_lookup_imap in Hin as (i & x & [= -> ->] & Hl).
  split; [eauto|]. by eapply list_elem_of_lookup_2.
Qed.

Lemma depth_elem_arr (x : value) (a : list value) :
  x ∈ a -> depth x < depth (VArr a).
Proof.
  cbn. induction 1 as [x a|x y a _ IH]; cbn; lia.
Qed.

Lemma depth_elem_obj (k : string) (x : value) (o : obj) :
  (k, x) ∈ o -> depth x < depth (VObj o).
Proof.
  cbn. remember (k, x) as kx eqn:E.
  induction 1 as [kx' o|kx' y o _ IH]; subst; cbn; [lia|].
  specialize (IH eq_refl). lia.
Qed.

(** ** Normalisation builds the rows of the tree *)

Lemma has_children_can (field : obj) (multi : option bool) :
  has_children (getFieldMeta field multi) = true ->
  (m_canHaveChildFields (getFieldMeta field multi)
   || m_canHaveMultiFields (getFieldMeta field multi)) = true.
Proof.
  unfold has_children, getFieldMeta; cbn.
  destruct multi as [[]|]; cbn; try done;
    destruct (is_CProperties _), (is_CFields _); cbn; done.
Qed.

Lemma next_depth_children (field : obj) (multi : option bool) (d : nat) :
  has_children (getFieldMeta field multi) = true ->
  next_depth (getFieldMeta field multi) d = S d.
Proof.
  intros H. unfold next_depth. rewrite has_children_can by done. lia.
Qed.

Lemma strip_containers_keys (field : obj) :
  ("properties" ∉ keys (strip_containers field)) /\
  ("fields" ∉ keys (strip_containers field)).
Proof.
  unfold strip_containers. split; apply obj_get_None.
  - rewrite obj_get_omit_ne by done. apply obj_get_omit_eq.
  - apply obj_get_omit_eq.
Qed.

Section NormalizeProps.

Variable uid : nat -> string.
Hypothesis uid_inj : forall i j, uid i = uid j -> i = j.

Lemma rep_range t es paths d m p ids n n' :
  rep uid t es paths d m p ids n n' -> n <= n'.
Proof. induction 1; lia. Qed.

Lemma rep_agree t t' es paths d m p ids n n' :
  rep uid t es paths d m p ids n n' ->
  (forall j, n <= j < n' -> t' !! uid j = t !! uid j) ->
  rep uid t' es paths d m p ids n n'.
Proof.
  induction 1 as [|propName value es paths d m p ids n n' Hleaf Hrow Hrest IH
                  |propName value es paths d m p ids n n1 n' children cs
                     Hnode Hc Hsub IHsub Hrow Hrest IHrest]; intros Hag.
  - constructor.
  - pose proof (rep_range _ _ _ _ _ _ _ _ _ Hrest).
    apply rep_leaf; [done| |].
    + rewrite Hag by lia. done.
    + apply IH. intros j Hj. apply Hag. lia.
  - pose proof (rep_range _ _ _ _ _ _ _ _ _ Hsub).
    pose proof (rep_range _ _ _ _ _ _ _ _ _ Hrest).
    eapply rep_node; [done|done| | |].
    + apply IHsub. intros j Hj. apply Hag. lia.
    + rewrite Hag by lia. done.
    + apply IHrest. intros j Hj. apply Hag. lia.
Qed.

Lemma rep_ids_length t es paths d m p ids n n' :
  rep uid t es paths d m p ids n n' -> length ids = length es.
Proof. induction 1; cbn; lia. Qed.

(** The two ways in which the callback of [normalizeFields] returns. *)
Lemma normalizeEntry_Ok recurse paths d m p st propName value s1 :
  normalizeEntry uid recurse paths d m p st (propName, value) = Ok s1 ->
  (has_children (field_meta propName value m) = false /\
   s1 = mkNormState
          (<[uid (ns_next st) :=
               field_row (uid (ns_next st)) p d m paths propName value None]>
             (ns_to st))
          (ns_ids st ++ [uid (ns_next st)]) (S (ns_next st)) (ns_max st)) \/
  (has_children (field_meta propName value m) = true /\
   exists children st2,
     child_container (named_field propName value)
       (m_childFieldsName (field_meta propName value m)) = Some children /\
     recurse children (paths ++ [propName])
       (next_depth (field_meta propName value m) d)
       (m_canHaveMultiFields (field_meta propName value m))
       (Some (uid (ns_next st)))
       (mkNormState (ns_to st) [] (S (ns_next st))
          (Nat.max (ns_max st) (next_depth (field_meta propName value m) d)))
     = Ok st2 /\
     s1 = mkNormState
            (<[uid (ns_next st) :=
                 field_row (uid (ns_next st)) p d m paths propName value
                   (Some (ns_ids st2))]> (ns_to st2))
            (ns_ids st ++ [uid (ns_next st)]) (ns_next st2) (ns_max st2)).
Proof.
  unfold normalizeEntry, getUniqueId, field_meta. cbv beta iota zeta.
  cbn [fst snd].
  destruct (has_children (getFieldMeta (named_field propName value) (Some m)))
    eqn:Hc.
  - destruct (child_container _ _) as [children|]; [|discriminate].
    destruct (recurse _ _ _ _ _ _) as [st2| | |] eqn:Hrec; try discriminate.
    cbn. intros [= <-]. right. split; [done|]. by exists children, st2.
  - cbn. intros [= <-]. by left.
Qed.

Local Abbreviation norm_post es paths d m p st st' :=
  (exists ids,
     ns_ids st' = ns_ids st ++ ids /\
     rep uid (ns_to st') es paths d m p ids (ns_next st) (ns_next st') /\
     (forall k, (forall j, ns_next st <= j < ns_next st' -> k <> uid j) ->
                ns_to st' !! k = ns_to st !! k)).

Lemma foldM_normalizeEntry_rep recurse :
  (forall props paths d m p st st',
     recurse props paths d m p st = Ok st' ->
     norm_post (entries props) paths d m p st st') ->
  forall es paths d m p st st',
    foldM (normalizeEntry uid recurse paths d m p) st es = Ok st' ->
    norm_post es paths d m p st st'.
Proof.
  intros Hrec es paths d m p. induction es as [|[propName value] es IH];
    intros st st'; cbn [foldM].
  - intros [= <-]. exists []. rewrite app_nil_r. split; [done|].
    split; [constructor|done].
  - destruct (normalizeEntry _ _ _ _ _ _ _ _) as [s1| | |] eqn:He;
      try discriminate.
    cbn [mbind res_bind]. intros Hfold. apply IH in Hfold as (ids & Hids & Hrep & Hframe).
    pose proof (rep_range _ _ _ _ _ _ _ _ _ Hrep) as Hle.
    apply normalizeEntry_Ok in He
      as [[Hleaf ->]|(Hnode & children & st2 & Hc & Hr & ->)];
      cbn [ns_to ns_ids ns_next] in *.
    + exists (uid (ns_next st) :: ids). split; [by rewrite Hids, <- app_assoc|].
      split.
      * apply rep_leaf; [done| |done].
        rewrite Hframe; [apply lookup_insert_eq|].
        intros j Hj Heq. apply uid_inj in Heq. lia.
      * intros k Hk. rewrite Hframe by (intros j Hj; apply Hk; lia).
        apply lookup_insert_ne. intros Heq. by apply (Hk (ns_next st)); [lia|].
    + apply Hrec in Hr as (cs & Hcs & Hsub & Hframe2);
        cbn [ns_to ns_ids ns_next] in *. rewrite app_nil_l in Hcs.
      pose proof (rep_range _ _ _ _ _ _ _ _ _ Hsub) as Hle2.
      exists (uid (ns_next st) :: ids). split; [by rewrite Hids, <- app_assoc|].
      split.
      * eapply rep_node; [done|done| | |done].
        -- eapply rep_agree; [exact Hsub|]. intros j Hj.
           rewrite Hframe by (intros j' Hj' Heq; apply uid_inj in Heq; lia).
           apply lookup_insert_ne. intros Heq. apply uid_inj in Heq. lia.
        -- rewrite Hframe by (intros j' Hj' Heq; apply uid_inj in Heq; lia).
           rewrite <- Hcs. apply lookup_insert_eq.
      * intros k Hk. rewrite Hframe by (intros j Hj; apply Hk; lia).
        rewrite lookup_insert_ne
          by (intros Heq; by apply (Hk (ns_next st)); [lia|]).
        apply Hframe2. intros j Hj. apply Hk. lia.
Qed.

Lemma normalizeFields_rep fuel props paths d m p st st' :
  normalizeFields uid fuel props paths d m p st = Ok st' ->
  norm_post (entries props) paths d m p st st'.
Proof.
  revert props paths d m p st st'.
  induction fuel as [|fuel IH]; intros props paths d m p st st'; cbn;
    [discriminate|].
  by apply foldM_normalizeEntry_rep.
Qed.

End NormalizeProps.

(** ** Normalisation returns *)

Lemma getChildFieldsName_Some (ty : option value) (c : ChildFieldName) :
  getChildFieldsName ty = Some c -> exists s, ty = Some (VStr s).
Proof.
  unfold getChildFieldsName, is_str.
  destruct ty as [[[]| |]|]; cbn; try discriminate. eauto.
Qed.

Lemma has_children_name (field : obj) (multi : option bool) :
  has_children (getFieldMeta field multi) = true ->
  exists c, m_childFieldsName (getFieldMeta field multi) = Some c.
Proof.
  unfold has_children, getFieldMeta; cbn.
  destruct (getChildFieldsName (obj_get "type" field)) as [c|]; [eauto|].
  destruct multi as [[]|]; cbn; done.
Qed.

Lemma ChildFieldName_key_ne_name (c : ChildFieldName) :
  ChildFieldName_key c <> "name".
Proof. by destruct c. Qed.

Lemma named_field_get (propName k : string) (c value : value) :
  k <> "name" ->
  obj_get k (named_field propName value) = Some c -> (k, c) ∈ entries value.
Proof.
  intros Hne H. unfold named_field, spread in H.
  apply obj_get_fold_set in H as [H|H]; [done|].
  cbn in H. rewrite eqb_ne in H by done. discriminate.
Qed.

Lemma typed_is_object (propName : string) (ty value : value) :
  obj_get "type" (named_field propName value) = Some ty ->
  exists o, value = VObj o.
Proof.
  intros H. apply named_field_get in H; [|done].
  destruct value as [[| | |s]|a|o]; cbn in H; try by apply elem_of_nil in H.
  - apply index_entries_keys in H as [[i Hi] _].
    symmetry in Hi. by apply pretty_nat_ne_type in Hi.
  - apply index_entries_keys in H as [[i Hi] _].
    symmetry in Hi. by apply pretty_nat_ne_type in Hi.
  - eauto.
Qed.

Lemma container_of_object (propName : string) (value : value) (m : bool)
    (c : ChildFieldName) (children : Js.value) :
  m_childFieldsName (field_meta propName value m) = Some c ->
  child_container (named_field propName value) (Some c) = Some children ->
  exists o, value = VObj o /\ (ChildFieldName_key c, children) ∈ o.
Proof.
  unfold field_meta, getFieldMeta; cbn. intros Hn Hc.
  apply getChildFieldsName_Some in Hn as [s Hs].
  apply typed_is_object in Hs as [o ->]. exists o. split; [done|].
  apply named_field_get in Hc; [done|apply ChildFieldName_key_ne_name].
Qed.

Lemma container_depth (propName : string) (value : value) (m : bool)
    (children : Js.value) :
  has_children (field_meta propName value m) = true ->
  child_container (named_field propName value)
    (m_childFieldsName (field_meta propName value m)) = Some children ->
  depth children < depth value.
Proof.
  intros Hh Hc. unfold field_meta in *.
  destruct (has_children_name _ _ Hh) as [c Hn]. rewrite Hn in Hc.
  destruct (container_of_object propName value m c children Hn Hc)
    as (o & -> & Hin).
  by eapply depth_elem_obj.
Qed.

Lemma entries_depth (v : value) (kv : string * value) :
  kv ∈ entries v -> depth (snd kv) <= pred (depth v).
Proof.
  destruct kv as [k x]. destruct v as [[| | |s]|a|o]; cbn [entries];
    try (intros H; by apply elem_of_nil in H).
  - intros [_ Hin]%index_entries_keys. unfold chars in Hin.
    apply list_elem_of_fmap in Hin as (c & -> & _). cbn. lia.
  - intros [_ Hin]%index_entries_keys. apply depth_elem_arr in Hin. cbn in *. lia.
  - intros Hin. apply depth_elem_obj in Hin. cbn in *. lia.
Qed.

Section NormalizeTotal.

Variable uid : nat -> string.

Lemma foldM_normalizeEntry_total recurse (fuel : nat) :
  (forall props paths d m p st,
     depth props < fuel -> exists st', recurse props paths d m p st = Ok st') ->
  forall es paths d m p st,
    Forall (fun kv => depth (snd kv) <= fuel) es ->
    exists st', foldM (normalizeEntry uid recurse paths d m p) st es = Ok st'.
Proof.
  intros Hrec es paths d m p. induction es as [|[propName value] es IH];
    intros st Hes; cbn [foldM]; [eauto|].
  apply Forall_cons in Hes as [Hv Hes]. cbn in Hv.
  assert (exists s1, normalizeEntry uid recurse paths d m p st (propName, value)
                     = Ok s1) as [s1 ->].
  { unfold normalizeEntry, getUniqueId. cbv beta iota zeta. cbn [fst snd].
    destruct (has_children _) eqn:Hh; [|cbn; eauto].
    destruct (has_children_name _ _ Hh) as [c Hn].
    destruct (child_container _ _) as [children|] eqn:Hc.
    - pose proof (container_depth propName value m children Hh Hc) as Hd.
      edestruct Hrec as [st2 ->]; [|cbn; eauto]. lia.
    - exfalso. revert Hh Hc. rewrite Hn.
      unfold has_children, getFieldMeta in *; cbn in *. rewrite Hn.
      unfold has_entries; cbn.
      destruct m; cbn; [done|]. intros H Hc. rewrite Hc in H. cbn in H.
      by rewrite !andb_false_r in H. }
  cbn [mbind res_bind]. by apply IH.
Qed.

Lemma normalizeFields_total fuel props paths d m p st :
  depth props < fuel ->
  exists st', normalizeFields uid fuel props paths d m p st = Ok st'.
Proof.
  revert props paths d m p st.
  induction fuel as [|fuel IH]; intros props paths d m p st Hd; [lia|]. cbn.
  apply (foldM_normalizeEntry_total _ fuel); [intros; by apply IH|].
  apply Forall_forall. intros kv Hin. apply entries_depth in Hin. lia.
Qed.

Lemma normalize_total (fields : obj) : exists nf, normalize uid fields = Ok nf.
Proof.
  unfold normalize.
  edestruct (normalizeFields_total (S (depth (VObj fields)))) as [st ->];
    [lia|]. cbn. eauto.
Qed.

End NormalizeTotal.

(** ** What the rows say *)

(** Every row inserted by [normalizeFields] is one built from an entry. *)
Lemma normalizeFields_rows uid (P : NormalizedField -> Prop) :
  (forall i p d m paths propName value cs,
     P (field_row i p d m paths propName value cs)) ->
  forall fuel props paths d m p st st',
    normalizeFields uid fuel props paths d m p st = Ok st' ->
    map_Forall (fun _ r => P r) (ns_to st) ->
    map_Forall (fun _ r => P r) (ns_to st').
Proof.
  intros HP. induction fuel as [|fuel IH]; intros props paths d m p st st';
    cbn; [discriminate|].
  generalize (entries props) as es. intros es. revert st st'.
  induction es as [|[propName value] es IHes]; intros st st'; cbn [foldM].
  - by intros [= <-].
  - destruct (normalizeEntry _ _ _ _ _ _ _ _) as [s1| | |] eqn:He;
      try discriminate.
    cbn [mbind res_bind]. intros Hfold Hst. apply (IHes _ _ Hfold).
    apply normalizeEntry_Ok in He
      as [[_ ->]|(_ & children & st2 & _ & Hr & ->)]; cbn [ns_to].
    + apply map_Forall_insert_2; [apply HP|done].
    + apply map_Forall_insert_2; [apply HP|]. by apply (IH _ _ _ _ _ _ _ Hr).
Qed.

Lemma field_row_flags i p d m paths propName value cs :
  hasChildFields (field_row i p d m paths propName value cs)
  || hasMultiFields (field_row i p d m paths propName value cs)
  = has_children (field_meta propName value m).
Proof. reflexivity. Qed.

Lemma field_row_childFields i p d m paths propName value cs :
  childFields (field_row i p d m paths propName value cs) = cs.
Proof. reflexivity. Qed.

Lemma field_row_source i p d m paths propName value cs :
  source (field_row i p d m paths propName value cs)
  = strip_containers (named_field propName value).
Proof. reflexivity. Qed.

Lemma field_row_childFieldsName i p d m paths propName value cs :
  childFieldsName (field_row i p d m paths propName value cs)
  = m_childFieldsName (field_meta propName value m).
Proof. reflexivity. Qed.

Lemma as_str_name (propName : string) (o : obj) :
  as_str (obj_get "name" (("name", VStr propName) :: o)) = Some propName.
Proof. reflexivity. Qed.

Lemma obj_omit_name (propName : string) (o : obj) :
  "name" ∉ keys o -> obj_omit "name" (("name", VStr propName) :: o) = o.
Proof. intros H. cbn. by apply obj_omit_notin. Qed.

Lemma field_row_sound i p d m paths propName value cs :
  has_children (field_meta propName value m) = bool_decide (is_Some cs) ->
  row_sound i (field_row i p d m paths propName value cs).
Proof.
  intros H. split; [done|]. split; [apply strip_containers_keys|].
  split; [apply strip_containers_keys|].
  rewrite field_row_flags, field_row_childFields, H.
  apply bool_decide_eq_true.
Qed.

Section RowFacts.

Variable uid : nat -> string.
Hypothesis uid_inj : forall i j, uid i = uid j -> i = j.

Lemma rep_rows t es paths d m p ids n n' :
  rep uid t es paths d m p ids n n' ->
  (forall c, c ∈ ids ->
     exists j rc, n <= j < n' /\ c = uid j /\ t !! c = Some rc /\
       parentId rc = p /\ nestedDepth rc = d /\ isMultiField rc = m) /\
  (forall j, n <= j < n' ->
     exists r, t !! uid j = Some r /\ row_sound (uid j) r /\
       ((uid j ∈ ids /\ parentId r = p) \/
        (exists q rq cs,
           parentId r = Some q /\ t !! q = Some rq /\
           childFields rq = Some cs /\ uid j ∈ cs /\
           nestedDepth r = S (nestedDepth rq) /\
           isMultiField r = canHaveMultiFields rq)) /\
       (forall cs c, childFields r = Some cs -> c ∈ cs ->
          exists rc, t !! c = Some rc /\ parentId rc = Some (uid j))).
Proof.
  induction 1 as [|propName value es paths d m p ids n n' Hleaf Hrow Hrest IH
                  |propName value es paths d m p ids n n1 n' children cs
                     Hnode Hc Hsub IHsub Hrow Hrest IHrest].
  - split; [intros c Hin; by apply elem_of_nil in Hin|lia].
  - destruct IH as [IH1 IH2].
    pose proof (rep_range _ _ _ _ _ _ _ _ _ _ Hrest) as Hle.
    split.
    + intros c [->|Hin]%elem_of_cons.
      * exists n, (field_row (uid n) p d m paths propName value None).
        repeat split; [lia|lia|done].
      * destruct (IH1 c Hin) as (j & rc & ? & ?). exists j, rc.
        split; [lia|done].
    + intros j Hj. destruct (decide (j = n)) as [->|Hne].
      * eexists. split; [exact Hrow|]. split; [|split].
        -- apply field_row_sound. rewrite Hleaf. symmetry.
           apply bool_decide_eq_false. by intros [? ?].
        -- left. split; [apply list_elem_of_here|done].
        -- intros cs c Hcs. discriminate.
      * destruct (IH2 j) as (r & Hr & Hs & Hpos & Hch); [lia|].
        exists r. split; [done|]. split; [done|]. split; [|done].
        destruct Hpos as [[Hin Hp]|Hpos]; [|by right].
        left. split; [by apply list_elem_of_further|done].
  - destruct IHsub as [IHs1 IHs2]. destruct IHrest as [IHr1 IHr2].
    pose proof (rep_range _ _ _ _ _ _ _ _ _ _ Hsub) as Hle1.
    pose proof (rep_range _ _ _ _ _ _ _ _ _ _ Hrest) as Hle2.
    split.
    + intros c [->|Hin]%elem_of_cons.
      * exists n, (field_row (uid n) p d m paths propName value (Some cs)).
        repeat split; [lia|lia|done].
      * destruct (IHr1 c Hin) as (j & rc & ? & ?). exists j, rc.
        split; [lia|done].
    + intros j Hj. destruct (decide (j = n)) as [->|Hne]; [|
        destruct (decide (j < n1)) as [Hlt|Hge]].
      * eexists. split; [exact Hrow|]. split; [|split].
        -- apply field_row_sound. rewrite Hnode. symmetry.
           apply bool_decide_eq_true. eauto.
        -- left. split; [apply list_elem_of_here|done].
        -- cbn. intros cs' c [= <-] Hin.
           destruct (IHs1 c Hin) as (j & rc & _ & _ & Hrc & Hp & _). eauto.
      * destruct (IHs2 j) as (r & Hr & Hs & Hpos & Hch); [lia|].
        exists r. split; [done|]. split; [done|]. split; [|done].
        right. destruct Hpos as [[Hin Hp]|Hpos]; [|done].
        destruct (IHs1 _ Hin) as (j' & rc & _ & _ & Hrc & _ & Hd & Hm).
        rewrite Hr in Hrc. injection Hrc as <-.
        eexists _, _, cs. split; [exact Hp|]. split; [exact Hrow|].
        split; [done|]. split; [done|]. cbn. split; [|done].
        rewrite Hd. unfold field_meta. by apply next_depth_children.
      * destruct (IHr2 j) as (r & Hr & Hs & Hpos & Hch); [lia|].
        exists r. split; [done|]. split; [done|]. split; [|done].
        destruct Hpos as [[Hin Hp]|Hpos]; [|by right].
        left. split; [by apply list_elem_of_further|done].
Qed.

Lemma uid_range_dec (k : string) (n : nat) :
  (exists j, j < n /\ k = uid j) \/ (forall j, j < n -> k <> uid j).
Proof.
  induction n as [|n [(j & Hj & ->)|IH]].
  - right. lia.
  - left. exists j. split; [lia|done].
  - destruct (decide (k = uid n)) as [->|Hne].
    + left. exists n. split; [lia|done].
    + right. intros j Hj. destruct (decide (j = n)) as [->|]; [done|].
      apply IH. lia.
Qed.

(** The table of [normalize]: its rows are those of the tree, numbered from
    0, and it has no other key. *)
Lemma normalize_rep (fields : obj) (nf : NormalizedFields) :
  normalize uid fields = Ok nf ->
  exists n,
    rep uid (byId nf) fields [] 0 false None (rootLevelFields nf) 0 n /\
    (forall k, is_Some (byId nf !! k) -> exists j, j < n /\ k = uid j).
Proof.
  unfold normalize.
  destruct (normalizeFields _ _ _ _ _ _ _ _) as [st| | |] eqn:Hn;
    try discriminate.
  cbn. intros [= <-]. cbn.
  apply (normalizeFields_rep uid uid_inj) in Hn as (ids & Hids & Hrep & Hframe).
  cbn in *. subst ids. exists (ns_next st). split; [done|].
  intros k [r Hr]. destruct (uid_range_dec k (ns_next st)) as [|Hno]; [done|].
  rewrite Hframe in Hr; [by rewrite lookup_empty in Hr|].
  intros j Hj. apply Hno. lia.
Qed.

(** Links of the rows of a normalised table. *)
Lemma normalize_links (fields : obj) (nf : NormalizedFields) :
  normalize uid fields = Ok nf ->
  forall k r, byId nf !! k = Some r ->
    row_sound k r /\
    match parentId r with
    | None =>
        k ∈ rootLevelFields nf /\ nestedDepth r = 0 /\ isMultiField r = false
    | Some q =>
        exists rq cs,
          byId nf !! q = Some rq /\ childFields rq = Some cs /\ k ∈ cs /\
          nestedDepth r = S (nestedDepth rq) /\
          isMultiField r = canHaveMultiFields rq
    end /\
    (forall cs c, childFields r = Some cs -> c ∈ cs ->
       exists rc, byId nf !! c = Some rc /\ parentId rc = Some k).
Proof.
  intros Hn k r Hr.
  destruct (normalize_rep _ _ Hn) as (n & Hrep & Hdom).
  destruct (Hdom k) as (j & Hj & ->); [eauto|].
  apply rep_rows in Hrep as [H1 H2].
  destruct (H2 j) as (r' & Hr' & Hs & Hpos & Hch); [lia|].
  rewrite Hr in Hr'. injection Hr' as <-.
  split; [done|]. split; [|done].
  destruct Hpos as [[Hin Hp]|(q & rq & cs & Hp & Hq & Hcs & Hin & Hd & Hm)].
  - rewrite Hp. destruct (H1 _ Hin) as (j' & rc & _ & _ & Hrc & _ & Hd & Hm).
    rewrite Hr in Hrc. by injection Hrc as <-.
  - rewrite Hp. eauto 10.
Qed.

End RowFacts.

Lemma uid_demo_inj (i j : nat) : uid_demo i = uid_demo j -> i = j.
Proof. unfold uid_demo. intros [= H]. by apply (inj pretty) in H. Qed.

Lemma uid_demo_nonempty (i : nat) : uid_demo i <> "".
Proof. done. Qed.

(** The documented example: two rows, the object at depth 0 with one child,
    the text field at depth 1 below it. *)
Example normalize_documented_tree :
  exists nf r0 r1,
    normalize uid_demo documented_tree = Ok nf /\
    rootLevelFields nf = ["u0"] /\ size (byId nf) = 2 /\
    byId nf !! "u0" = Some r0 /\ nestedDepth r0 = 0 /\ path r0 = "myObject" /\
    canHaveChildFields r0 = true /\ childFields r0 = Some ["u1"] /\
    source r0 = [("name", VStr "myObject"); ("type", VStr "object")] /\
    byId nf !! "u1" = Some r1 /\ nestedDepth r1 = 1 /\
    path r1 = "myObject.name" /\ parentId r1 = Some "u0" /\
    childFields r1 = None.
Proof.
  do 3 eexists. split; [vm_compute; reflexivity|].
  repeat split; vm_compute; reflexivity.
Qed.

(** ** Sources *)

(** C10. The source of every row of a normalised table has neither a
    [properties] nor a [fields] entry, whatever the type of the field. *)
Theorem normalize_source_without_containers (uid : nat -> string) (fields : obj) :
  exists nf, normalize uid fields = Ok nf /\
    forall k r, byId nf !! k = Some r ->
      ("properties" ∉ keys (source r)) /\ ("fields" ∉ keys (source r)).
Proof.
  destruct (normalize_total uid fields) as [nf Hnf]. exists nf. split; [done|].
  unfold normalize in Hnf.
  destruct (normalizeFields _ _ _ _ _ _ _ _) as [st| | |] eqn:Hn;
    try discriminate.
  cbn in Hnf. injection Hnf as <-. cbn. intros k r Hr.
  eapply (normalizeFields_rows uid
            (fun r => ("properties" ∉ keys (source r)) /\
                      ("fields" ∉ keys (source r))))
    in Hn; [exact (Hn k r Hr)| |].
  - intros. apply strip_containers_keys.
  - cbn. apply map_Forall_empty.
Qed.

Lemma normalize_source_without_containers_witness :
  exists nf r, normalize uid_demo stray_fields_tree = Ok nf /\
    byId nf !! "u0" = Some r /\ "fields" ∉ keys (source r).
Proof.
  destruct (normalize_source_without_containers uid_demo stray_fields_tree)
    as (nf & Hnf & Hrows).
  vm_compute in Hnf. injection Hnf as Hnf.
  assert (exists r, byId nf !! "u0" = Some r) as [r Hr].
  { rewrite <- Hnf. vm_compute. eauto. }
  exists nf, r. split; [by rewrite <- Hnf|]. split; [done|].
  exact (proj2 (Hrows "u0" r Hr)).
Defined.

(** ** Depths *)

(** In [{ title: { type: 'text', fields: { raw: { type: 'keyword' } } } }] the
    multi-field member [raw] is at depth 1 and its parent [title] at depth 0:
    crossing a [fields] container does increment the depth. *)
Lemma multi_field_member_is_deeper :
  exists nf, normalize uid_demo multi_field_tree = Ok nf /\
    ~ (forall k r p rp,
         byId nf !! k = Some r -> isMultiField r = true ->
         parentId r = Some p -> byId nf !! p = Some rp ->
         nestedDepth r = nestedDepth rp).
Proof.
  eexists. split; [vm_compute; reflexivity|]. intros H.
  specialize (H "u1" _ "u0" _ eq_refl eq_refl eq_refl eq_refl).
  vm_compute in H. discriminate.
Qed.

(** C2 (amended). In a normalised table a row without parent has depth 0 and
    is not a multi-field member, and a row with a parent is one deeper than
    its parent, whether it sits in a [properties] container or is a
    multi-field member of a [fields] container; it is a member exactly when
    its parent can have multi-fields. *)
Theorem normalize_depth (uid : nat -> string) (fields : obj) :
  (forall i j, uid i = uid j -> i = j) ->
  exists nf, normalize uid fields = Ok nf /\
    forall k r, byId nf !! k = Some r ->
      match parentId r with
      | None => nestedDepth r = 0 /\ isMultiField r = false
      | Some p =>
          exists rp, byId nf !! p = Some rp /\
            nestedDepth r = S (nestedDepth rp) /\
            isMultiField r = canHaveMultiFields rp
      end.
Proof.
  intros uid_inj. destruct (normalize_total uid fields) as [nf Hnf].
  exists nf. split; [done|]. intros k r Hr.
  destruct (normalize_links uid uid_inj _ _ Hnf k r Hr) as (_ & Hpos & _).
  destruct (parentId r) as [p|]; [|tauto].
  destruct Hpos as (rq & cs & ? & _ & _ & ? & ?). eauto.
Qed.

Lemma normalize_depth_witness :
  exists nf, normalize uid_demo sample_tree = Ok nf /\
    forall k r, byId nf !! k = Some r ->
      match parentId r with
      | None => nestedDepth r = 0 /\ isMultiField r = false
      | Some p =>
          exists rp, byId nf !! p = Some rp /\
            nestedDepth r = S (nestedDepth rp) /\
            isMultiField r = canHaveMultiFields rp
      end.
Proof. exact (normalize_depth uid_demo sample_tree uid_demo_inj). Defined.

(** ** Identifiers and parent chains *)

Section Chains.

Variable uid : nat -> string.
Hypothesis uid_inj : forall i j, uid i = uid j -> i = j.

Lemma ancestor_is_shallower (fields : obj) (nf : NormalizedFields) :
  normalize uid fields = Ok nf ->
  forall k a, tc (parent_of (byId nf)) k a ->
    exists rk ra, byId nf !! k = Some rk /\ byId nf !! a = Some ra /\
      nestedDepth ra < nestedDepth rk.
Proof.
  intros Hn k a Htc.
  assert (forall k p, parent_of (byId nf) k p ->
            exists rk rp, byId nf !! k = Some rk /\ byId nf !! p = Some rp /\
              nestedDepth rp < nestedDepth rk) as Hstep.
  { intros k' p (r & Hr & Hp).
    destruct (normalize_links uid uid_inj _ _ Hn k' r Hr) as (_ & Hpos & _).
    rewrite Hp in Hpos. destruct Hpos as (rq & cs & Hq & _ & _ & Hd & _).
    exists r, rq. repeat split; [done|done|lia]. }
  induction Htc as [k a H|k b a H _ IH].
  - by apply Hstep.
  - apply Hstep in H as (rk & rb & Hk & Hb & Hlt).
    destruct IH as (rb' & ra & Hb' & Ha & Hlt').
    rewrite Hb in Hb'. injection Hb' as <-.
    exists rk, ra. repeat split; [done|done|lia].
Qed.

Lemma normalize_reaches_root (fields : obj) (nf : NormalizedFields) :
  normalize uid fields = Ok nf ->
  forall k, is_Some (byId nf !! k) -> reaches_root nf k.
Proof.
  intros Hn k [r Hr]. remember (nestedDepth r) as d eqn:Hd.
  revert k r Hr Hd. induction d as [|d IH]; intros k r Hr Hd;
    destruct (normalize_links uid uid_inj _ _ Hn k r Hr) as (_ & Hpos & _);
    destruct (parentId r) as [p|] eqn:Hp.
  - destruct Hpos as (rq & cs & _ & _ & _ & Hd' & _). lia.
  - eapply reaches_here; [done|done|tauto].
  - destruct Hpos as (rq & cs & Hq & _ & _ & Hd' & _).
    eapply reaches_up; [done|done|]. eapply IH; [done|lia].
  - eapply reaches_here; [done|done|tauto].
Qed.

End Chains.

(** C6. In a normalised table every identifier listed in a [childFields] and
    every [parentId] is a key of [byId]; no row is its own ancestor, and every
    parent chain ends at a row listed in [rootLevelFields]. *)
Theorem normalize_closed_and_rooted (uid : nat -> string) (fields : obj) :
  (forall i j, uid i = uid j -> i = j) ->
  exists nf, normalize uid fields = Ok nf /\
    (forall k r cs c, byId nf !! k = Some r -> childFields r = Some cs ->
       c ∈ cs -> is_Some (byId nf !! c)) /\
    (forall k r p, byId nf !! k = Some r -> parentId r = Some p ->
       is_Some (byId nf !! p)) /\
    acyclic (byId nf) /\
    (forall k, is_Some (byId nf !! k) -> reaches_root nf k).
Proof.
  intros uid_inj. destruct (normalize_total uid fields) as [nf Hnf].
  exists nf. split; [done|]. split; [|split; [|split]].
  - intros k r cs c Hr Hcs Hin.
    destruct (normalize_links uid uid_inj _ _ Hnf k r Hr) as (_ & _ & Hch).
    destruct (Hch cs c Hcs Hin) as (rc & Hrc & _). eauto.
  - intros k r p Hr Hp.
    destruct (normalize_links uid uid_inj _ _ Hnf k r Hr) as (_ & Hpos & _).
    rewrite Hp in Hpos. destruct Hpos as (rq & cs & Hq & _). eauto.
  - intros k Htc.
    destruct (ancestor_is_shallower uid uid_inj _ _ Hnf k k Htc)
      as (rk & ra & Hk & Ha & Hlt).
    rewrite Hk in Ha. injection Ha as <-. lia.
  - by apply (normalize_reaches_root uid uid_inj fields).
Qed.

Lemma normalize_closed_and_rooted_witness :
  exists nf, normalize uid_demo sample_tree = Ok nf /\
    acyclic (byId nf) /\
    (forall k, is_Some (byId nf !! k) -> reaches_root nf k).
Proof.
  destruct (normalize_closed_and_rooted uid_demo sample_tree uid_demo_inj)
    as (nf & Hnf & _ & _ & Hacyclic & Hroot).
  exists nf. split; [done|]. split; done.
Defined.

(** ** Structural equality *)

(** Induction on values that reaches into arrays and objects *)
Lemma value_ind_deep (P : value -> Prop) :
  (forall l, P (VLit l)) ->
  (forall a, Forall P a -> P (VArr a)) ->
  (forall o, Forall (fun kv => P (snd kv)) o -> P (VObj o)) ->
  forall v, P v.
Proof.
  intros Hlit Harr Hobj. fix IH 1. intros [l|a|o].
  - apply Hlit.
  - apply Harr. induction a as [|x a IHa]; constructor; [apply IH|exact IHa].
  - apply Hobj. induction o as [|kv o IHo]; constructor; [apply IH|exact IHo].
Qed.

(** Objects with the same keys in the same order and equal values *)
Lemma veq_same_keys (a b : obj) :
  Forall2 (fun x y => fst x = fst y /\ veq (snd x) (snd y)) a b ->
  veq (VObj a) (VObj b).
Proof.
  intros H. constructor. intros k.
  induction H as [|[k1 v1] [k2 v2] a b [Hk Hv] _ IH]; cbn in *; [constructor|].
  subst k2. destruct (String.eqb k k1); [by constructor|done].
Qed.

Lemma veq_refl (v : value) : veq v v.
Proof.
  induction v as [l|a IH|o IH] using value_ind_deep.
  - constructor.
  - constructor. induction IH; by constructor.
  - apply veq_same_keys. induction IH; by constructor.
Qed.

Lemma obj_get_app_l (k : string) (o o' : obj) (v : value) :
  obj_get k o = Some v -> obj_get k (o ++ o') = Some v.
Proof.
  induction o as [|[k' v'] o IH]; cbn; [done|].
  destruct (String.eqb k k'); auto.
Qed.

Lemma obj_get_app_r (k : string) (o o' : obj) :
  obj_get k o = None -> obj_get k (o ++ o') = obj_get k o'.
Proof.
  induction o as [|[k' v'] o IH]; cbn; [done|].
  destruct (String.eqb k k'); [done|auto].
Qed.

Lemma obj_get_elem (k : string) (v : value) (o : obj) :
  NoDup (keys o) -> (k, v) ∈ o -> obj_get k o = Some v.
Proof.
  induction o as [|[k' v'] o IH]; cbn; [by intros _ ?%elem_of_nil|].
  intros [Hnot Hnd]%NoDup_cons [[= -> ->]|Hin]%elem_of_cons.
  - by rewrite eqb_refl'.
  - rewrite eqb_ne; [auto|]. intros ->. apply Hnot.
    change k' with (fst (k', v)). by apply list_elem_of_fmap_2.
Qed.

(** Moving one property to the end keeps an object structurally equal. *)
Lemma veq_move_last (k : string) (c c' : value) (o : obj) :
  obj_get k o = Some c -> veq c' c ->
  veq (VObj (obj_omit k o ++ [(k, c')])) (VObj o).
Proof.
  intros Hk Hc. constructor. intros k'.
  destruct (decide (k' = k)) as [->|Hne].
  - rewrite obj_get_app_r by apply obj_get_omit_eq. cbn.
    rewrite eqb_refl', Hk. by constructor.
  - assert (obj_get k' (obj_omit k o ++ [(k, c')]) = obj_get k' o) as ->.
    { destruct (obj_get k' o) as [x|] eqn:Hx.
      - apply obj_get_app_l. by rewrite obj_get_omit_ne.
      - rewrite obj_get_app_r by (by rewrite obj_get_omit_ne). cbn.
        by rewrite eqb_ne. }
    destruct (obj_get k' o); constructor. apply veq_refl.
Qed.

(** ** Trees that normalisation keeps whole *)

Lemma well_nested_field_inv (m : bool) (v : value) :
  well_nested_field m v = true ->
  exists o, v = VObj o /\ NoDup (keys o) /\ ("name" ∉ keys o) /\
    forall k c, (k, c) ∈ o -> is_container_key k = true ->
      m = false /\
      designates (getChildFieldsName (obj_get "type" o)) k = true /\
      exists co, c = VObj co /\ co <> [] /\ NoDup (keys co) /\
        ("__proto__" ∉ keys co) /\
        Forall (fun kv => well_nested_field (String.eqb k "fields") (snd kv) = true) co.
Proof.
  destruct v as [l|a|o]; cbn; try discriminate.
  intros [[Hnd Hname]%andb_prop Hall]%andb_prop.
  exists o. split; [done|]. split; [by apply nodupb_NoDup|].
  split; [apply existsb_eqb_false; by apply negb_true_iff|].
  intros k c Hin Hk. rewrite forallb_forall in Hall.
  specialize (Hall (k, c)). cbn in Hall. rewrite Hk in Hall.
  apply list_elem_of_In in Hin. specialize (Hall Hin).
  apply andb_prop in Hall as [[Hm Hd]%andb_prop Hc].
  split; [by apply negb_true_iff|]. split; [done|].
  destruct c as [l|a|co]; try discriminate.
  apply andb_prop in Hc as [[[Hlen Hndc]%andb_prop Hproto]%andb_prop Hco].
  exists co. split; [done|]. split; [by destruct co|].
  split; [by apply nodupb_NoDup|].
  split; [apply existsb_eqb_false; by apply negb_true_iff|].
  apply Forall_forall. intros kv Hkv. rewrite forallb_forall in Hco.
  apply Hco. by apply list_elem_of_In.
Qed.

Lemma named_field_object (propName : string) (o : obj) :
  NoDup (keys o) -> "name" ∉ keys o ->
  named_field propName (VObj o) = ("name", VStr propName) :: o.
Proof.
  intros Hnd Hname. unfold named_field, spread. cbn [entries].
  rewrite fold_set_fresh; [done|]. cbn. by constructor.
Qed.

Lemma designates_key (n : option ChildFieldName) (k : string) :
  designates n k = true -> exists c, n = Some c /\ ChildFieldName_key c = k.
Proof.
  destruct n as [c|]; cbn; [|discriminate].
  intros H%String.eqb_eq. eauto.
Qed.

Lemma is_container_key_name (c : ChildFieldName) :
  is_container_key (ChildFieldName_key c) = true.
Proof. by destruct c. Qed.

Lemma has_entries_object (co : obj) : co <> [] -> has_entries (Some (VObj co)) = true.
Proof. by destruct co. Qed.

Section WellNested.

Variables (propName : string) (o : obj) (m : bool).
Hypothesis Hnd : NoDup (keys o).
Hypothesis Hname : "name" ∉ keys o.
Hypothesis Hcontainers :
  forall k c, (k, c) ∈ o -> is_container_key k = true ->
    m = false /\
    designates (getChildFieldsName (obj_get "type" o)) k = true /\
    exists co, c = VObj co /\ co <> [] /\ NoDup (keys co) /\
      ("__proto__" ∉ keys co) /\
      Forall (fun kv => well_nested_field (String.eqb k "fields") (snd kv) = true) co.

Lemma well_nested_meta_name :
  m_childFieldsName (field_meta propName (VObj o) m)
  = getChildFieldsName (obj_get "type" o).
Proof.
  unfold field_meta. by rewrite named_field_object.
Qed.

Lemma well_nested_container (c : ChildFieldName) (x : value) :
  (ChildFieldName_key c, x) ∈ o ->
  m = false /\ getChildFieldsName (obj_get "type" o) = Some c /\
  has_children (field_meta propName (VObj o) m) = true.
Proof.
  intros Hin.
  destruct (Hcontainers _ _ Hin (is_container_key_name c))
    as (-> & Hd & co & -> & Hne & _).
  apply designates_key in Hd as (c' & Hc' & Hk).
  assert (c' = c) as -> by (by destruct c, c').
  split; [done|]. split; [done|].
  unfold has_children, field_meta. rewrite named_field_object by done.
  assert (obj_get (ChildFieldName_key c) (("name", VStr propName) :: o)
          = Some (VObj co)) as Hget.
  { cbn. rewrite eqb_ne by apply ChildFieldName_key_ne_name.
    by apply obj_get_elem. }
  unfold getFieldMeta.
  change (obj_get "type" (("name", VStr propName) :: o)) with (obj_get "type" o).
  rewrite Hc'. unfold child_container. rewrite Hget.
  rewrite has_entries_object by done. by destruct c.
Qed.

Lemma well_nested_leaf :
  has_children (field_meta propName (VObj o) m) = false ->
  strip_containers (named_field propName (VObj o)) = ("name", VStr propName) :: o.
Proof.
  intros Hleaf.
  assert (forall c, ChildFieldName_key c ∉ keys o) as Hno.
  { intros c Hin. apply list_elem_of_fmap in Hin as ([k x] & Hk & Hin).
    cbn in Hk. subst k.
    destruct (well_nested_container c x Hin) as (_ & _ & Hh). congruence. }
  rewrite named_field_object by done. unfold strip_containers. cbn.
  rewrite (obj_omit_notin "properties") by apply (Hno CProperties).
  by rewrite (obj_omit_notin "fields") by apply (Hno CFields).
Qed.

Lemma well_nested_node (children : value) :
  has_children (field_meta propName (VObj o) m) = true ->
  child_container (named_field propName (VObj o))
    (m_childFieldsName (field_meta propName (VObj o) m)) = Some children ->
  exists c co,
    children = VObj co /\
    m_childFieldsName (field_meta propName (VObj o) m) = Some c /\
    obj_get (ChildFieldName_key c) o = Some (VObj co) /\
    strip_containers (named_field propName (VObj o))
      = ("name", VStr propName) :: obj_omit (ChildFieldName_key c) o /\
    m_canHaveMultiFields (field_meta propName (VObj o) m)
      = String.eqb (ChildFieldName_key c) "fields" /\
    NoDup (keys co) /\ ("__proto__" ∉ keys co) /\
    Forall (fun kv =>
              well_nested_field (String.eqb (ChildFieldName_key c) "fields")
                (snd kv) = true) co.
Proof.
  intros Hnode Hc. unfold field_meta in Hnode.
  destruct (has_children_name _ _ Hnode) as [c Hn].
  fold (field_meta propName (VObj o) m) in Hn, Hnode. rewrite Hn in Hc.
  destruct (container_of_object _ _ _ _ _ Hn Hc) as (o' & [= <-] & Hin).
  destruct (Hcontainers _ _ Hin (is_container_key_name c))
    as (Hm & Hd & co & -> & Hne & Hndc & Hproto & Hall).
  exists c, co. split; [done|]. split; [done|].
  split; [by apply obj_get_elem|]. split; [|split; [|done]].
  - assert (forall c', c' <> c -> ChildFieldName_key c' ∉ keys o) as Hno.
    { intros c' Hne' Hin'. apply list_elem_of_fmap in Hin' as ([k x] & Hk & Hin').
      cbn in Hk. subst k.
      destruct (well_nested_container c' x Hin') as (_ & Hty & _).
      rewrite <- well_nested_meta_name, Hn in Hty. congruence. }
    rewrite named_field_object by done. unfold strip_containers.
    destruct c; cbn.
    + rewrite (obj_omit_notin "properties") by (by apply (Hno CProperties)).
      done.
    + rewrite (obj_omit_notin "fields"); [done|].
      intros Hin'. apply keys_omit_subseteq in Hin'.
      by apply (Hno CFields).
  - rewrite well_nested_meta_name in Hn.
    unfold field_meta. rewrite named_field_object by done.
    unfold getFieldMeta.
    change (obj_get "type" (("name", VStr propName) :: o))
      with (obj_get "type" o).
    rewrite Hn, Hm. by destruct c.
Qed.

End WellNested.

(** ** Denormalisation rebuilds the tree *)

Lemma deNormalizePaths_cons fuel t i ids to :
  deNormalizePaths (S fuel) t (i :: ids) to
  = (to' ← deNormalizeId (deNormalizePaths fuel t) t to i;
     deNormalizePaths (S fuel) t ids to').
Proof. reflexivity. Qed.

Lemma depth_obj_cons (kv : string * value) (es : obj) :
  depth (snd kv) < depth (VObj (kv :: es)) /\
  depth (VObj es) <= depth (VObj (kv :: es)).
Proof. cbn. lia. Qed.

Lemma property_key_name (propName : string) (o : obj) :
  property_key (obj_get "name" (("name", VStr propName) :: o)) = Ok propName.
Proof. reflexivity. Qed.

(** Under any other name than [__proto__] the assignment defines or updates
    an own property. *)
Lemma assign_plain (name : string) (field : obj) (to : Target) :
  name <> "__proto__" ->
  assign name field to = mkTarget (obj_set name (VObj field) (own to)) (proto to).
Proof. intros H. unfold assign. by rewrite eqb_ne. Qed.

Lemma deNormalizePaths_rep uid t es paths d m p ids n n' :
  rep uid t es paths d m p ids n n' ->
  Forall (fun kv => well_nested_field m (snd kv) = true) es ->
  "__proto__" ∉ keys es ->
  forall to0 fuel,
    NoDup (keys (own to0) ++ keys es) -> depth (VObj es) <= fuel ->
    exists out,
      deNormalizePaths fuel t ids to0 = Ok (mkTarget (own to0 ++ out) (proto to0)) /\
      Forall2 (fun x y => fst x = fst y /\ veq (snd x) (snd y)) out es.
Proof.
  induction 1 as [|propName value es paths d m p ids n n' Hleaf Hrow Hrest IH
                  |propName value es paths d m p ids n n1 n' children cs
                     Hnode Hc Hsub IHsub Hrow Hrest IHrest];
    intros Hwn Hproto to0 fuel Hnd Hfuel.
  - destruct fuel as [|fuel]; [cbn in Hfuel; lia|].
    exists []. rewrite app_nil_r. by destruct to0.
  - apply Forall_cons in Hwn as [Hv Hwn]. cbn [snd] in Hv.
    apply well_nested_field_inv in Hv as (o & -> & Hndo & Hname & Hcont).
    apply not_elem_of_cons in Hproto as [Hp Hproto]. cbn [fst] in Hp.
    destruct (depth_obj_cons (propName, VObj o) es) as [_ Hd].
    destruct fuel as [|fuel]; [cbn in Hfuel; lia|].
    destruct (IH Hwn Hproto
                (mkTarget (own to0 ++ [(propName, VObj o)]) (proto to0)) (S fuel))
      as (out & Hout & Hall).
    { cbn [own]. unfold keys. rewrite map_app, <- app_assoc. exact Hnd. }
    { lia. }
    exists ((propName, VObj o) :: out). split.
    + rewrite deNormalizePaths_cons. unfold deNormalizeId. rewrite Hrow.
      rewrite field_row_source, field_row_childFields.
      rewrite (well_nested_leaf propName o m) by done.
      rewrite property_key_name. cbn [mbind res_bind].
      rewrite obj_omit_name by done.
      rewrite assign_plain by done.
      rewrite obj_set_notin.
      * rewrite Hout. cbn [own proto]. by rewrite <- app_assoc.
      * apply NoDup_app in Hnd as (_ & Hdis & _). intros Hin.
        apply (Hdis _ Hin). apply list_elem_of_here.
    + constructor; [|done]. split; [done|apply veq_refl].
  - apply Forall_cons in Hwn as [Hv Hwn]. cbn [snd] in Hv.
    apply well_nested_field_inv in Hv as (o & -> & Hndo & Hname & Hcont).
    apply not_elem_of_cons in Hproto as [Hp Hproto]. cbn [fst] in Hp.
    destruct (well_nested_node propName o m Hndo Hname Hcont _ Hnode Hc)
      as (c & co & -> & Hn & Hget & Hstrip & Hmulti & Hndc & Hprotoc & Hwnc).
    destruct (depth_obj_cons (propName, VObj o) es) as [Hdv Hd].
    cbn [snd] in Hdv.
    pose proof (depth_elem_obj _ _ _ (obj_get_Some_elem _ _ _ Hget)) as Hdc.
    destruct fuel as [|fuel]; [cbn in Hfuel; lia|].
    rewrite Hmulti in IHsub. cbn [entries] in IHsub.
    destruct (IHsub Hwnc Hprotoc empty_target fuel) as (outc & Houtc & Hallc);
      [exact Hndc|lia|]. cbn [app own proto empty_target] in Houtc.
    set (field' := obj_omit (ChildFieldName_key c) o
                   ++ [(ChildFieldName_key c, VObj outc)]).
    destruct (IHrest Hwn Hproto
                (mkTarget (own to0 ++ [(propName, VObj field')]) (proto to0))
                (S fuel))
      as (out & Hout & Hall).
    { cbn [own]. unfold keys. rewrite map_app, <- app_assoc. exact Hnd. }
    { lia. }
    exists ((propName, VObj field') :: out). split.
    + rewrite deNormalizePaths_cons. unfold deNormalizeId. rewrite Hrow.
      rewrite field_row_source, field_row_childFields, field_row_childFieldsName.
      rewrite Hstrip, Hn, property_key_name, Houtc.
      cbn [mbind res_bind container_key own].
      rewrite obj_omit_name.
      2:{ intros Hin. by apply keys_omit_subseteq in Hin. }
      rewrite (obj_set_notin (ChildFieldName_key c)).
      2:{ apply obj_get_None. apply obj_get_omit_eq. }
      fold field'. rewrite assign_plain by done. rewrite obj_set_notin.
      * rewrite Hout. cbn [own proto]. by rewrite <- app_assoc.
      * apply NoDup_app in Hnd as (_ & Hdis & _). intros Hin.
        apply (Hdis _ Hin). apply list_elem_of_here.
    + constructor; [|done]. split; [done|]. cbn [snd].
      apply veq_move_last with (c := VObj co); [done|].
      by apply veq_same_keys.
Qed.

(** The tree [{ a: { type: 'object', properties: {} } }] comes back without
    its empty [properties]. *)
Lemma empty_container_is_lost :
  exists nf, normalize uid_demo empty_container_tree = Ok nf /\
    ~ exists fuel fields',
        deNormalize fuel nf = Ok fields' /\
        veq (VObj fields') (VObj empty_container_tree).
Proof.
  eexists. split; [vm_compute; reflexivity|].
  intros (fuel & fields' & Hde & Heq).
  destruct fuel as [|fuel]; [discriminate|].
  vm_compute in Hde. injection Hde as <-.
  inversion Heq as [| |o1 o2 Hk]; subst.
  specialize (Hk "a"). cbn in Hk.
  inversion Hk as [x y Hxy|]; subst.
  inversion Hxy as [| |o1 o2 Hk']; subst.
  specialize (Hk' "properties"). cbn in Hk'. inversion Hk'.
Qed.

(** Other entries that do not come back: a container that the type of the
    field does not designate, a container inside a multi-field member, and a
    [name] property, which takes the place of the name of the field. *)
Example stray_container_is_lost :
  (nf ← normalize uid_demo stray_fields_tree; deNormalize 2 nf)
  = Ok [("o", VObj [("type", VStr "object")])].
Proof. vm_compute. reflexivity. Qed.

Example multi_field_container_is_lost :
  (nf ← normalize uid_demo nested_multi_field_tree; deNormalize 2 nf)
  = Ok [("t", VObj [("type", VStr "text");
          ("fields", VObj [("raw", VObj [("type", VStr "keyword")])])])].
Proof. vm_compute. reflexivity. Qed.

Example name_property_renames :
  (nf ← normalize uid_demo named_property_tree; deNormalize 2 nf)
  = Ok [("b", VObj [("type", VStr "text")])].
Proof. vm_compute. reflexivity. Qed.

(** A field named [__proto__] does not come back either: the assignment
    [to[name] = field] replaces the prototype of [to] and defines no
    property. *)
Example proto_field_is_lost :
  (nf ← normalize uid_demo [("__proto__", VObj [("type", VStr "text")])];
   deNormalize 2 nf)
  = Ok [].
Proof. vm_compute. reflexivity. Qed.

(** C1 (amended). A tree in which every field is an object with distinct keys
    and no [name] property, no field is named [__proto__], and [properties]
    and [fields] entries occur only as the non-empty object container
    designated by the type of a field that is not a multi-field, is returned
    by [deNormalize] after [normalize], up to the order of the properties of
    each field. *)
Theorem deNormalize_normalize (uid : nat -> string) (fields : obj) :
  (forall i j, uid i = uid j -> i = j) ->
  well_nested fields = true ->
  exists nf, normalize uid fields = Ok nf /\
    forall fuel, depth (VObj fields) <= fuel ->
      exists fields',
        deNormalize fuel nf = Ok fields' /\
        keys fields' = keys fields /\
        veq (VObj fields') (VObj fields).
Proof.
  intros uid_inj [[Hnd Hproto]%andb_prop Hall]%andb_prop.
  destruct (normalize_total uid fields) as [nf Hnf]. exists nf.
  split; [done|]. intros fuel Hfuel.
  destruct (normalize_rep uid uid_inj _ _ Hnf) as (n & Hrep & _).
  destruct (deNormalizePaths_rep _ _ _ _ _ _ _ _ _ _ Hrep)
    with (to0 := empty_target) (fuel := fuel)
    as (out & Hout & Hsame).
  - apply Forall_forall. intros kv Hin. rewrite forallb_forall in Hall.
    apply Hall. by apply list_elem_of_In.
  - apply existsb_eqb_false. by apply negb_true_iff.
  - cbn. by apply nodupb_NoDup.
  - done.
  - exists out. unfold deNormalize. rewrite Hout. cbn.
    split; [done|]. split; [|by apply veq_same_keys].
    unfold keys. clear -Hsame. induction Hsame as [|x y a b [Hk _] _ IH]; cbn;
      [done|by rewrite Hk, IH].
Qed.

Lemma deNormalize_normalize_witness :
  exists nf, normalize uid_demo sample_tree = Ok nf /\
    exists fields',
      deNormalize 6 nf = Ok fields' /\
      keys fields' = keys sample_tree /\
      veq (VObj fields') (VObj sample_tree).
Proof.
  destruct (deNormalize_normalize uid_demo sample_tree uid_demo_inj eq_refl)
    as (nf & Hnf & Hde).
  exists nf. split; [done|]. apply Hde. cbn. lia.
Defined.

(** ** Dotted paths *)

Lemma append_assoc (a b c : string) : (a +:+ b) +:+ c = a +:+ b +:+ c.
Proof.
  induction a as [|x a IH]; [done|].
  change (String x ((a +:+ b) +:+ c) = String x (a +:+ b +:+ c)).
  by rewrite IH.
Qed.

Lemma split_nonempty (c : ascii) (s : string) : split c s <> [].
Proof.
  destruct s as [|a s]; cbn; [done|].
  destruct (Ascii.eqb a c); [done|]. by destruct (split c s).
Qed.

Lemma join_split (s : string) : join "." (split "." s) = s.
Proof.
  induction s as [|a s IH]; [done|]. cbn [split].
  pose proof (split_nonempty "." s) as Hne.
  destruct (Ascii.eqb_spec a ".") as [->|Hne'].
  - destruct (split "." s) as [|x l]; [done|].
    change (join "." ("" :: x :: l)) with ("." +:+ join "." (x :: l)).
    by rewrite IH.
  - destruct (split "." s) as [|x l]; [done|]. destruct l as [|y l].
    + cbn in *. by rewrite IH.
    + change (join "." (String a x :: y :: l))
        with (String a (x +:+ "." +:+ join "." (y :: l))).
      change (join "." (x :: y :: l)) with (x +:+ "." +:+ join "." (y :: l)) in IH.
      by rewrite IH.
Qed.

Lemma join_snoc (l : list string) (n : string) :
  l <> [] -> join "." (l ++ [n]) = join "." l +:+ "." +:+ n.
Proof.
  induction l as [|x l IH]; [done|]. intros _. destruct l as [|y l]; [done|].
  change (join "." ((x :: y :: l) ++ [n]))
    with (x +:+ "." +:+ join "." ((y :: l) ++ [n])).
  rewrite IH by done.
  change (join "." (x :: y :: l)) with (x +:+ "." +:+ join "." (y :: l)).
  by rewrite !append_assoc.
Qed.

Lemma field_path_join (paths : list string) (name : string) :
  field_path paths name = join "." (paths ++ [name]).
Proof.
  destruct paths as [|x l]; [done|]. by rewrite join_snoc.
Qed.

(** The path below a parent whose path is split again into names *)
Lemma field_path_split (ns : list string) (n : string) :
  ns <> [] ->
  field_path (split "." (join "." ns)) n = join "." (ns ++ [n]).
Proof.
  intros Hne. rewrite field_path_join, !join_snoc, ?join_split; try done.
  apply split_nonempty.
Qed.

(** ** Parent chains *)

Lemma chain_names_functional t k ns ns' :
  chain_names t k ns -> chain_names t k ns' -> ns = ns'.
Proof.
  intros H. revert ns'.
  induction H as [k r n Hr Hp Hn|k r p ns n Hr Hp Hn Hc IH]; intros ns' H';
    inversion H' as [k' r' n' Hr' Hp' Hn'|k' r' p' ns0 n' Hr' Hp' Hn' Hc'];
    subst; rewrite Hr in Hr'; injection Hr' as <-.
  - rewrite Hn in Hn'. by injection Hn' as <-.
  - congruence.
  - congruence.
  - rewrite Hp in Hp'. injection Hp' as <-. rewrite (IH _ Hc').
    rewrite Hn in Hn'. by injection Hn' as <-.
Qed.

Lemma chain_names_row t k ns :
  chain_names t k ns ->
  exists r n, t !! k = Some r /\ row_name r = Some n /\ ns <> [].
Proof.
  intros [k' r n Hr Hp Hn|k' r p ns' n Hr Hp Hn Hc]; exists r, n;
    (split; [done|]); (split; [done|]); [done|by destruct ns'].
Qed.

(** Chains only read the parent and the name of each row. *)
Lemma chain_names_agree t t' k ns :
  (forall k r, t !! k = Some r ->
     exists r', t' !! k = Some r' /\ parentId r' = parentId r /\
       row_name r' = row_name r) ->
  chain_names t k ns -> chain_names t' k ns.
Proof.
  intros Hag. induction 1 as [k r n Hr Hp Hn|k r p ns n Hr Hp Hn Hc IH];
    destruct (Hag _ _ Hr) as (r' & Hr' & Hp' & Hn').
  - apply (chain_root t' k r'); [done|congruence|congruence].
  - apply (chain_child t' k r' p); [done|congruence|congruence|done].
Qed.

(** In a finite table the chains have bounded length. *)
Lemma bounded_on_map (m : gmap string NormalizedField)
    (Q : string -> nat -> Prop) :
  (forall k r, m !! k = Some r -> exists n, Q k n) ->
  exists M, forall k r, m !! k = Some r -> exists n, n <= M /\ Q k n.
Proof.
  induction m as [|k r m Hk _ IH] using map_first_key_ind; intros HQ.
  - exists 0. intros k r Hr. by rewrite lookup_empty in Hr.
  - destruct IH as [M HM].
    { intros k' r' Hr'. apply (HQ k' r'). rewrite lookup_insert_ne; [done|].
      intros ->. congruence. }
    destruct (HQ k r) as [n Hn]; [apply lookup_insert_eq|].
    exists (Nat.max M n). intros k' r' Hr'.
    destruct (decide (k = k')) as [<-|Hne].
    + exists n. split; [lia|done].
    + rewrite lookup_insert_ne in Hr' by done.
      destruct (HM _ _ Hr') as (n' & ? & ?). exists n'. split; [lia|done].
Qed.

Lemma chain_names_bounded t :
  (forall k r, t !! k = Some r -> exists ns, chain_names t k ns) ->
  exists M, forall k ns, chain_names t k ns -> length ns <= M.
Proof.
  intros Hall.
  destruct (bounded_on_map t (fun k n => exists ns, chain_names t k ns /\ length ns = n))
    as [M HM].
  { intros k r Hr. destruct (Hall _ _ Hr) as [ns Hns]. eauto. }
  exists M. intros k ns Hns.
  destruct (chain_names_row _ _ _ Hns) as (r & n & Hr & _).
  destruct (HM _ _ Hr) as (n' & Hle & ns' & Hns' & <-).
  by rewrite (chain_names_functional _ _ _ _ Hns Hns').
Qed.

(** ** Renaming a field *)

Section Walk.

Variables (t : gmap string NormalizedField) (field : NormalizedField).
Hypothesis Hwf : wf_table t.
Hypothesis Hren : renamed t field.

(** The table with the edited row in place of the old one: the walk gives
    every row it visits the path that this table prescribes. *)
Local Abbreviation tref := (<[id field := field]> t).

Local Abbreviation good u k := (repathed tref u k).

Lemma tref_row k r :
  tref !! k = Some r ->
  id r = k /\
  is_Some (row_name r) /\
  ((hasChildFields r || hasMultiFields r) = true <-> is_Some (childFields r)) /\
  exists r0, t !! k = Some r0 /\ parentId r = parentId r0 /\
    childFields r = childFields r0.
Proof.
  destruct Hren as (r0 & Hr0 & Hp & Hc & Hhc & Hhm & Hn).
  destruct (decide (k = id field)) as [->|Hne].
  - rewrite lookup_insert_eq. intros [= <-]. split; [done|]. split; [done|].
    split; [|eauto]. rewrite Hhc, Hhm, Hc. by apply (wf_flags t Hwf (id field)).
  - rewrite lookup_insert_ne by done. intros Hr.
    split; [by apply (wf_ids t Hwf k r)|].
    destruct (wf_paths t Hwf k r Hr) as (ns & Hns & _).
    destruct (chain_names_row _ _ _ Hns) as (r' & n & Hr' & Hn' & _).
    rewrite Hr in Hr'. injection Hr' as <-.
    split; [eauto|]. split; [by apply (wf_flags t Hwf k)|eauto].
Qed.

Lemma tref_children k r cs c :
  tref !! k = Some r -> childFields r = Some cs -> c ∈ cs ->
  exists rc, t !! c = Some rc /\ parentId rc = Some k /\ id rc = c.
Proof.
  intros Hr Hcs Hin.
  destruct (tref_row _ _ Hr) as (_ & _ & _ & r0 & Hr0 & _ & Hc).
  rewrite Hc in Hcs.
  destruct (wf_children t Hwf k r0 cs c Hr0 Hcs Hin) as (rc & Hrc & Hp).
  exists rc. split; [done|]. split; [done|]. by apply (wf_ids t Hwf c rc).
Qed.

(** Chains of the two tables have the same lengths. *)
Lemma chain_tref_length k ns :
  chain_names tref k ns -> exists ns', chain_names t k ns' /\ length ns' = length ns.
Proof.
  induction 1 as [k r n Hr Hp Hn|k r p ns n Hr Hp Hn Hc IH];
    destruct (tref_row _ _ Hr) as (_ & _ & _ & r0 & Hr0 & Hp0 & _);
    destruct (wf_paths t Hwf k r0 Hr0) as (ns0 & Hns0 & _);
    destruct (chain_names_row _ _ _ Hns0) as (r0' & n0 & Hr0' & Hn0 & _);
    rewrite Hr0 in Hr0'; injection Hr0' as <-.
  - exists [n0]. split; [|done].
    apply (chain_root t k r0); [done|congruence|done].
  - destruct IH as (ns' & Hns' & Hlen). exists (ns' ++ [n0]).
    split; [|by rewrite !length_app, Hlen].
    apply (chain_child t k r0 p); [done|congruence|done|done].
Qed.

(** Above the edited row nothing changes. *)
Lemma chain_tref_above nsf k ns :
  chain_names t (id field) nsf -> chain_names t k ns ->
  length ns < length nsf -> chain_names tref k ns.
Proof.
  intros Hf. induction 1 as [k r n Hr Hp Hn|k r p ns n Hr Hp Hn Hc IH];
    intros Hlen.
  - assert (k <> id field) as Hne.
    { intros ->.
      rewrite (chain_names_functional _ _ _ _ Hf (chain_root t _ r n Hr Hp Hn))
        in Hlen. lia. }
    apply (chain_root _ k r); [by rewrite lookup_insert_ne|done|done].
  - assert (k <> id field) as Hne.
    { intros ->.
      rewrite (chain_names_functional _ _ _ _ Hf
                 (chain_child t _ r p ns n Hr Hp Hn Hc)) in Hlen. lia. }
    rewrite length_app in Hlen. cbn in Hlen.
    apply (chain_child _ k r p); [by rewrite lookup_insert_ne|done|done|].
    apply IH. lia.
Qed.

Section Visit.

Variables (bl ul : loc) (M : nat) (nsf : list string).
Hypothesis Hlocs : bl <> ul.
Hypothesis HM : forall k ns, chain_names tref k ns -> length ns <= M.
Hypothesis Hf : chain_names tref (id field) nsf.

Lemma child_is_below r ns cs c rc :
  tref !! id r = Some r -> chain_names tref (id r) ns ->
  length nsf <= length ns ->
  childFields r = Some cs -> c ∈ cs -> t !! c = Some rc ->
  parentId rc = Some (id r) ->
  tref !! c = Some rc.
Proof.
  intros Hr Hns Hlen Hcs Hin Hrc Hp.
  rewrite lookup_insert_ne; [done|]. intros <-.
  destruct Hren as (r0 & Hr0 & Hp0 & _). rewrite Hrc in Hr0.
  injection Hr0 as <-.
  inversion Hf as [k' r' n' Hr' Hp' Hn'|k' r' p' ns' n' Hr' Hp' Hn' Hc'];
    subst; rewrite lookup_insert_eq in Hr'; injection Hr' as <-;
    [congruence|].
  assert (p' = id r) as -> by congruence.
  rewrite (chain_names_functional _ _ _ _ Hc' Hns), length_app in Hlen.
  cbn in Hlen. lia.
Qed.

Lemma updateFieldPath_walk :
  forall fuel r _paths name ns h u,
    h !! bl = Some t -> h !! ul = Some u ->
    tref !! id r = Some r -> row_name r = Some name ->
    chain_names tref (id r) ns ->
    join "." (_paths ++ [name]) = join "." ns ->
    length nsf <= length ns -> M < fuel + length ns ->
    exists u',
      updateFieldPath fuel bl ul r _paths h = Ok (<[ul := u']> h) /\
      (forall k, u' !! k = u !! k \/ (in_subtree t r k /\ good u' k)) /\
      (forall k, in_subtree t r k -> good u' k).
Proof.
  induction fuel as [|fuel IHfuel];
    intros r _paths name ns h u Hbl Hul Hr Hname Hns Hjoin Hlen Hfuel.
  { pose proof (HM _ _ Hns). lia. }
  cbn [updateFieldPath]. unfold row_name in Hname. rewrite Hname.
  unfold heap_put, heap_get. rewrite Hul. cbn [mbind res_bind].
  rewrite field_path_join, Hjoin.
  set (row' := set_path r (join "." ns)).
  set (u1 := <[id r := row']> u).
  assert (good u1 (id r)) as Hself.
  { exists r, ns. split; [done|]. split; [done|]. apply lookup_insert_eq. }
  destruct (tref_row _ _ Hr) as (_ & _ & Hflags & _).
  destruct (hasChildFields r || hasMultiFields r) eqn:Hhas.
  - destruct (proj1 Hflags eq_refl) as [cs Hcs]. rewrite Hcs.
    rewrite lookup_insert_ne by done. rewrite Hbl. cbn [mbind res_bind].
    assert (forall cs' u0,
              (forall c, c ∈ cs' -> c ∈ cs) ->
              exists u',
                foldM (updateChild (fun c =>
                         updateFieldPath fuel bl ul c (_paths ++ [name])))
                  (<[ul := u0]> h) (map (fun fieldId => t !! fieldId) cs')
                = Ok (<[ul := u']> h) /\
                (forall k, u' !! k = u0 !! k \/
                   ((exists c rc, c ∈ cs' /\ t !! c = Some rc /\
                       in_subtree t rc k) /\ good u' k)) /\
                (forall c rc k, c ∈ cs' -> t !! c = Some rc ->
                   in_subtree t rc k -> good u' k)) as Hfold.
    { induction cs' as [|c cs' IHcs]; intros u0 Hsub.
      - exists u0. split; [done|]. split; [by left|].
        intros c rc k Hin. by apply elem_of_nil in Hin.
      - destruct (tref_children _ _ _ c Hr Hcs) as (rc & Hrc & Hp & Hid);
          [apply Hsub, list_elem_of_here|].
        pose proof (child_is_below r ns cs c rc Hr Hns Hlen Hcs
                      (Hsub c (list_elem_of_here _ _)) Hrc Hp) as Hrc'.
        destruct (tref_row _ _ Hrc') as (_ & [cname Hcname] & _).
        destruct (chain_names_row _ _ _ Hns) as (_ & _ & _ & _ & Hnsne).
        destruct (IHfuel rc (_paths ++ [name]) cname (ns ++ [cname])
                    (<[ul := u0]> h) u0) as (u2 & Hrun & Hone & Hall).
        { by rewrite lookup_insert_ne. }
        { apply lookup_insert_eq. }
        { by rewrite Hid. }
        { done. }
        { rewrite Hid. by apply (chain_child _ c rc (id r)). }
        { rewrite (join_snoc (_paths ++ [name])) by (by destruct _paths).
          rewrite (join_snoc ns) by done. by rewrite Hjoin. }
        { rewrite length_app. cbn. lia. }
        { rewrite length_app. cbn. lia. }
        rewrite insert_insert_eq in Hrun.
        destruct (IHcs u2) as (u' & Hrest & Hone' & Hall').
        { intros c' Hin. by apply Hsub, list_elem_of_further. }
        exists u'. split; [|split].
        + cbn [map foldM]. rewrite Hrc. cbn [updateChild].
          rewrite Hrun. cbn [mbind res_bind]. exact Hrest.
        + intros k. destruct (Hone' k) as [Heq|[(c' & rc' & Hin & Hc' & Hk) Hg]].
          * destruct (Hone k) as [Heq'|[Hk Hg]].
            -- left. congruence.
            -- right. split.
               ++ exists c, rc. split; [apply list_elem_of_here|done].
               ++ destruct Hg as (rk & nk & ? & ? & Hu2).
                  exists rk, nk. split; [done|]. split; [done|]. congruence.
          * right. split; [|done]. exists c', rc'.
            split; [by apply list_elem_of_further|done].
        + intros c' rc' k [->|Hin]%elem_of_cons Hc' Hk.
          * rewrite Hrc in Hc'. injection Hc' as <-.
            destruct (Hone' k) as [Heq|[_ Hg]]; [|done].
            destruct (Hall k Hk) as (rk & nk & ? & ? & Hu2).
            exists rk, nk. split; [done|]. split; [done|]. congruence.
          * by apply (Hall' c' rc' k). }
    destruct (Hfold cs u1) as (u' & Hrun & Hone & Hall); [done|].
    exists u'. split; [exact Hrun|].
    assert (good u' (id r)) as Hself'.
    { destruct (Hone (id r)) as [Heq|[_ Hg]]; [|done].
      destruct Hself as (rk & nk & ? & ? & Hu1).
      exists rk, nk. split; [done|]. split; [done|]. congruence. }
    split.
    + intros k. destruct (Hone k) as [Heq|[(c & rc & Hin & Hc & Hk) Hg]].
      * destruct (decide (k = id r)) as [->|Hne].
        -- right. split; [constructor|done].
        -- left. rewrite Heq. by apply lookup_insert_ne.
      * right. split; [|done]. by apply (sub_child t r cs c rc).
    + intros k Hk.
      inversion Hk as [r'|r' cs' c rc k' Hcs' Hin Hc Hk']; subst; [done|].
      rewrite Hcs in Hcs'. injection Hcs' as <-.
      by apply (Hall c rc k).
  - exists u1. split; [done|]. split.
    + intros k. destruct (decide (k = id r)) as [->|Hne].
      * right. split; [constructor|done].
      * left. by apply lookup_insert_ne.
    + intros k Hk.
      inversion Hk as [r'|r' cs' c rc k' Hcs' Hin Hc Hk']; subst; [done|].
      assert (false = true) as Hx by (apply Hflags; eauto). discriminate.
Qed.

End Visit.

End Walk.

Lemma heap_get_Some (l : loc) (h : heap) t :
  h !! l = Some t -> heap_get l h = Ok t.
Proof. intros H. unfold heap_get. by rewrite H. Qed.

Lemma truthy_id_Some (p : string) : p <> "" -> truthy_id (Some p) = Some p.
Proof. intros H. cbn. by rewrite eqb_ne. Qed.

(** What a call of [updateFieldsPathAfterFieldNameChange] returns. *)
Lemma updateFieldsPath_spec t field bl (h : heap) :
  wf_table t -> renamed t field -> h !! bl = Some t ->
  exists nsf fuel0,
    chain_names (<[id field := field]> t) (id field) nsf /\
    forall fuel, fuel0 <= fuel ->
      exists u',
        updateFieldsPathAfterFieldNameChange fuel field bl h
        = Ok (join "." nsf, fresh (dom h), <[fresh (dom h) := u']> h) /\
        (forall k, u' !! k = t !! k \/
           (in_subtree t field k /\ repathed (<[id field := field]> t) u' k)) /\
        (forall k, in_subtree t field k ->
           repathed (<[id field := field]> t) u' k).
Proof.
  intros Hwf Hren Hbl.
  pose proof Hren as (r0 & Hr0 & Hp0 & _ & _ & _ & [name Hname]).
  destruct (wf_paths t Hwf _ _ Hr0) as (ns0 & Hns0 & _).
  destruct (chain_names_bounded t) as [M HM].
  { intros k r Hr. destruct (wf_paths t Hwf _ _ Hr) as (ns & ? & _). eauto. }
  assert (forall k ns, chain_names (<[id field := field]> t) k ns -> length ns <= M)
    as HM'.
  { intros k ns Hns.
    destruct (chain_tref_length t field Hwf Hren k ns Hns) as (ns' & Hns' & <-).
    by apply (HM k). }
  set (ul := fresh (dom h)).
  assert (bl <> ul) as Hlocs.
  { intros Heq. apply (is_fresh (dom h)). fold ul. rewrite <- Heq.
    apply elem_of_dom. eauto. }
  assert (exists paths nsf,
            match truthy_id (parentId field) with
            | Some p =>
                t0 ← heap_get bl (<[ul := t]> h);
                match t0 !! p with
                | Some parent => Ok (split "." (path parent))
                | None => Throw TypeError
                end
            | None => Ok []
            end = Ok paths /\
            chain_names (<[id field := field]> t) (id field) nsf /\
            join "." (paths ++ [name]) = join "." nsf)
    as (paths & nsf & Hpaths & Hnsf & Hjoin).
  { inversion Hns0 as [k r n Hr Hp Hn|k r p nsp n Hr Hp Hn Hc]; subst;
      rewrite Hr0 in Hr; injection Hr as <-; rewrite Hp0, Hp.
    - exists [], [name]. split; [done|]. split; [|done].
      apply (chain_root _ _ field); [apply lookup_insert_eq|congruence|done].
    - destruct (chain_names_row _ _ _ Hc) as (rp & np & Hrp & _ & Hne).
      destruct (wf_ids t Hwf _ _ Hrp) as [_ Hpne].
      destruct (wf_paths t Hwf _ _ Hrp) as (nsp' & Hnsp' & Hpath).
      rewrite (chain_names_functional _ _ _ _ Hnsp' Hc) in Hpath.
      rewrite truthy_id_Some by done.
      rewrite (heap_get_Some bl _ t) by (by rewrite lookup_insert_ne).
      cbn [mbind res_bind]. rewrite Hrp.
      exists (split "." (path rp)), (nsp ++ [name]). split; [done|]. split.
      + apply (chain_child _ _ field p); [apply lookup_insert_eq|congruence|done|].
        apply (chain_tref_above t field _ _ _ Hns0 Hc).
        rewrite length_app. cbn. lia.
      + by rewrite <- field_path_join, Hpath, field_path_split. }
  exists nsf, (S M). split; [done|]. intros fuel Hfuel.
  destruct (updateFieldPath_walk t field Hwf Hren bl ul M nsf Hlocs HM' Hnsf
              fuel field paths name nsf (<[ul := t]> h) t)
    as (u' & Hrun & Hone & Hall).
  { by rewrite lookup_insert_ne. }
  { apply lookup_insert_eq. }
  { apply lookup_insert_eq. }
  { done. }
  { done. }
  { done. }
  { done. }
  { lia. }
  rewrite insert_insert_eq in Hrun.
  exists u'. split; [|done].
  unfold updateFieldsPathAfterFieldNameChange.
  rewrite (heap_get_Some bl h t Hbl). cbn [mbind res_bind]. fold ul.
  rewrite Hpaths. cbn [mbind res_bind]. rewrite Hrun. cbn [mbind res_bind].
  rewrite (heap_get_Some ul _ u') by apply lookup_insert_eq.
  cbn [mbind res_bind].
  destruct (Hall (id field)) as (rk & ns & Hrk & Hns & Hu); [constructor|].
  rewrite lookup_insert_eq in Hrk. injection Hrk as <-.
  rewrite Hu. cbn [path set_path].
  by rewrite (chain_names_functional _ _ _ _ Hns Hnsf).
Qed.

Lemma repathed_agree tref u :
  (forall k, u !! k = tref !! k \/ repathed tref u k) ->
  forall k r, tref !! k = Some r ->
    exists r', u !! k = Some r' /\ parentId r' = parentId r /\
      row_name r' = row_name r.
Proof.
  intros H k r Hr. destruct (H k) as [Heq|(rk & ns & Hrk & _ & Hu)].
  - exists r. by rewrite Heq.
  - rewrite Hr in Hrk. injection Hrk as <-. eauto.
Qed.

(** C3. After a rename in a well-formed table, the returned table gives the
    renamed row and every row below it the dot-join of the names along its
    parent chain in the returned table, and the returned string is that path
    of the renamed row. *)
Theorem updateFieldsPath_paths t field bl (h : heap) :
  wf_table t -> renamed t field -> h !! bl = Some t ->
  exists fuel0, forall fuel, fuel0 <= fuel ->
    exists p ul h' u',
      updateFieldsPathAfterFieldNameChange fuel field bl h = Ok (p, ul, h') /\
      h' !! ul = Some u' /\
      (forall k, in_subtree t field k ->
         exists r ns, u' !! k = Some r /\ chain_names u' k ns /\
           path r = join "." ns) /\
      (exists r ns, u' !! id field = Some r /\ row_name r = row_name field /\
         chain_names u' (id field) ns /\ path r = p /\ p = join "." ns).
Proof.
  intros Hwf Hren Hbl.
  destruct (updateFieldsPath_spec t field bl h Hwf Hren Hbl)
    as (nsf & fuel0 & Hnsf & Hspec).
  exists fuel0. intros fuel Hfuel.
  destruct (Hspec fuel Hfuel) as (u' & Hrun & Hone & Hall).
  exists (join "." nsf), (fresh (dom h)), (<[fresh (dom h) := u']> h), u'.
  split; [done|]. split; [apply lookup_insert_eq|].
  assert (forall k r, <[id field := field]> t !! k = Some r ->
            exists r', u' !! k = Some r' /\ parentId r' = parentId r /\
              row_name r' = row_name r) as Hag.
  { apply repathed_agree. intros k.
    destruct (decide (k = id field)) as [->|Hne].
    - right. apply Hall. constructor.
    - destruct (Hone k) as [Heq|[_ Hg]]; [|by right].
      left. by rewrite lookup_insert_ne. }
  split.
  - intros k Hk. destruct (Hall k Hk) as (rk & ns & Hrk & Hns & Hu).
    exists (set_path rk (join "." ns)), ns. split; [done|].
    split; [by apply (chain_names_agree _ _ _ _ Hag)|done].
  - destruct (Hall (id field)) as (rk & ns & Hrk & Hns & Hu); [constructor|].
    rewrite lookup_insert_eq in Hrk. injection Hrk as <-.
    rewrite (chain_names_functional _ _ _ _ Hns Hnsf) in Hu.
    exists (set_path field (join "." nsf)), nsf. split; [done|].
    split; [done|]. split; [by apply (chain_names_agree _ _ _ _ Hag)|done].
Qed.

(** C4. The call leaves the table it was given, and every other object of the
    store, as they were: the result is a new table, in which every row other
    than the renamed one and those below it is the row of the input. *)
Theorem updateFieldsPath_frame t field bl (h : heap) :
  wf_table t -> renamed t field -> h !! bl = Some t ->
  exists fuel0, forall fuel, fuel0 <= fuel ->
    exists p ul h' u',
      updateFieldsPathAfterFieldNameChange fuel field bl h = Ok (p, ul, h') /\
      (ul ∉ dom h) /\
      (forall l, l ∈ dom h -> h' !! l = h !! l) /\
      h' !! bl = Some t /\
      h' !! ul = Some u' /\
      (forall k, ~ in_subtree t field k -> u' !! k = t !! k).
Proof.
  intros Hwf Hren Hbl.
  destruct (updateFieldsPath_spec t field bl h Hwf Hren Hbl)
    as (nsf & fuel0 & Hnsf & Hspec).
  exists fuel0. intros fuel Hfuel.
  destruct (Hspec fuel Hfuel) as (u' & Hrun & Hone & Hall).
  exists (join "." nsf), (fresh (dom h)), (<[fresh (dom h) := u']> h), u'.
  split; [done|]. split; [apply is_fresh|].
  assert (forall l, l ∈ dom h -> <[fresh (dom h) := u']> h !! l = h !! l) as Hold.
  { intros l Hl. apply lookup_insert_ne. intros <-. by apply (is_fresh (dom h)). }
  split; [done|]. split.
  - rewrite Hold; [done|]. apply elem_of_dom. eauto.
  - split; [apply lookup_insert_eq|].
    intros k Hk. destruct (Hone k) as [Heq|[Hin _]]; [done|].
    by destruct Hk.
Qed.

(** ** Normalised tables are well formed *)

Lemma pretty_N_go_ne_n (x : N) (s s' : string) :
  s <> String "n" s' -> pretty_N_go x s <> String "n" s'.
Proof.
  revert s. induction (N.lt_wf_0 x) as [x _ IH]; intros s Hs.
  assert (x = 0 \/ 0 < x)%N as [->|Hpos] by lia.
  - by rewrite pretty_N_go_0.
  - rewrite pretty_N_go_step by done. apply IH.
    { by apply N.div_lt. }
    unfold pretty_N_char. by repeat case_match.
Qed.

Lemma pretty_nat_ne_name (i : nat) : pretty i <> "name".
Proof.
  unfold pretty, pretty_nat, pretty, pretty_N.
  case_decide; [done|]. by apply pretty_N_go_ne_n.
Qed.

Lemma index_entries_no_name (xs : list value) : "name" ∉ keys (index_entries xs).
Proof.
  intros Hin. apply list_elem_of_fmap in Hin as ([k v] & Hk & Hin).
  apply index_entries_keys in Hin as [[i ->] _]. cbn in Hk.
  symmetry in Hk. by apply pretty_nat_ne_name in Hk.
Qed.

Lemma nameless_field_name (v : value) :
  nameless_field v = true -> "name" ∉ keys (entries v).
Proof.
  destruct v as [[| | |s]|a|o]; cbn [entries]; intros H;
    try apply index_entries_no_name; try (intros Hin; by apply elem_of_nil in Hin).
  cbn in H. apply andb_prop in H as [H _].
  apply existsb_eqb_false. by apply negb_true_iff.
Qed.

Lemma nameless_field_children (o : obj) (k : string) (children : value) :
  nameless_field (VObj o) = true -> (k, children) ∈ o ->
  is_container_key k = true ->
  Forall (fun kv => nameless_field (snd kv) = true) (entries children).
Proof.
  cbn [nameless_field]. intros [_ H]%andb_prop Hin Hk.
  rewrite forallb_forall in H. apply list_elem_of_In in Hin.
  specialize (H _ Hin). cbn [fst snd] in H. rewrite Hk in H.
  apply Forall_forall. intros [k' v] Hkv. cbn [snd].
  destruct children as [[| | |s]|a|co]; cbn [entries] in Hkv;
    try (by apply elem_of_nil in Hkv).
  - apply index_entries_keys in Hkv as [_ Hv]. unfold chars in Hv.
    by apply list_elem_of_fmap in Hv as (c & -> & _).
  - apply index_entries_keys in Hkv as [_ Hv].
    rewrite forallb_forall in H. apply H. by apply list_elem_of_In.
  - rewrite forallb_forall in H. apply list_elem_of_In in Hkv.
    by apply (H _ Hkv).
Qed.

Lemma obj_get_fold_set_notin (k : string) (es target : obj) :
  k ∉ keys es ->
  obj_get k (fold_left (fun acc kv => obj_set (fst kv) (snd kv) acc) es target)
  = obj_get k target.
Proof.
  revert target. induction es as [|[k' v'] es IH]; intros target Hk; [done|].
  cbn [fold_left fst snd]. cbn in Hk. apply not_elem_of_cons in Hk as [Hne Hk].
  rewrite IH by done. by apply obj_get_set_ne.
Qed.

Lemma field_row_name i p d m paths propName (value : value) cs :
  nameless_field value = true ->
  row_name (field_row i p d m paths propName value cs) = Some propName.
Proof.
  intros Hname%nameless_field_name. unfold row_name. rewrite field_row_source.
  unfold strip_containers. rewrite !obj_get_omit_ne by done.
  unfold named_field, spread. by rewrite obj_get_fold_set_notin.
Qed.

Section Chained.

Variable uid : nat -> string.

Lemma rep_chains t es paths d m p ids n n' :
  rep uid t es paths d m p ids n n' ->
  Forall (fun kv => nameless_field (snd kv) = true) es ->
  match p with
  | None => paths = []
  | Some q => chain_names t q paths
  end ->
  forall j, n <= j < n' ->
    exists r ns, t !! uid j = Some r /\ chain_names t (uid j) ns /\
      path r = join "." ns.
Proof.
  induction 1 as [|propName value es paths d m p ids n n' Hleaf Hrow Hrest IH
                  |propName value es paths d m p ids n n1 n' children cs
                     Hnode Hc Hsub IHsub Hrow Hrest IHrest];
    intros Hwn Hp j Hj; [lia| |];
    apply Forall_cons in Hwn as [Hv Hwn]; cbn [snd] in Hv.
  - destruct (decide (j = n)) as [->|Hne]; [|apply IH; [done|done|lia]].
    eexists _, (paths ++ [propName]). split; [exact Hrow|].
    split; [|apply field_path_join].
    destruct p as [q|].
    + eapply chain_child; [exact Hrow|done|by apply field_row_name|done].
    + subst paths. eapply chain_root; [exact Hrow|done|by apply field_row_name].
  - assert (chain_names t (uid n) (paths ++ [propName])) as Hchain.
    { destruct p as [q|].
      + eapply chain_child; [exact Hrow|done|by apply field_row_name|done].
      + subst paths.
        eapply chain_root; [exact Hrow|done|by apply field_row_name]. }
    destruct (decide (j = n)) as [->|Hne]; [|
      destruct (decide (j < n1)) as [Hlt|Hge]].
    + eexists _, (paths ++ [propName]). split; [exact Hrow|].
      split; [done|apply field_path_join].
    + apply IHsub; [|done|lia].
      unfold field_meta in Hnode.
      destruct (has_children_name _ _ Hnode) as [c Hn].
      fold (field_meta propName value m) in Hn. rewrite Hn in Hc.
      destruct (container_of_object _ _ _ _ _ Hn Hc) as (o & -> & Hin).
      apply (nameless_field_children o _ _ Hv Hin), is_container_key_name.
    + pose proof (rep_range _ _ _ _ _ _ _ _ _ _ Hsub).
      apply IHrest; [done|done|lia].
Qed.

Hypothesis uid_inj : forall i j, uid i = uid j -> i = j.
Hypothesis uid_nonempty : forall i, uid i <> "".

Lemma normalize_wf_table (fields : obj) (nf : NormalizedFields) :
  nameless fields = true ->
  normalize uid fields = Ok nf -> wf_table (byId nf).
Proof.
  intros Hall Hnf.
  destruct (normalize_rep uid uid_inj _ _ Hnf) as (n & Hrep & Hdom).
  constructor.
  - intros k r Hr.
    destruct (normalize_links uid uid_inj _ _ Hnf k r Hr) as ((? & _) & _).
    split; [done|]. destruct (Hdom k) as (j & _ & ->); [eauto|done].
  - intros k r cs c Hr.
    destruct (normalize_links uid uid_inj _ _ Hnf k r Hr) as (_ & _ & Hch).
    apply Hch.
  - intros k r Hr.
    by destruct (normalize_links uid uid_inj _ _ Hnf k r Hr)
      as ((_ & _ & _ & ?) & _).
  - intros k r Hr. destruct (Hdom k) as (j & Hj & ->); [eauto|].
    destruct (rep_chains _ _ _ _ _ _ _ _ _ Hrep) with (j := j)
      as (r' & ns & Hr' & Hns & Hpath); [|done|lia|].
    + apply Forall_forall. intros kv Hin. unfold nameless in Hall.
      rewrite forallb_forall in Hall. apply Hall. by apply list_elem_of_In.
    + rewrite Hr in Hr'. injection Hr' as <-. eauto.
Qed.

End Chained.

(** A [name] property of the field overrides the name under which the field
    is declared, while the path keeps the declared name: such a tree is
    outside the lemma above. *)
Example name_property_breaks_path :
  exists nf r,
    normalize uid_demo named_property_tree = Ok nf /\
    byId nf !! "u0" = Some r /\ path r = "a" /\ row_name r = Some "b".
Proof.
  do 2 eexists. split; [vm_compute; reflexivity|].
  repeat split; vm_compute; reflexivity.
Qed.

Lemma sample_table_wf : wf_table sample_table.
Proof.
  destruct (normalize_total uid_demo sample_tree) as [nf Hnf].
  unfold sample_table. rewrite Hnf.
  by apply (normalize_wf_table uid_demo uid_demo_inj uid_demo_nonempty sample_tree).
Qed.

Lemma sample_renamed_ok : renamed sample_table sample_renamed.
Proof.
  eexists. split; [vm_compute; reflexivity|].
  repeat split; try reflexivity. by exists "title".
Qed.

Lemma updateFieldsPath_paths_witness :
  exists fuel0, forall fuel, fuel0 <= fuel ->
    exists p ul h' u',
      updateFieldsPathAfterFieldNameChange fuel sample_renamed 1%positive
        sample_store = Ok (p, ul, h') /\
      h' !! ul = Some u' /\
      (forall k, in_subtree sample_table sample_renamed k ->
         exists r ns, u' !! k = Some r /\ chain_names u' k ns /\
           path r = join "." ns) /\
      (exists r ns, u' !! id sample_renamed = Some r /\
         row_name r = row_name sample_renamed /\
         chain_names u' (id sample_renamed) ns /\ path r = p /\
         p = join "." ns).
Proof.
  exact (updateFieldsPath_paths sample_table sample_renamed 1%positive
           sample_store sample_table_wf sample_renamed_ok eq_refl).
Defined.

Lemma updateFieldsPath_frame_witness :
  exists fuel0, forall fuel, fuel0 <= fuel ->
    exists p ul h' u',
      updateFieldsPathAfterFieldNameChange fuel sample_renamed 1%positive
        sample_store = Ok (p, ul, h') /\
      (ul ∉ dom sample_store) /\
      (forall l, l ∈ dom sample_store -> h' !! l = sample_store !! l) /\
      h' !! 1%positive = Some sample_table /\
      h' !! ul = Some u' /\
      (forall k, ~ in_subtree sample_table sample_renamed k ->
         u' !! k = sample_table !! k).
Proof.
  exact (updateFieldsPath_frame sample_table sample_renamed 1%positive
           sample_store sample_table_wf sample_renamed_ok eq_refl).
Defined.

(** The example of the specification: renaming [name] to [title] under
    [myObject] gives [myObject.title] and [myObject.title.raw], and leaves the
    table that was passed in as it was. *)
Example rename_sample :
  exists ul h' u' r1 r2,
    updateFieldsPathAfterFieldNameChange 3 sample_renamed 1%positive sample_store
    = Ok ("myObject.title", ul, h') /\
    h' !! 1%positive = Some sample_table /\
    h' !! ul = Some u' /\
    u' !! "u1" = Some r1 /\ path r1 = "myObject.title" /\
    u' !! "u2" = Some r2 /\ path r2 = "myObject.title.raw" /\
    parentId r2 = Some "u1" /\
    u' !! "u0" = sample_table !! "u0".
Proof.
  do 5 eexists. split; [vm_compute; reflexivity|].
  repeat split; vm_compute; reflexivity.
Qed.

(** * Further properties of the library *)

(** ** Field metadata *)

(** X1. No field can have both child fields and multi-fields; it has child
    fields exactly when it can and its [properties] has entries, multi-fields
    exactly when it can and its [fields] has entries, and never both. *)
Theorem getFieldMeta_exclusive (field : obj) (isMultiField : option bool) :
  let meta := getFieldMeta field isMultiField in
  m_canHaveChildFields meta && m_canHaveMultiFields meta = false /\
  m_hasChildFields meta
    = m_canHaveChildFields meta && has_entries (obj_get "properties" field) /\
  m_hasMultiFields meta
    = m_canHaveMultiFields meta && has_entries (obj_get "fields" field) /\
  m_hasChildFields meta && m_hasMultiFields meta = false.
Proof.
  unfold getFieldMeta; cbn.
  destruct (getChildFieldsName (obj_get "type" field)) as [[]|];
    destruct isMultiField as [[]|]; cbn; repeat split; try done;
    by rewrite ?andb_false_r.
Qed.

(** ** Type change policy *)

Lemma getChildFieldsName_text :
  getChildFieldsName (Some (VStr "text")) = Some CFields /\
  getChildFieldsName (Some (VStr "keyword")) = Some CFields /\
  getChildFieldsName (Some (VStr "object")) = Some CProperties /\
  getChildFieldsName (Some (VStr "nested")) = Some CProperties.
Proof. done. Qed.

Lemma getChildFieldsName_other (ty : string) :
  ty <> "text" -> ty <> "keyword" -> ty <> "object" -> ty <> "nested" ->
  getChildFieldsName (Some (VStr ty)) = None.
Proof.
  intros. unfold getChildFieldsName, is_str, VStr. by rewrite !eqb_ne.
Qed.

(** X2. A type change asks to delete the child fields exactly when the old
    type has a child container and the new type is the same type or has
    another container (or none): keeping the type, as in text to text, asks
    for deletion; going to the sibling type with the same container does
    not. *)
Theorem shouldDeleteChildFields_iff (oldType newType : string) :
  shouldDeleteChildFieldsAfterTypeChange oldType newType = true <->
  getChildFieldsName (Some (VStr oldType)) <> None /\
  (newType = oldType \/
   getChildFieldsName (Some (VStr newType))
   <> getChildFieldsName (Some (VStr oldType))).
Proof.
  destruct getChildFieldsName_text as (Ht & Hk & Ho & Hn).
  unfold shouldDeleteChildFieldsAfterTypeChange.
  destruct (String.eqb_spec oldType "text") as [->|Hot];
    [|destruct (String.eqb_spec oldType "keyword") as [->|Hok];
      [|destruct (String.eqb_spec oldType "object") as [->|Hoo];
        [|destruct (String.eqb_spec oldType "nested") as [->|Hon]]]];
    cbn [andb].
  - rewrite Ht. destruct (String.eqb_spec newType "keyword") as [->|Hne]; cbn [negb andb].
    + rewrite Hk. split; [done|]. intros [_ [?|?]]; done.
    + split; [intros _|done]. split; [done|].
      destruct (decide (newType = "text")) as [->|]; [by left|right].
      destruct (decide (newType = "object")) as [->|]; [by rewrite Ho|].
      destruct (decide (newType = "nested")) as [->|]; [by rewrite Hn|].
      by rewrite getChildFieldsName_other.
  - rewrite Hk. destruct (String.eqb_spec newType "text") as [->|Hne]; cbn [negb andb].
    + rewrite Ht. split; [done|]. intros [_ [?|?]]; done.
    + split; [intros _|done]. split; [done|].
      destruct (decide (newType = "keyword")) as [->|]; [by left|right].
      destruct (decide (newType = "object")) as [->|]; [by rewrite Ho|].
      destruct (decide (newType = "nested")) as [->|]; [by rewrite Hn|].
      by rewrite getChildFieldsName_other.
  - rewrite Ho. destruct (String.eqb_spec newType "nested") as [->|Hne]; cbn [negb andb].
    + rewrite Hn. split; [done|]. intros [_ [?|?]]; done.
    + split; [intros _|done]. split; [done|].
      destruct (decide (newType = "object")) as [->|]; [by left|right].
      destruct (decide (newType = "text")) as [->|]; [by rewrite Ht|].
      destruct (decide (newType = "keyword")) as [->|]; [by rewrite Hk|].
      by rewrite getChildFieldsName_other.
  - rewrite Hn. destruct (String.eqb_spec newType "object") as [->|Hne]; cbn [negb andb].
    + rewrite Ho. split; [done|]. intros [_ [?|?]]; done.
    + split; [intros _|done]. split; [done|].
      destruct (decide (newType = "nested")) as [->|]; [by left|right].
      destruct (decide (newType = "text")) as [->|]; [by rewrite Ht|].
      destruct (decide (newType = "keyword")) as [->|]; [by rewrite Hk|].
      by rewrite getChildFieldsName_other.
  - rewrite getChildFieldsName_other by done. split; [done|]. by intros [? _].
Qed.

Lemma shouldDeleteChildFields_iff_witness :
  shouldDeleteChildFieldsAfterTypeChange "text" "text" = true.
Proof.
  apply (proj2 (shouldDeleteChildFields_iff "text" "text")).
  split; [done|by left].
Defined.

(** ** Validity of the state *)

Lemma present_sections_perm (s1 s2 : State) :
  s1 ≡ₚ s2 -> present_sections s1 ≡ₚ present_sections s2.
Proof.
  unfold present_sections. induction 1 as [|x l l' _ IH|x y l|l l' l'' _ IH1 _ IH2].
  - done.
  - cbn -[includes]. destruct (if includes _ _ then _ else _); by rewrite IH.
  - cbn -[includes].
    destruct (if includes _ (fst y) then _ else _),
             (if includes _ (fst x) then _ else _); try done.
    apply perm_swap.
  - by rewrite IH1.
Qed.

Lemma aggregate_perm (l1 l2 : list StateSection) :
  l1 ≡ₚ l2 -> aggregate l1 = aggregate l2.
Proof.
  unfold aggregate. induction 1 as [|x l l' _ IH|x y l|l l' l'' _ IH1 _ IH2].
  - done.
  - cbn. destruct (indeterminate x); cbn; [done|].
    destruct (existsb indeterminate l), (existsb indeterminate l');
      try discriminate; [done|]. injection IH as IH. by rewrite IH.
  - cbn. destruct (indeterminate x), (indeterminate y); cbn; try done.
    destruct (existsb indeterminate l); [done|].
    by destruct (valid x), (valid y).
  - by rewrite IH1.
Qed.

(** X3. The validity of the state does not depend on the order in which its
    sections are enumerated. *)
Theorem isStateValid_order (state1 state2 : State) :
  state1 ≡ₚ state2 -> isStateValid state1 = isStateValid state2.
Proof.
  intros Hp. unfold isStateValid.
  rewrite !isStateValid_fold, !present_sections_filter.
  by apply aggregate_perm, present_sections_perm.
Qed.

Lemma isStateValid_order_witness :
  isStateValid [("fieldForm", Some (mkStateSection None));
                ("configuration", Some (mkStateSection (Some false)))]
  = isStateValid [("configuration", Some (mkStateSection (Some false)));
                  ("fieldForm", Some (mkStateSection None))].
Proof. apply isStateValid_order. apply perm_swap. Defined.

(** ** Main types and subtypes *)

Lemma addSubTypes_lookup (type s : string) (acc : gmap string string)
    (types : list string) :
  addSubTypes type acc types !! s
  = if negb (String.eqb s "__proto__") && existsb (String.eqb s) types
    then Some type else acc !! s.
Proof.
  unfold addSubTypes. revert acc.
  induction types as [|x types IH]; intros acc; cbn [fold_left existsb];
    [by rewrite andb_false_r|].
  rewrite IH. unfold plain_set_string.
  destruct (String.eqb_spec s "__proto__") as [->|Hs]; cbn [negb andb].
  { destruct (String.eqb_spec x "__proto__"); [done|].
    by rewrite lookup_insert_ne. }
  destruct (existsb (String.eqb s) types); [by rewrite orb_true_r|].
  rewrite orb_false_r. destruct (String.eqb_spec s x) as [<-|Hne].
  - rewrite eqb_ne by done. apply lookup_insert_eq.
  - destruct (String.eqb x "__proto__"); [done|]. by rewrite lookup_insert_ne.
Qed.

Lemma subTypes_fold_lookup (defs : list (string * DataTypeDefinition))
    (acc : gmap string string) (s : string) :
  fold_left (fun acc kv =>
    match subTypes (snd kv) with
    | Some types => addSubTypes (fst kv) acc types
    | None => acc
    end) defs acc !! s
  = match (if String.eqb s "__proto__" then None
           else last (List.filter (lists_subType s) defs)) with
    | Some kv => Some (fst kv)
    | None => acc !! s
    end.
Proof.
  revert acc. induction defs as [|[ty def] defs IH]; intros acc;
    [by destruct (String.eqb s "__proto__")|].
  cbn [fold_left List.filter]. rewrite IH. unfold lists_subType at 2. cbn [fst snd].
  destruct (subTypes def) as [types|]; [|done].
  rewrite addSubTypes_lookup.
  destruct (String.eqb s "__proto__"); [done|]. cbn [negb andb].
  destruct (existsb (String.eqb s) types); [|done].
  destruct (List.filter (lists_subType s) defs) as [|kv l]; [done|].
  rewrite last_cons_cons. destruct (last (kv :: l)) eqn:E; [done|].
  by apply last_None in E.
Qed.

(** X4. [getMainTypeFromSubType] finds the last main type, in the order of
    the definition table, that lists the subtype among its subtypes.  When no
    main type lists it the result is [undefined], unless the subtype is the
    name of a property of [Object.prototype]: the table is a plain object, so
    the inherited property is found.  Under [__proto__] the prototype is
    found whatever the table lists, since the assignment to that key does
    not create an entry. *)
Theorem getMainTypeFromSubType_last
    (defs : list (string * DataTypeDefinition)) (subType : string) :
  getMainTypeFromSubType defs subType
  = match (if String.eqb subType "__proto__" then None
           else last (List.filter (lists_subType subType) defs)) with
    | Some kv => Own (fst kv)
    | None => if inherited subType then Inherited else Absent
    end.
Proof.
  unfold getMainTypeFromSubType, subTypesMapToType, plain_get.
  rewrite subTypes_fold_lookup, lookup_empty.
  by destruct (if String.eqb subType "__proto__" then None else last _).
Qed.

(** On the sample table: a listed subtype, an unknown one, and the name of
    an inherited property. *)
Example getMainTypeFromSubType_sample :
  getMainTypeFromSubType sample_types "integer" = Own "numeric" /\
  getMainTypeFromSubType sample_types "float" = Absent /\
  getMainTypeFromSubType sample_types "constructor" = Inherited.
Proof. by vm_compute. Qed.

(** ** Maximal depth *)

Lemma max_depth_fold (rows : list NormalizedField) (a : nat) :
  fold_left (fun maxDepth field => Nat.max maxDepth (nestedDepth field)) rows a
  = Nat.max a (max_depth rows).
Proof.
  unfold max_depth. revert a. induction rows as [|r rows IH]; intros a; cbn.
  - lia.
  - rewrite IH, (IH (nestedDepth r)). lia.
Qed.

Lemma max_depth_cons (r : NormalizedField) (rows : list NormalizedField) :
  max_depth (r :: rows) = Nat.max (nestedDepth r) (max_depth rows).
Proof.
  unfold max_depth at 1. cbn. by rewrite max_depth_fold.
Qed.

Lemma max_depth_permutation (rows rows' : list NormalizedField) :
  rows ≡ₚ rows' -> max_depth rows = max_depth rows'.
Proof.
  induction 1 as [|x l l' _ IH|x y l|l l' l'' _ IH1 _ IH2];
    rewrite ?max_depth_cons; try done; lia.
Qed.

Lemma max_depth_spec (rows : list NormalizedField) :
  (forall r, r ∈ rows -> nestedDepth r <= max_depth rows) /\
  (max_depth rows = 0 \/ exists r, r ∈ rows /\ nestedDepth r = max_depth rows).
Proof.
  induction rows as [|r rows [IHle IHat]]; [split; [by intros r ?%elem_of_nil|by left]|].
  rewrite max_depth_cons. split.
  - intros r' [->|Hin]%elem_of_cons; [lia|]. specialize (IHle _ Hin). lia.
  - right. destruct (decide (max_depth rows <= nestedDepth r)) as [Hle|Hgt].
    + exists r. split; [apply list_elem_of_here|lia].
    + destruct IHat as [H0|(r' & Hin & Heq)]; [lia|].
      exists r'. split; [by apply list_elem_of_further|lia].
Qed.

Lemma getMaxNestedDepth_bounds (t : gmap string NormalizedField) :
  (forall k r, t !! k = Some r -> nestedDepth r <= getMaxNestedDepth t) /\
  (getMaxNestedDepth t = 0 \/
   exists k r, t !! k = Some r /\ nestedDepth r = getMaxNestedDepth t).
Proof.
  unfold getMaxNestedDepth.
  destruct (max_depth_spec (snd <$> map_to_list t)) as [Hle Hat]. split.
  - intros k r Hr. apply Hle. apply list_elem_of_fmap. exists (k, r).
    split; [done|]. by apply elem_of_map_to_list.
  - destruct Hat as [H0|(r & Hin & Heq)]; [by left|right].
    apply list_elem_of_fmap in Hin as ([k r'] & -> & Hin).
    apply elem_of_map_to_list in Hin. eauto.
Qed.

(** X5. [getMaxNestedDepth] is the largest depth of a row of the table: no
    row is deeper, and it is 0 or the depth of some row. *)
Theorem getMaxNestedDepth_max (t : gmap string NormalizedField) :
  (forall k r, t !! k = Some r -> nestedDepth r <= getMaxNestedDepth t) /\
  (getMaxNestedDepth t = 0 \/
   exists k r, t !! k = Some r /\ nestedDepth r = getMaxNestedDepth t).
Proof. apply getMaxNestedDepth_bounds. Qed.

(** ** More on normalisation *)

Lemma has_children_container (field : obj) (m : bool) :
  has_children (getFieldMeta field (Some m)) = true ->
  is_Some (child_container field (m_childFieldsName (getFieldMeta field (Some m)))).
Proof.
  intros Hh. destruct (has_children_name _ _ Hh) as [c Hn].
  destruct (child_container _ _) as [children|] eqn:Hc; [eauto|].
  exfalso. revert Hh Hc. rewrite Hn.
  unfold has_children, getFieldMeta in *; cbn in *. rewrite Hn.
  unfold has_entries; cbn.
  destruct m; cbn; [done|]. intros H Hc. rewrite Hc in H. cbn in H.
  by rewrite !andb_false_r in H.
Qed.

Section NeverThrows.

Variable uid : nat -> string.

Lemma foldM_normalizeEntry_safe recurse :
  (forall props paths d m p st, returns_or_overflows (recurse props paths d m p st)) ->
  forall es paths d m p st,
    returns_or_overflows (foldM (normalizeEntry uid recurse paths d m p) st es).
Proof.
  intros Hrec es paths d m p. induction es as [|[propName value] es IH];
    intros st; cbn [foldM]; [done|].
  assert (returns_or_overflows
            (normalizeEntry uid recurse paths d m p st (propName, value))) as Hone.
  { unfold normalizeEntry, getUniqueId. cbv beta iota zeta. cbn [fst snd].
    destruct (has_children _) eqn:Hh; [|done].
    destruct (has_children_container _ _ Hh) as [children ->].
    match goal with |- context [recurse ?a ?b ?c ?e ?f ?g] =>
      pose proof (Hrec a b c e f g) as H;
      destruct (recurse a b c e f g) end; done. }
  destruct (normalizeEntry _ _ _ _ _ _ _ _); cbn [mbind res_bind]; done.
Qed.

Lemma normalizeFields_safe fuel :
  forall props paths d m p st,
    returns_or_overflows (normalizeFields uid fuel props paths d m p st).
Proof.
  induction fuel as [|fuel IH]; intros props paths d m p st; [done|].
  cbn [normalizeFields]. by apply foldM_normalizeEntry_safe.
Qed.

End NeverThrows.

(** X6. [normalizeFields] never throws on its own account, whatever the
    object it is given holds: where it recurses, the container it reads
    exists and can be enumerated.  With room for [fuel] nested calls it
    returns, or it exhausts the stack, and the latter only on a tree nested
    at least [fuel] deep. *)
Theorem normalizeFields_never_throws (uid : nat -> string) (fuel : nat)
    (props : obj) (paths : list string) (nestedDepth : nat)
    (isMultiField : bool) (parentId : option string) (st : NormState) :
  match normalizeFields uid fuel (VObj props) paths nestedDepth isMultiField
          parentId st with
  | Ok _ => True
  | OutOfFuel => fuel <= depth (VObj props)
  | Throw _ | Untyped => False
  end.
Proof.
  pose proof (normalizeFields_safe uid fuel (VObj props) paths nestedDepth
                isMultiField parentId st) as Hsafe.
  destruct (decide (depth (VObj props) < fuel)) as [Hlt|Hge].
  - by destruct (normalizeFields_total uid fuel (VObj props) paths nestedDepth
                   isMultiField parentId st Hlt) as [st' ->].
  - destruct (normalizeFields _ _ _ _ _ _ _ _); try done. lia.
Qed.

(** On the sample tree, whose fields nest three deep: too little room, and
    enough. *)
Example normalizeFields_sample_stack :
  normalizeFields uid_demo 2 (VObj sample_tree) [] 0 false None
    (mkNormState ∅ [] 0 0) = OutOfFuel /\
  exists st, normalizeFields uid_demo 3 (VObj sample_tree) [] 0 false None
               (mkNormState ∅ [] 0 0) = Ok st.
Proof. split; [by vm_compute|]. eexists. by vm_compute. Qed.

Section RootOrder.

Variable uid : nat -> string.
Hypothesis uid_inj : forall i j, uid i = uid j -> i = j.

Lemma rep_ids t es paths d m p ids n n' :
  rep uid t es paths d m p ids n n' ->
  NoDup ids /\
  Forall2 (fun i kv =>
             exists r, t !! i = Some r /\ path r = field_path paths (fst kv) /\
               parentId r = p /\ nestedDepth r = d)
    ids es.
Proof.
  intros Hrep. pose proof (rep_rows uid _ _ _ _ _ _ _ _ _ Hrep) as [Hin _].
  revert Hin.
  induction Hrep as [|propName value es paths d m p ids n n' Hleaf Hrow Hrest IH
                     |propName value es paths d m p ids n n1 n' children cs
                        Hnode Hc Hsub _ Hrow Hrest IH]; intros Hin.
  - split; constructor.
  - pose proof (rep_rows uid _ _ _ _ _ _ _ _ _ Hrest) as [Hin' _].
    destruct (IH Hin') as [Hnd Hall]. split.
    + constructor; [|done]. intros Hmem.
      destruct (Hin' _ Hmem) as (j & _ & Hj & Heq & _).
      apply uid_inj in Heq. lia.
    + constructor; [|done]. eexists. split; [exact Hrow|]. done.
  - pose proof (rep_rows uid _ _ _ _ _ _ _ _ _ Hrest) as [Hin' _].
    pose proof (rep_range _ _ _ _ _ _ _ _ _ _ Hsub) as Hle.
    destruct (IH Hin') as [Hnd Hall]. split.
    + constructor; [|done]. intros Hmem.
      destruct (Hin' _ Hmem) as (j & _ & Hj & Heq & _).
      apply uid_inj in Heq. lia.
    + constructor; [|done]. eexists. split; [exact Hrow|]. done.
Qed.

End RootOrder.

(** X7. [rootLevelFields] holds one identifier per root entry of the tree, in
    declaration order and without repetition: the i-th identifier is the key
    of a root row at depth 0 whose path is the i-th field name. *)
Theorem normalize_root_order (uid : nat -> string) (fields : obj) :
  (forall i j, uid i = uid j -> i = j) ->
  exists nf, normalize uid fields = Ok nf /\
    NoDup (rootLevelFields nf) /\
    Forall2 (fun i kv =>
               exists r, byId nf !! i = Some r /\ path r = fst kv /\
                 parentId r = None /\ nestedDepth r = 0)
      (rootLevelFields nf) fields.
Proof.
  intros uid_inj. destruct (normalize_total uid fields) as [nf Hnf].
  exists nf. split; [done|].
  destruct (normalize_rep uid uid_inj _ _ Hnf) as (n & Hrep & _).
  by apply (rep_ids uid uid_inj) in Hrep.
Qed.

Lemma normalize_root_order_witness :
  exists nf, normalize uid_demo sample_tree = Ok nf /\
    NoDup (rootLevelFields nf) /\
    Forall2 (fun i kv =>
               exists r, byId nf !! i = Some r /\ path r = fst kv /\
                 parentId r = None /\ nestedDepth r = 0)
      (rootLevelFields nf) sample_tree.
Proof. exact (normalize_root_order uid_demo sample_tree uid_demo_inj). Defined.

Lemma normalize_parents_listed (uid : nat -> string) (fields : obj) nf :
  (forall i j, uid i = uid j -> i = j) ->
  normalize uid fields = Ok nf -> parents_listed (byId nf).
Proof.
  intros uid_inj Hnf k r p Hr Hp.
  destruct (normalize_links uid uid_inj _ _ Hnf k r Hr) as (_ & Hpos & _).
  rewrite Hp in Hpos. destruct Hpos as (rq & cs & ? & ? & ? & _). eauto.
Qed.

(** X8. The table of a tree in which no field has a [name] property of its
    own is well formed, whatever else the tree holds: rows sit under their
    non-empty identifiers, children and parents point at each other, the
    flags announce the children, and every path is the dot-join of the names
    from the root. *)
Theorem normalize_well_formed (uid : nat -> string) (fields : obj) :
  (forall i j, uid i = uid j -> i = j) ->
  (forall i, uid i <> "") ->
  nameless fields = true ->
  exists nf, normalize uid fields = Ok nf /\
    wf_table (byId nf) /\ parents_listed (byId nf).
Proof.
  intros uid_inj uid_ne Hwn. destruct (normalize_total uid fields) as [nf Hnf].
  exists nf. split; [done|]. split.
  - by apply (normalize_wf_table uid uid_inj uid_ne fields).
  - by apply (normalize_parents_listed uid fields).
Qed.

Lemma normalize_well_formed_witness :
  exists nf, normalize uid_demo nested_multi_field_tree = Ok nf /\
    wf_table (byId nf) /\ parents_listed (byId nf).
Proof.
  exact (normalize_well_formed uid_demo nested_multi_field_tree uid_demo_inj
           uid_demo_nonempty eq_refl).
Defined.

Lemma field_row_multi i p d paths propName value cs :
  let r := field_row i p d true paths propName value cs in
  canHaveChildFields r = false /\ hasChildFields r = false /\
  canHaveMultiFields r = false /\ hasMultiFields r = false.
Proof. done. Qed.

(** X9. In a normalised table a multi-field member is a leaf below some
    parent: it has no [childFields], none of its four flags is set, and it is
    not a root-level row. *)
Theorem normalize_multi_field_leaf (uid : nat -> string) (fields : obj) :
  (forall i j, uid i = uid j -> i = j) ->
  exists nf, normalize uid fields = Ok nf /\
    forall k r, byId nf !! k = Some r -> isMultiField r = true ->
      childFields r = None /\ parentId r <> None /\
      canHaveChildFields r = false /\ hasChildFields r = false /\
      canHaveMultiFields r = false /\ hasMultiFields r = false.
Proof.
  intros uid_inj. destruct (normalize_total uid fields) as [nf Hnf].
  exists nf. split; [done|]. intros k r Hr Hm.
  destruct (normalize_links uid uid_inj _ _ Hnf k r Hr)
    as ((_ & _ & _ & Hflags) & Hpos & _).
  assert (canHaveChildFields r = false /\ hasChildFields r = false /\
          canHaveMultiFields r = false /\ hasMultiFields r = false) as Hf.
  { revert Hm. unfold normalize in Hnf.
    destruct (normalizeFields _ _ _ _ _ _ _ _) as [st| | |] eqn:Hn;
      try discriminate.
    cbn in Hnf. injection Hnf as <-. cbn in Hr.
    eapply (normalizeFields_rows uid
              (fun r => isMultiField r = true ->
                 canHaveChildFields r = false /\ hasChildFields r = false /\
                 canHaveMultiFields r = false /\ hasMultiFields r = false))
      in Hn; [exact (Hn k r Hr)| |].
    - intros i p d [] paths propName value cs; [|discriminate].
      intros _. apply field_row_multi.
    - cbn. apply map_Forall_empty. }
  destruct Hf as (Hcc & Hhc & Hcm & Hhm).
  split; [|split; [|done]].
  - destruct (childFields r) as [cs|] eqn:Hcs; [|done].
    assert (hasChildFields r || hasMultiFields r = true) as Hx
      by (apply Hflags; eauto).
    rewrite Hhc, Hhm in Hx. discriminate.
  - intros Hp. rewrite Hp in Hpos. destruct Hpos as (_ & _ & Hno). congruence.
Qed.

Lemma normalize_multi_field_leaf_witness :
  exists nf, normalize uid_demo sample_tree = Ok nf /\
    exists r, byId nf !! "u2" = Some r /\ isMultiField r = true /\
      childFields r = None /\ parentId r <> None /\
      canHaveChildFields r = false /\ hasChildFields r = false /\
      canHaveMultiFields r = false /\ hasMultiFields r = false.
Proof.
  destruct (normalize_multi_field_leaf uid_demo sample_tree uid_demo_inj)
    as (nf & Hnf & H).
  exists nf. split; [done|].
  assert (exists r, byId nf !! "u2" = Some r /\ isMultiField r = true)
    as (r & Hr & Hm).
  { vm_compute in Hnf. injection Hnf as <-.
    eexists. split; vm_compute; reflexivity. }
  exists r. split; [done|]. split; [done|]. by apply (H "u2").
Defined.

(** ** The maximal depth recorded by [normalize] *)

Lemma has_children_entries (field : obj) (multi : option bool) (children : value) :
  has_children (getFieldMeta field multi) = true ->
  child_container field (m_childFieldsName (getFieldMeta field multi))
    = Some children ->
  entries children <> [].
Proof.
  unfold has_children, getFieldMeta; cbn. intros Hh Hc. rewrite Hc in Hh.
  assert (has_entries (Some children) = true) as He.
  { destruct multi as [[]|]; cbn in Hh; try done;
      destruct (is_CProperties _), (is_CFields _), (has_entries _); done. }
  unfold has_entries in He. apply andb_prop in He as [_ He].
  intros Hnil. rewrite Hnil in He. done.
Qed.

Section MaxDepth.

Variable uid : nat -> string.
Hypothesis uid_inj : forall i j, uid i = uid j -> i = j.

Local Abbreviation max_post st st' :=
  (ns_max st <= ns_max st' /\
   (forall j r, ns_next st <= j < ns_next st' ->
      ns_to st' !! uid j = Some r -> nestedDepth r <= ns_max st') /\
   (ns_max st' = ns_max st \/
    exists j r, ns_next st <= j < ns_next st' /\
      ns_to st' !! uid j = Some r /\ nestedDepth r = ns_max st')).

Lemma rep_first t es paths d m p ids n n' :
  rep uid t es paths d m p ids n n' -> es <> [] ->
  exists r, n < n' /\ t !! uid n = Some r /\ nestedDepth r = d.
Proof.
  intros Hrep Hne. destruct Hrep as [|propName value es paths d m p ids n n' _ Hrow Hrest
                    |propName value es paths d m p ids n n1 n' children cs
                       _ _ Hsub Hrow Hrest]; [done| |].
  - pose proof (rep_range _ _ _ _ _ _ _ _ _ _ Hrest).
    eexists. split; [lia|]. split; [exact Hrow|done].
  - pose proof (rep_range _ _ _ _ _ _ _ _ _ _ Hsub).
    pose proof (rep_range _ _ _ _ _ _ _ _ _ _ Hrest).
    eexists. split; [lia|]. split; [exact Hrow|done].
Qed.

Lemma foldM_normalizeEntry_max recurse :
  (forall props paths d m p st st',
     recurse props paths d m p st = Ok st' ->
     exists ids,
       ns_ids st' = ns_ids st ++ ids /\
       rep uid (ns_to st') (entries props) paths d m p ids (ns_next st) (ns_next st') /\
       (forall k, (forall j, ns_next st <= j < ns_next st' -> k <> uid j) ->
                  ns_to st' !! k = ns_to st !! k)) ->
  (forall props paths d m p st st',
     recurse props paths d m p st = Ok st' -> d <= ns_max st ->
     max_post st st') ->
  forall es paths d m p st st',
    foldM (normalizeEntry uid recurse paths d m p) st es = Ok st' ->
    d <= ns_max st -> max_post st st'.
Proof.
  intros Hrep Hmax es paths d m p.
  induction es as [|[propName value] es IH]; intros st st'; cbn [foldM].
  - intros [= <-] _. split; [done|]. split; [lia|by left].
  - destruct (normalizeEntry _ _ _ _ _ _ _ _) as [s1| | |] eqn:He;
      try discriminate.
    cbn [mbind res_bind]. intros Hfold Hd.
    pose proof (foldM_normalizeEntry_rep uid uid_inj recurse Hrep
                  _ _ _ _ _ _ _ Hfold) as (ids & _ & Hrest & Hframe).
    pose proof (rep_range _ _ _ _ _ _ _ _ _ _ Hrest) as Hle.
    apply normalizeEntry_Ok in He
      as [[Hleaf ->]|(Hnode & children & st2 & Hc & Hr & ->)];
      cbn [ns_to ns_ids ns_next ns_max] in *.
    + destruct (IH _ _ Hfold) as (Hm & Hb & Ha); [done|].
      cbn [ns_to ns_ids ns_next ns_max] in *.
      split; [done|]. split.
      * intros j r Hj Hr. destruct (decide (j = ns_next st)) as [->|Hne].
        -- rewrite Hframe in Hr
             by (intros j' Hj' Heq; apply uid_inj in Heq; lia).
           rewrite lookup_insert_eq in Hr. injection Hr as <-. cbn. lia.
        -- apply (Hb j r); [lia|done].
      * destruct Ha as [Ha|(j & r & Hj & Hr & Ha)]; [by left|right].
        exists j, r. split; [lia|done].
    + pose proof (Hrep _ _ _ _ _ _ _ Hr) as (cs & _ & Hsub & Hframe2).
      cbn [ns_to ns_ids ns_next ns_max] in *.
      pose proof (rep_range _ _ _ _ _ _ _ _ _ _ Hsub) as Hle2.
      destruct (Hmax _ _ _ _ _ _ _ Hr) as (Hm2 & Hb2 & Ha2);
        cbn [ns_to ns_ids ns_next ns_max] in *; [lia|].
      destruct (IH _ _ Hfold) as (Hm & Hb & Ha);
        cbn [ns_to ns_ids ns_next ns_max] in *; [lia|].
      assert (forall j, S (ns_next st) <= j < ns_next st2 ->
                ns_to st' !! uid j = ns_to st2 !! uid j) as Hkeep.
      { intros j Hj.
        rewrite Hframe by (intros j' Hj' Heq; apply uid_inj in Heq; lia).
        apply lookup_insert_ne. intros Heq. apply uid_inj in Heq. lia. }
      split; [lia|]. split.
      * intros j r Hj Hrj. destruct (decide (j = ns_next st)) as [->|Hne]; [|
          destruct (decide (j < ns_next st2)) as [Hlt|Hge]].
        -- rewrite Hframe in Hrj
             by (intros j' Hj' Heq; apply uid_inj in Heq; lia).
           rewrite lookup_insert_eq in Hrj. injection Hrj as <-. cbn. lia.
        -- rewrite Hkeep in Hrj by lia.
           pose proof (Hb2 j r ltac:(lia) Hrj). lia.
        -- apply (Hb j r); [lia|done].
      * destruct Ha as [Ha|(j & r & Hj & Hrj & Ha)];
          [|right; exists j, r; split; [lia|done]].
        destruct Ha2 as [Ha2|(j & r & Hj & Hrj & Ha2)].
        -- destruct (decide (next_depth (field_meta propName value m) d
                             <= ns_max st)) as [Hsmall|Hbig]; [left; lia|].
           right. unfold field_meta in *.
           pose proof (has_children_entries _ _ _ Hnode Hc) as Hne.
           destruct (rep_first _ _ _ _ _ _ _ _ _ Hsub Hne) as (r & Hlt & Hrow & Hdr).
           exists (S (ns_next st)), r. split; [lia|].
           split; [by rewrite Hkeep by lia|]. lia.
        -- right. exists j, r. split; [lia|].
           split; [by rewrite Hkeep by lia|]. lia.
Qed.

Lemma normalizeFields_max fuel props paths d m p st st' :
  normalizeFields uid fuel props paths d m p st = Ok st' ->
  d <= ns_max st -> max_post st st'.
Proof.
  revert props paths d m p st st'.
  induction fuel as [|fuel IH]; intros props paths d m p st st'; cbn;
    [discriminate|].
  apply foldM_normalizeEntry_max; [|exact IH].
  intros. by apply (normalizeFields_rep uid uid_inj fuel).
Qed.

End MaxDepth.

(** X10. The [maxNestedDepth] that [normalize] returns is the largest depth
    of a row of its table, as [getMaxNestedDepth] computes it. *)
Theorem normalize_maxNestedDepth (uid : nat -> string) (fields : obj) :
  (forall i j, uid i = uid j -> i = j) ->
  exists nf, normalize uid fields = Ok nf /\
    getMaxNestedDepth (byId nf) = maxNestedDepth nf.
Proof.
  intros uid_inj. destruct (normalize_total uid fields) as [nf Hnf].
  exists nf. split; [done|].
  destruct (normalize_rep uid uid_inj _ _ Hnf) as (n & Hrep & Hdom).
  unfold normalize in Hnf.
  destruct (normalizeFields _ _ _ _ _ _ _ _) as [st| | |] eqn:Hn;
    try discriminate.
  cbn [mbind res_bind] in Hnf. injection Hnf as <-.
  cbn [byId maxNestedDepth rootLevelFields] in *.
  destruct (normalizeFields_max uid uid_inj _ _ _ _ _ _ _ _ Hn)
    as (_ & Hb & Ha); [cbn; lia|]. cbn in Hb, Ha.
  destruct (getMaxNestedDepth_bounds (ns_to st)) as [Hle Hat].
  apply Nat.le_antisymm.
  - destruct Hat as [->|(k & r & Hr & <-)]; [lia|].
    assert (exists j, j < ns_next st /\ k = uid j) as (j & Hj & ->).
    { destruct (uid_range_dec uid k (ns_next st)) as [|Hno]; [done|].
      destruct (normalizeFields_rep uid uid_inj _ _ _ _ _ _ _ _ Hn)
        as (_ & _ & _ & Hframe). cbn in Hframe.
      rewrite Hframe in Hr; [by rewrite lookup_empty in Hr|].
      intros j Hj. apply Hno. lia. }
    apply (Hb j r); [lia|done].
  - destruct Ha as [->|(j & r & _ & Hr & <-)]; [lia|]. by apply (Hle (uid j)).
Qed.

Lemma normalize_maxNestedDepth_witness :
  exists nf, normalize uid_demo sample_tree = Ok nf /\
    getMaxNestedDepth (byId nf) = maxNestedDepth nf.
Proof. exact (normalize_maxNestedDepth uid_demo sample_tree uid_demo_inj). Defined.

(** ** More on denormalisation *)

(** A tree is returned only if every row that the walk reaches is in the
    table. *)
Lemma deNormalizePaths_reaches fuel t :
  forall ids to to',
    deNormalizePaths fuel t ids to = Ok to' ->
    exists rows, preorder t ids rows.
Proof.
  induction fuel as [|fuel IH]; intros ids to to'; [discriminate|].
  revert to to'. induction ids as [|i ids IHids]; intros to to'.
  - intros _. exists []. constructor.
  - rewrite deNormalizePaths_cons. unfold deNormalizeId at 1.
    destruct (t !! i) as [row|] eqn:Hrow; [|discriminate].
    destruct (property_key (obj_get "name" (source row))) as [name| | |];
      try discriminate.
    cbn [mbind res_bind]. intros H.
    assert (exists below, preorder t (children_of row) below /\
              exists to1, deNormalizePaths (S fuel) t ids to1 = Ok to')
      as (below & Hbelow & to1 & Hrest).
    { revert H. unfold children_of. destruct (childFields row) as [cs|].
      - destruct (deNormalizePaths fuel t cs empty_target)
          as [children| | |] eqn:Hc; try discriminate.
        cbn [mbind res_bind]. intros Hrest.
        destruct (IH _ _ _ Hc) as (below & ?). eauto.
      - cbn [mbind res_bind]. intros Hrest. exists [].
        split; [constructor|]. eauto. }
    destruct (IHids _ _ Hrest) as (rest & Hpre).
    exists (row :: below ++ rest). by constructor.
Qed.

(** X11. [deNormalize] returns a tree only from a table without a dangling
    identifier below its roots: then every identifier reached from
    [rootLevelFields] through [childFields] is a key of [byId].  With no root
    it returns the empty tree. *)
Theorem deNormalize_needs_rows (fuel : nat) (nf : NormalizedFields) :
  (forall fields, deNormalize fuel nf = Ok fields ->
     exists rows, preorder (byId nf) (rootLevelFields nf) rows) /\
  (rootLevelFields nf = [] -> deNormalize (S fuel) nf = Ok []).
Proof.
  split.
  - intros fields H. unfold deNormalize in H.
    destruct (deNormalizePaths _ _ _ _) as [to| | |] eqn:Hto; try discriminate.
    by apply deNormalizePaths_reaches in Hto.
  - intros Hnil. unfold deNormalize. by rewrite Hnil.
Qed.

Lemma deNormalize_needs_rows_witness :
  (exists fields,
     deNormalize 6 (mkNormalizedFields sample_table ["u0"] 2) = Ok fields /\
     exists rows, preorder sample_table ["u0"] rows) /\
  deNormalize 1 (mkNormalizedFields sample_table [] 2) = Ok [].
Proof.
  split.
  - eexists. split; [vm_compute; reflexivity|].
    eapply (proj1 (deNormalize_needs_rows 6
                     (mkNormalizedFields sample_table ["u0"] 2))).
    vm_compute. reflexivity.
  - exact (proj2 (deNormalize_needs_rows 0
                    (mkNormalizedFields sample_table [] 2)) eq_refl).
Defined.

(** A missing root makes the call throw. *)
Example deNormalize_dangling_root :
  deNormalize 3 (mkNormalizedFields sample_table ["u0"; "u9"] 2) = Throw TypeError.
Proof. vm_compute. reflexivity. Qed.

(** A row whose source has no [name] is filed under the key [undefined], and
    a name that is not a string under its conversion to a string. *)
Example deNormalize_nameless_row :
  deNormalize 1
    (mkNormalizedFields
       {[ "a" := mkRow "a" None 0 false "x" [("type", VStr "text")]
                   (getFieldMeta [("type", VStr "text")] (Some false));
          "b" := mkRow "b" None 0 false "y"
                   [("name", VLit (LBool true)); ("type", VStr "keyword")]
                   (getFieldMeta [("type", VStr "keyword")] (Some false)) ]}
       ["a"; "b"] 0)
  = Ok [("undefined", VObj [("type", VStr "text")]);
        ("true", VObj [("type", VStr "keyword")])].
Proof. vm_compute. reflexivity. Qed.

Lemma same_but_path_refl (r : NormalizedField) : same_but_path r r.
Proof. by destruct r. Qed.

Lemma deNormalizePaths_agree fuel t1 t2 :
  (forall k, option_Forall2 same_but_path (t1 !! k) (t2 !! k)) ->
  forall ids to, deNormalizePaths fuel t1 ids to = deNormalizePaths fuel t2 ids to.
Proof.
  intros Hag. induction fuel as [|fuel IH]; intros ids to; [done|].
  revert to. induction ids as [|i ids IHids]; intros to; [done|].
  rewrite !deNormalizePaths_cons.
  assert (deNormalizeId (deNormalizePaths fuel t1) t1 to i
          = deNormalizeId (deNormalizePaths fuel t2) t2 to i) as ->.
  { unfold deNormalizeId.
    destruct (Hag i) as [r1 r2 Hsame|]; [|done].
    rewrite Hsame. cbn [source set_path childFields childFieldsName].
    destruct (property_key _); [|done..]. cbn [mbind res_bind].
    destruct (childFields r1) as [cs|]; [|done]. by rewrite IH. }
  destruct (deNormalizeId _ _ _ _); cbn [mbind res_bind]; done.
Qed.

(** X12. [deNormalize] does not read the paths: two tables whose rows differ
    at most in [path] give the same result. *)
Theorem deNormalize_ignores_paths (fuel : nat) (nf1 nf2 : NormalizedFields) :
  (forall k, option_Forall2 same_but_path (byId nf1 !! k) (byId nf2 !! k)) ->
  rootLevelFields nf1 = rootLevelFields nf2 ->
  deNormalize fuel nf1 = deNormalize fuel nf2.
Proof.
  intros Hag Hroots. unfold deNormalize. rewrite Hroots.
  by rewrite (deNormalizePaths_agree _ _ _ Hag).
Qed.

Lemma deNormalize_ignores_paths_witness :
  deNormalize 4 (mkNormalizedFields sample_table ["u0"] 2)
  = deNormalize 4
      (mkNormalizedFields ((fun r => set_path r "") <$> sample_table) ["u0"] 2).
Proof.
  apply deNormalize_ignores_paths; [|done].
  intros k. cbn [byId]. rewrite lookup_fmap.
  destruct (sample_table !! k); by constructor.
Defined.

(** ** More on renaming *)

Lemma repathed_same_but_path tref u k :
  repathed tref u k -> option_Forall2 same_but_path (tref !! k) (u !! k).
Proof.
  intros (rk & ns & -> & _ & ->). by constructor.
Qed.

(** After a rename every row of the result is the row of the table with the
    edited row in place, up to its path. *)
Lemma updateFieldsPath_rows t field bl (h : heap) :
  wf_table t -> renamed t field -> h !! bl = Some t ->
  exists fuel0, forall fuel, fuel0 <= fuel ->
    exists p u',
      updateFieldsPathAfterFieldNameChange fuel field bl h
      = Ok (p, fresh (dom h), <[fresh (dom h) := u']> h) /\
      (forall k, option_Forall2 same_but_path
                   (<[id field := field]> t !! k) (u' !! k)) /\
      (forall k, in_subtree t field k ->
         repathed (<[id field := field]> t) u' k) /\
      (forall k, ~ in_subtree t field k -> u' !! k = t !! k).
Proof.
  intros Hwf Hren Hbl.
  destruct (updateFieldsPath_spec t field bl h Hwf Hren Hbl)
    as (nsf & fuel0 & Hnsf & Hspec).
  exists fuel0. intros fuel Hfuel.
  destruct (Hspec fuel Hfuel) as (u' & Hrun & Hone & Hall).
  exists (join "." nsf), u'. split; [done|]. split; [|split; [done|]].
  - intros k. destruct (decide (k = id field)) as [->|Hne].
    + apply repathed_same_but_path, Hall. constructor.
    + destruct (Hone k) as [Heq|[_ Hg]]; [|by apply repathed_same_but_path].
      rewrite Heq, lookup_insert_ne by done.
      destruct (t !! k); constructor. apply same_but_path_refl.
  - intros k Hk. destruct (Hone k) as [Heq|[Hin _]]; [done|by destruct Hk].
Qed.

(** X13. A rename changes nothing but paths: the returned table has the keys
    of the input, and each of its rows is the input row (the edited row, under
    the renamed identifier) with at most another [path]. *)
Theorem updateFieldsPath_only_paths t field bl (h : heap) :
  wf_table t -> renamed t field -> h !! bl = Some t ->
  exists fuel0, forall fuel, fuel0 <= fuel ->
    exists p ul h' u',
      updateFieldsPathAfterFieldNameChange fuel field bl h = Ok (p, ul, h') /\
      h' !! ul = Some u' /\
      dom u' = dom t /\
      forall k, option_Forall2 same_but_path
                  (<[id field := field]> t !! k) (u' !! k).
Proof.
  intros Hwf Hren Hbl.
  destruct (updateFieldsPath_rows t field bl h Hwf Hren Hbl) as (fuel0 & Hspec).
  exists fuel0. intros fuel Hfuel.
  destruct (Hspec fuel Hfuel) as (p & u' & Hrun & Hsame & _).
  exists p, (fresh (dom h)), (<[fresh (dom h) := u']> h), u'.
  split; [done|]. split; [apply lookup_insert_eq|]. split; [|done].
  destruct Hren as (r0 & Hr0 & _).
  apply set_eq. intros k. rewrite !elem_of_dom.
  specialize (Hsame k).
  destruct (decide (k = id field)) as [->|Hne].
  - rewrite lookup_insert_eq in Hsame. rewrite Hr0.
    inversion Hsame; subst. split; eauto.
  - rewrite lookup_insert_ne in Hsame by done.
    destruct (t !! k) as [x|], (u' !! k) as [y|]; inversion Hsame;
      split; intros [? ?]; eauto; done.
Qed.

Lemma updateFieldsPath_only_paths_witness :
  exists fuel0, forall fuel, fuel0 <= fuel ->
    exists p ul h' u',
      updateFieldsPathAfterFieldNameChange fuel sample_renamed 1%positive
        sample_store = Ok (p, ul, h') /\
      h' !! ul = Some u' /\
      dom u' = dom sample_table /\
      forall k, option_Forall2 same_but_path
                  (<[id sample_renamed := sample_renamed]> sample_table !! k)
                  (u' !! k).
Proof.
  exact (updateFieldsPath_only_paths sample_table sample_renamed 1%positive
           sample_store sample_table_wf sample_renamed_ok eq_refl).
Defined.

(** X14. Denormalising after a rename gives what denormalising the table
    with the edited row in place gives: the recomputed paths do not show in
    the tree. *)
Theorem deNormalize_after_rename t field bl (h : heap) :
  wf_table t -> renamed t field -> h !! bl = Some t ->
  exists fuel0, forall fuel, fuel0 <= fuel ->
    exists p ul h' u',
      updateFieldsPathAfterFieldNameChange fuel field bl h = Ok (p, ul, h') /\
      h' !! ul = Some u' /\
      forall fuel' roots depth,
        deNormalize fuel' (mkNormalizedFields u' roots depth)
        = deNormalize fuel'
            (mkNormalizedFields (<[id field := field]> t) roots depth).
Proof.
  intros Hwf Hren Hbl.
  destruct (updateFieldsPath_rows t field bl h Hwf Hren Hbl) as (fuel0 & Hspec).
  exists fuel0. intros fuel Hfuel.
  destruct (Hspec fuel Hfuel) as (p & u' & Hrun & Hsame & _).
  exists p, (fresh (dom h)), (<[fresh (dom h) := u']> h), u'.
  split; [done|]. split; [apply lookup_insert_eq|].
  intros fuel' roots depth. unfold deNormalize. cbn [byId rootLevelFields].
  by rewrite <- (deNormalizePaths_agree _ _ _ Hsame).
Qed.

Lemma deNormalize_after_rename_witness :
  exists fuel0, forall fuel, fuel0 <= fuel ->
    exists p ul h' u',
      updateFieldsPathAfterFieldNameChange fuel sample_renamed 1%positive
        sample_store = Ok (p, ul, h') /\
      h' !! ul = Some u' /\
      forall fuel' roots depth,
        deNormalize fuel' (mkNormalizedFields u' roots depth)
        = deNormalize fuel'
            (mkNormalizedFields
               (<[id sample_renamed := sample_renamed]> sample_table) roots depth).
Proof.
  exact (deNormalize_after_rename sample_table sample_renamed 1%positive
           sample_store sample_table_wf sample_renamed_ok eq_refl).
Defined.

(** The sample tree after the rename, denormalised: the field comes back
    under its new name, with its multi-field. *)
Example rename_then_deNormalize :
  (x ← updateFieldsPathAfterFieldNameChange 3 sample_renamed 1%positive sample_store;
   u ← heap_get (snd (fst x)) (snd x);
   deNormalize 6 (mkNormalizedFields u ["u0"] 2))
  = Ok [("myObject", VObj [("type", VStr "object");
          ("properties", VObj [("title", VObj [("type", VStr "text");
             ("fields", VObj [("raw", VObj [("type", VStr "keyword")])])])])])].
Proof. vm_compute. reflexivity. Qed.

(** ** Renaming keeps the table well formed *)

Lemma in_subtree_step t r p :
  wf_table t -> in_subtree t r p ->
  (exists r0, t !! id r = Some r0 /\ childFields r = childFields r0) ->
  forall rp cs k,
    t !! p = Some rp -> childFields rp = Some cs -> k ∈ cs ->
    in_subtree t r k.
Proof.
  intros Hwf. induction 1 as [r|r cs' c rc p Hcs Hin Hrc Hsub IH];
    intros (r0 & Hr0 & Hc) rp cs k Hrp Hcsp Hk.
  - rewrite Hr0 in Hrp. injection Hrp as <-. rewrite <- Hc in Hcsp.
    assert (childFields r0 = Some cs) as Hcs0 by congruence.
    destruct (wf_children t Hwf _ _ _ _ Hr0 Hcs0 Hk) as (rk & Hrk & _).
    destruct (wf_ids t Hwf _ _ Hrk) as [Hid _].
    apply (sub_child t r cs k rk); [done|done|done|].
    rewrite <- Hid. constructor.
  - apply (sub_child t r cs' c rc); [done|done|done|].
    apply (IH ltac:(destruct (wf_ids t Hwf _ _ Hrc) as [-> _]; eauto)
             rp cs k Hrp Hcsp Hk).
Qed.

Section KeepsWf.

Variables (t u' : gmap string NormalizedField) (field : NormalizedField).
Hypothesis Hwf : wf_table t.
Hypothesis Hpl : parents_listed t.
Hypothesis Hren : renamed t field.
Hypothesis Hsame :
  forall k, option_Forall2 same_but_path (<[id field := field]> t !! k) (u' !! k).
Hypothesis Hall :
  forall k, in_subtree t field k -> repathed (<[id field := field]> t) u' k.
Hypothesis Hone :
  forall k, u' !! k = t !! k \/ repathed (<[id field := field]> t) u' k.

Lemma renamed_links_back k r' :
  u' !! k = Some r' ->
  exists r0, t !! k = Some r0 /\ id r' = k /\ k <> "" /\
    parentId r' = parentId r0 /\ childFields r' = childFields r0 /\
    ((hasChildFields r' || hasMultiFields r') = true <-> is_Some (childFields r')).
Proof.
  intros Hr'. pose proof (Hsame k) as Hs. rewrite Hr' in Hs.
  inversion Hs as [r ry Hrr' Htref Hey|]; subst. symmetry in Htref.
  destruct (tref_row t field Hwf Hren _ _ Htref)
    as (Hid & _ & Hflags & r0 & Hr0 & Hp & Hc).
  exists r0. rewrite Hrr'. cbn [id parentId childFields hasChildFields
                                 hasMultiFields set_path].
  destruct (wf_ids t Hwf _ _ Hr0) as [_ Hne]. done.
Qed.

Lemma renamed_links_forth k r0 :
  t !! k = Some r0 ->
  exists r', u' !! k = Some r' /\ parentId r' = parentId r0 /\
    childFields r' = childFields r0.
Proof.
  intros Hr0.
  assert (exists r, <[id field := field]> t !! k = Some r /\
            parentId r = parentId r0 /\ childFields r = childFields r0)
    as (r & Hr & Hp & Hc).
  { destruct (decide (k = id field)) as [->|Hne].
    - destruct Hren as (r0' & Hr0' & Hp & Hc & _).
      rewrite Hr0 in Hr0'. injection Hr0' as <-.
      exists field. by rewrite lookup_insert_eq.
    - exists r0. by rewrite lookup_insert_ne. }
  pose proof (Hsame k) as Hs. rewrite Hr in Hs.
  inversion Hs as [rx r' Hrr' Hex Hu|]; subst.
  exists r'. split; [done|]. rewrite Hrr'. done.
Qed.

Lemma chain_outside k ns :
  chain_names t k ns ->
  in_subtree t field k \/ chain_names (<[id field := field]> t) k ns.
Proof.
  assert (exists r0, t !! id field = Some r0 /\ childFields field = childFields r0)
    as Hfield.
  { destruct Hren as (r0 & ? & _ & ? & _). eauto. }
  induction 1 as [k r n Hr Hp Hn|k r p ns n Hr Hp Hn Hc IH].
  - destruct (decide (k = id field)) as [->|Hne]; [left; constructor|right].
    apply (chain_root _ k r); [by rewrite lookup_insert_ne|done|done].
  - destruct (decide (k = id field)) as [->|Hne]; [left; constructor|].
    destruct IH as [Hin|Hchain].
    + left. destruct (Hpl _ _ _ Hr Hp) as (rp & cs & Hrp & Hcs & Hk).
      by apply (in_subtree_step t field p Hwf Hin Hfield rp cs k).
    + right. apply (chain_child _ k r p); [by rewrite lookup_insert_ne|done..].
Qed.

Lemma renamed_table_wf : wf_table u' /\ parents_listed u'.
Proof.
  assert (forall k r, <[id field := field]> t !! k = Some r ->
            exists r', u' !! k = Some r' /\ parentId r' = parentId r /\
              row_name r' = row_name r) as Hag.
  { intros k r Hr. pose proof (Hsame k) as Hs. rewrite Hr in Hs.
    inversion Hs as [rx r' Hrr' Hex Hu|]; subst. exists r'.
    split; [done|]. by rewrite Hrr'. }
  split; [constructor|].
  - intros k r' Hr'.
    by destruct (renamed_links_back _ _ Hr') as (r0 & _ & ? & ? & _).
  - intros k r' cs c Hr' Hcs Hc.
    destruct (renamed_links_back _ _ Hr') as (r0 & Hr0 & _ & _ & _ & Hc0 & _).
    rewrite Hc0 in Hcs.
    destruct (wf_children t Hwf _ _ _ _ Hr0 Hcs Hc) as (rc & Hrc & Hp).
    destruct (renamed_links_forth _ _ Hrc) as (rc' & ? & ? & _).
    exists rc'. split; [done|congruence].
  - intros k r' Hr'.
    by destruct (renamed_links_back _ _ Hr') as (r0 & _ & _ & _ & _ & _ & ?).
  - intros k r' Hr'.
    destruct (renamed_links_back _ _ Hr') as (r0 & Hr0 & _).
    destruct (wf_paths t Hwf _ _ Hr0) as (ns & Hns & Hpath).
    destruct (chain_outside _ _ Hns) as [Hin|Hchain].
    + destruct (Hall k Hin) as (rk & ns' & _ & Hns' & Hu).
      rewrite Hr' in Hu. injection Hu as ->.
      exists ns'. split; [|done]. by apply (chain_names_agree _ _ _ _ Hag).
    + destruct (Hone k) as [Heq|Hg].
      * rewrite Hr', Hr0 in Heq. injection Heq as ->.
        exists ns. split; [|done]. by apply (chain_names_agree _ _ _ _ Hag).
      * destruct Hg as (rk & ns' & _ & Hns' & Hu).
        rewrite Hr' in Hu. injection Hu as ->.
        exists ns'. split; [|done]. by apply (chain_names_agree _ _ _ _ Hag).
  - intros k r' p Hr' Hp.
    destruct (renamed_links_back _ _ Hr') as (r0 & Hr0 & _ & _ & Hp0 & _).
    rewrite Hp0 in Hp.
    destruct (Hpl _ _ _ Hr0 Hp) as (rp & cs & Hrp & Hcs & Hk).
    destruct (renamed_links_forth _ _ Hrp) as (rp' & ? & _ & Hc).
    exists rp', cs. split; [done|]. split; [congruence|done].
Qed.

End KeepsWf.

Lemma sample_table_parents : parents_listed sample_table.
Proof.
  destruct (normalize_total uid_demo sample_tree) as [nf Hnf].
  unfold sample_table. rewrite Hnf.
  by apply (normalize_parents_listed uid_demo sample_tree nf uid_demo_inj).
Qed.

(** X15. A rename keeps the table well formed: when the input table is well
    formed and lists every row among the children of its parent, so does the
    returned table; the result can thus be renamed again. *)
Theorem updateFieldsPath_keeps_wf t field bl (h : heap) :
  wf_table t -> parents_listed t -> renamed t field -> h !! bl = Some t ->
  exists fuel0, forall fuel, fuel0 <= fuel ->
    exists p ul h' u',
      updateFieldsPathAfterFieldNameChange fuel field bl h = Ok (p, ul, h') /\
      h' !! ul = Some u' /\
      wf_table u' /\ parents_listed u'.
Proof.
  intros Hwf Hpl Hren Hbl.
  destruct (updateFieldsPath_spec t field bl h Hwf Hren Hbl)
    as (nsf & fuel0 & Hnsf & Hspec).
  exists fuel0. intros fuel Hfuel.
  destruct (Hspec fuel Hfuel) as (u' & Hrun & Hone & Hall).
  exists (join "." nsf), (fresh (dom h)), (<[fresh (dom h) := u']> h), u'.
  split; [done|]. split; [apply lookup_insert_eq|].
  apply (renamed_table_wf t u' field Hwf Hpl Hren); [|done|].
  - intros k. destruct (decide (k = id field)) as [->|Hne].
    + apply repathed_same_but_path, Hall. constructor.
    + destruct (Hone k) as [Heq|[_ Hg]]; [|by apply repathed_same_but_path].
      rewrite Heq, lookup_insert_ne by done.
      destruct (t !! k); constructor. apply same_but_path_refl.
  - intros k. destruct (Hone k) as [?|[_ ?]]; eauto.
Qed.

Lemma updateFieldsPath_keeps_wf_witness :
  exists fuel0, forall fuel, fuel0 <= fuel ->
    exists p ul h' u',
      updateFieldsPathAfterFieldNameChange fuel sample_renamed 1%positive
        sample_store = Ok (p, ul, h') /\
      h' !! ul = Some u' /\
      wf_table u' /\ parents_listed u'.
Proof.
  exact (updateFieldsPath_keeps_wf sample_table sample_renamed 1%positive
           sample_store sample_table_wf sample_table_parents sample_renamed_ok
           eq_refl).
Defined.

(** X16. A rename of a row whose [parentId] names no row of the table throws
    a [TypeError] ([byId[field.parentId].path] reads a property of
    [undefined]), whatever the rest of the table. *)
Theorem updateFieldsPath_missing_parent fuel t field p bl (h : heap) :
  h !! bl = Some t -> parentId field = Some p -> p <> "" -> t !! p = None ->
  updateFieldsPathAfterFieldNameChange fuel field bl h = Throw TypeError.
Proof.
  intros Hbl Hp Hne Hnone. unfold updateFieldsPathAfterFieldNameChange.
  rewrite (heap_get_Some _ _ _ Hbl). cbn [mbind res_bind].
  rewrite Hp, (truthy_id_Some _ Hne).
  assert (fresh (dom h) <> bl) as Hfresh.
  { intros <-. apply (is_fresh (dom h)), elem_of_dom. eauto. }
  rewrite (heap_get_Some bl _ t) by (by rewrite lookup_insert_ne).
  cbn [mbind res_bind]. by rewrite Hnone.
Qed.

Lemma updateFieldsPath_missing_parent_witness :
  updateFieldsPathAfterFieldNameChange 5
    (mkRow "u1" (Some "u9") 1 false "myObject.name"
       [("name", VStr "title"); ("type", VStr "text")]
       (getFieldMeta [("name", VStr "title"); ("type", VStr "text")] (Some false)))
    1%positive sample_store = Throw TypeError.
Proof.
  apply (updateFieldsPath_missing_parent 5 sample_table _ "u9").
  - reflexivity.
  - reflexivity.
  - discriminate.
  - vm_compute. reflexivity.
Defined.

(** ** Listing the rows below a row *)

Lemma preorder_functional t ids rows1 rows2 :
  preorder t ids rows1 -> preorder t ids rows2 -> rows1 = rows2.
Proof.
  intros H. revert rows2.
  induction H as [|c cs rc bl rest Hrc Hbl IHbl Hrest IHrest]; intros rows2 H2.
  - by inversion H2.
  - inversion H2 as [|c' cs' rc' bl' rest' Hrc' Hbl' Hrest']; subst.
    rewrite Hrc in Hrc'. injection Hrc' as <-.
    by rewrite (IHbl _ Hbl'), (IHrest _ Hrest').
Qed.

Lemma preorder_members t ids rows :
  preorder t ids rows ->
  forall k, (exists r, r ∈ rows /\ id r = k) <->
            (exists c rc, c ∈ ids /\ t !! c = Some rc /\ in_subtree t rc k).
Proof.
  induction 1 as [|c cs rc bl rest Hrc Hbl IHbl Hrest IHrest]; intros k.
  - split.
    + intros (r & Hr & _). by apply elem_of_nil in Hr.
    + intros (c & rc & Hc & _). by apply elem_of_nil in Hc.
  - split.
    + intros (r & Hr & Hid).
      apply elem_of_cons in Hr as [->|Hr].
      { exists c, rc. split; [left|]. split; [done|]. rewrite <- Hid. constructor. }
      apply elem_of_app in Hr as [Hr|Hr].
      * destruct (proj1 (IHbl k) (ex_intro _ r (conj Hr Hid)))
          as (c1 & rc1 & Hc1 & Hrc1 & Hsub).
        exists c, rc. split; [left|]. split; [done|].
        unfold children_of in Hc1. destruct (childFields rc) as [cs1|] eqn:Hcs1;
          [|by apply elem_of_nil in Hc1].
        by apply (sub_child t rc cs1 c1 rc1).
      * destruct (proj1 (IHrest k) (ex_intro _ r (conj Hr Hid)))
          as (c2 & rc2 & Hc2 & Hrc2 & Hsub).
        exists c2, rc2. split; [by right|done].
    + intros (c0 & rc0 & Hc0 & Hrc0 & Hsub).
      apply elem_of_cons in Hc0 as [->|Hc0].
      * rewrite Hrc in Hrc0. injection Hrc0 as <-.
        inversion Hsub as [r Hr Hk|r cs1 c1 rc1 k' Hcs1 Hc1 Hrc1 Hsub1]; subst.
        { exists rc. split; [left|done]. }
        destruct (proj2 (IHbl k)) as (r & Hr & Hid).
        { exists c1, rc1. unfold children_of. by rewrite Hcs1. }
        exists r. split; [|done]. right. apply elem_of_app. by left.
      * destruct (proj2 (IHrest k)) as (r & Hr & Hid); [by eauto|].
        exists r. split; [|done]. right. apply elem_of_app. by right.
Qed.

Section TreeWalk.

Variable t : gmap string NormalizedField.
Hypothesis Hwf : wf_table t.
Variable M : nat.
Hypothesis HM : forall k ns, chain_names t k ns -> length ns <= M.

Lemma child_chain k r ns cs c :
  t !! k = Some r -> chain_names t k ns -> childFields r = Some cs -> c ∈ cs ->
  exists rc nsc, t !! c = Some rc /\ id rc = c /\ chain_names t c nsc /\
    length nsc = S (length ns).
Proof.
  intros Hr Hns Hcs Hc.
  destruct (wf_children t Hwf _ _ _ _ Hr Hcs Hc) as (rc & Hrc & Hp).
  destruct (wf_ids t Hwf _ _ Hrc) as [Hid _].
  destruct (wf_paths t Hwf _ _ Hrc) as (nsc & Hnsc & _).
  exists rc, nsc. split; [done|]. split; [done|]. split; [done|].
  inversion Hnsc as [k' r' n' Hr' Hp' Hn'|k' r' p' ns0 n' Hr' Hp' Hn' Hc'];
    subst; rewrite Hrc in Hr'; injection Hr' as <-; [congruence|].
  rewrite Hp in Hp'. injection Hp' as <-.
  rewrite (chain_names_functional _ _ _ _ Hc' Hns), length_app. cbn. lia.
Qed.

Lemma getChildFields_walk :
  forall fuel k r ns to,
    t !! k = Some r -> chain_names t k ns -> M < fuel + length ns ->
    exists rows,
      getChildFields fuel t r to = Ok (to ++ rows) /\
      preorder t (children_of r) rows.
Proof.
  induction fuel as [|fuel IHfuel]; intros k r ns to Hr Hns Hfuel.
  { pose proof (HM _ _ Hns). lia. }
  cbn [getChildFields]. pose proof (wf_flags t Hwf _ _ Hr) as Hflags.
  destruct (hasChildFields r || hasMultiFields r) eqn:Hhas.
  - destruct (proj1 Hflags eq_refl) as [cs Hcs]. rewrite Hcs.
    unfold children_of. rewrite Hcs.
    assert (forall cs' to', (forall c, c ∈ cs' -> c ∈ cs) ->
              exists rows,
                foldM (collectChild (getChildFields fuel t)) to'
                  (map (fun fieldId => t !! fieldId) cs') = Ok (to' ++ rows) /\
                preorder t cs' rows) as Hloop.
    { induction cs' as [|c cs' IHcs]; intros to' Hsub.
      - exists []. split; [by rewrite app_nil_r|constructor].
      - destruct (child_chain k r ns cs c Hr Hns Hcs) as
          (rc & nsc & Hrc & Hid & Hnsc & Hlen); [apply Hsub; left|].
        cbn [map foldM]. rewrite Hrc. cbn [collectChild].
        destruct (IHfuel c rc nsc (to' ++ [rc]) Hrc Hnsc ltac:(lia))
          as (rows1 & Hrun1 & Hpre1).
        rewrite Hrun1. cbn [mbind res_bind].
        destruct (IHcs ((to' ++ [rc]) ++ rows1)) as (rows2 & Hrun2 & Hpre2).
        { intros c' Hc'. apply Hsub. by right. }
        exists (rc :: rows1 ++ rows2). split.
        + rewrite Hrun2. f_equal. rewrite <- !app_assoc. done.
        + by constructor. }
    by apply Hloop.
  - exists []. split; [by rewrite app_nil_r|].
    unfold children_of. destruct (childFields r) as [cs|] eqn:Hcs; [|constructor].
    by pose proof (proj2 Hflags ltac:(eauto)).
Qed.

Lemma buildItem_row {L : Type} (recurse : list string -> res (list (TreeItem L)))
    (render : NormalizedField -> L) c rc :
  t !! c = Some rc ->
  buildItem recurse t render c
  = children ← match childFields rc with
               | Some cs => items ← recurse cs; Ok (Some items)
               | None => Ok None
               end;
    Ok (mkTreeItem (render rc) children).
Proof. intros H. unfold buildItem. by rewrite H. Qed.

Lemma item_labels_node {L : Type} (l : L) (items : list (TreeItem L)) :
  item_labels (mkTreeItem l (Some items)) = l :: outline_labels items.
Proof.
  cbn [item_labels]. f_equal. unfold outline_labels.
  induction items as [|x xs IH]; [done|]. cbn [map concat]. by rewrite IH.
Qed.

Lemma buildFieldTreeFromIds_walk {L : Type} (render : NormalizedField -> L) :
  forall fuel ids d,
    (forall c, c ∈ ids ->
       exists rc ns, t !! c = Some rc /\ chain_names t c ns /\ d <= length ns) ->
    d <= S M -> S M < fuel + d ->
    exists items rows,
      buildFieldTreeFromIds fuel ids t render = Ok items /\
      preorder t ids rows /\
      outline_labels items = map render rows.
Proof.
  induction fuel as [|fuel IHfuel]; intros ids d Hids Hd Hfuel; [lia|].
  cbn [buildFieldTreeFromIds].
  induction ids as [|c ids IHids].
  { exists [], []. split; [done|]. split; [constructor|done]. }
  destruct (Hids c) as (rc & ns & Hrc & Hns & Hlen); [left|].
  destruct IHids as (items2 & rows2 & Hrun2 & Hpre2 & Hlab2).
  { intros c' Hc'. apply Hids. by right. }
  cbn [mapM]. rewrite (buildItem_row _ _ _ _ Hrc).
  pose proof (HM _ _ Hns) as Hbound.
  destruct (childFields rc) as [cs|] eqn:Hcs.
  - destruct (IHfuel cs (S d)) as (items1 & rows1 & Hrun1 & Hpre1 & Hlab1);
      [|lia|lia|].
    { intros c' Hc'.
      destruct (child_chain c rc ns cs c' Hrc Hns Hcs Hc')
        as (rc' & nsc & ? & _ & ? & ?).
      exists rc', nsc. split; [done|]. split; [done|lia]. }
    rewrite Hrun1. cbn [mbind res_bind]. rewrite Hrun2. cbn [mbind res_bind].
    exists (mkTreeItem (render rc) (Some items1) :: items2), (rc :: rows1 ++ rows2).
    split; [done|]. split.
    + constructor; [done| |done]. unfold children_of. by rewrite Hcs.
    + unfold outline_labels in *. cbn [map concat].
      rewrite item_labels_node. unfold outline_labels.
      rewrite Hlab1, Hlab2, map_app. done.
  - cbn [mbind res_bind]. rewrite Hrun2. cbn [mbind res_bind].
    exists (mkTreeItem (render rc) None :: items2), (rc :: [] ++ rows2).
    split; [done|]. split.
    + constructor; [done| |done]. unfold children_of. rewrite Hcs. constructor.
    + unfold outline_labels in *. cbn [map concat item_labels app].
      by rewrite Hlab2.
Qed.

End TreeWalk.

Lemma wf_table_bounded t :
  wf_table t -> exists M, forall k ns, chain_names t k ns -> length ns <= M.
Proof.
  intros Hwf. apply chain_names_bounded. intros k r Hr.
  destruct (wf_paths t Hwf _ _ Hr) as (ns & ? & _). eauto.
Qed.

(** X17. In a well-formed table, [getAllChildFields] returns for a row of the
    table the rows below it in pre-order: each child in the order of
    [childFields], followed by the rows below that child; a row is listed
    exactly when it is reached from a child of the given row. *)
Theorem getAllChildFields_preorder t k r :
  wf_table t -> t !! k = Some r ->
  exists fuel0, forall fuel, fuel0 <= fuel ->
    exists rows,
      getAllChildFields fuel r t = Ok rows /\
      preorder t (children_of r) rows /\
      forall k', (exists r', r' ∈ rows /\ id r' = k') <-> below t r k'.
Proof.
  intros Hwf Hr. destruct (wf_table_bounded t Hwf) as [M HM].
  destruct (wf_paths t Hwf _ _ Hr) as (ns & Hns & _).
  exists (S M). intros fuel Hfuel.
  destruct (getChildFields_walk t Hwf M HM fuel k r ns [] Hr Hns ltac:(lia))
    as (rows & Hrun & Hpre).
  exists rows. split; [done|]. split; [done|].
  intros k'. apply (preorder_members t _ _ Hpre).
Qed.

Lemma getAllChildFields_preorder_witness :
  exists r, sample_table !! "u0" = Some r /\
  exists fuel0, forall fuel, fuel0 <= fuel ->
    exists rows,
      getAllChildFields fuel r sample_table = Ok rows /\
      preorder sample_table (children_of r) rows /\
      forall k', (exists r', r' ∈ rows /\ id r' = k') <-> below sample_table r k'.
Proof.
  eexists. split; [vm_compute; reflexivity|].
  apply (getAllChildFields_preorder sample_table "u0" _ sample_table_wf).
  vm_compute. reflexivity.
Defined.

(** X18. In a well-formed table, [buildFieldTreeFromIds] on identifiers of
    rows of the table returns an outline whose labels, read item by item with
    each item before its children, are the rendered rows of the identifiers
    and of everything below them in pre-order. *)
Theorem buildFieldTreeFromIds_outline {L : Type} t ids (render : NormalizedField -> L) :
  wf_table t -> (forall c, c ∈ ids -> is_Some (t !! c)) ->
  exists fuel0, forall fuel, fuel0 <= fuel ->
    exists items rows,
      buildFieldTreeFromIds fuel ids t render = Ok items /\
      preorder t ids rows /\
      outline_labels items = map render rows.
Proof.
  intros Hwf Hids. destruct (wf_table_bounded t Hwf) as [M HM].
  exists (S (S M)). intros fuel Hfuel.
  apply (buildFieldTreeFromIds_walk t Hwf M HM render fuel ids 1); [|lia|lia].
  intros c Hc. destruct (Hids c Hc) as [rc Hrc].
  destruct (wf_paths t Hwf _ _ Hrc) as (ns & Hns & _).
  exists rc, ns. split; [done|]. split; [done|].
  destruct (chain_names_row _ _ _ Hns) as (? & ? & _ & _ & Hne).
  destruct ns; [done|cbn; lia].
Qed.

Lemma buildFieldTreeFromIds_outline_witness :
  exists fuel0, forall fuel, fuel0 <= fuel ->
    exists items rows,
      buildFieldTreeFromIds fuel ["u0"] sample_table path = Ok items /\
      preorder sample_table ["u0"] rows /\
      outline_labels items = map path rows.
Proof.
  apply (buildFieldTreeFromIds_outline sample_table ["u0"] path sample_table_wf).
  intros c Hc. apply elem_of_cons in Hc as [->|Hc]; [|by apply elem_of_nil in Hc].
  vm_compute. eauto.
Defined.

(** X19. In a well-formed table, the outline built from the children of a
    row shows the rows that [getAllChildFields] returns for that row, in the
    same order. *)
Theorem buildFieldTreeFromIds_getAllChildFields {L : Type} t k r
    (render : NormalizedField -> L) :
  wf_table t -> t !! k = Some r ->
  exists fuel0, forall fuel, fuel0 <= fuel ->
    exists rows items,
      getAllChildFields fuel r t = Ok rows /\
      buildFieldTreeFromIds fuel (children_of r) t render = Ok items /\
      outline_labels items = map render rows.
Proof.
  intros Hwf Hr. destruct (wf_table_bounded t Hwf) as [M HM].
  destruct (wf_paths t Hwf _ _ Hr) as (ns & Hns & _).
  exists (S (S M)). intros fuel Hfuel.
  destruct (getChildFields_walk t Hwf M HM fuel k r ns [] Hr Hns ltac:(lia))
    as (rows & Hrun & Hpre).
  destruct (buildFieldTreeFromIds_walk t Hwf M HM render fuel (children_of r) 1)
    as (items & rows' & Hrun' & Hpre' & Hlab); [|lia|lia|].
  { intros c Hc. unfold children_of in Hc.
    destruct (childFields r) as [cs|] eqn:Hcs; [|by apply elem_of_nil in Hc].
    destruct (child_chain t Hwf k r ns cs c Hr Hns Hcs Hc)
      as (rc & nsc & ? & _ & ? & ?).
    exists rc, nsc. split; [done|]. split; [done|lia]. }
  exists rows, items. split; [done|]. split; [done|].
  by rewrite (preorder_functional _ _ _ _ Hpre Hpre').
Qed.

Lemma buildFieldTreeFromIds_getAllChildFields_witness :
  exists r, sample_table !! "u0" = Some r /\
  exists fuel0, forall fuel, fuel0 <= fuel ->
    exists rows items,
      getAllChildFields fuel r sample_table = Ok rows /\
      buildFieldTreeFromIds fuel (children_of r) sample_table path = Ok items /\
      outline_labels items = map path rows.
Proof.
  eexists. split; [vm_compute; reflexivity|].
  apply (buildFieldTreeFromIds_getAllChildFields sample_table "u0" _ path
           sample_table_wf).
  vm_compute. reflexivity.
Defined.

(** ** Parameter configuration, on every prop *)

(** X20. For a declared parameter, [getFieldConfig] throws exactly when a
    prop is given and the parameter has no props table, or the prop is
    neither an entry of the table nor the name of a property of
    [Object.prototype].  It returns the configuration of the entry found (the
    empty one when the entry has none), the empty configuration for an
    inherited name without entry, and without prop the configuration of the
    parameter. *)
Theorem getFieldConfig_declared
    (defs : gmap string ParameterDefinition) (param : string)
    (def : ParameterDefinition) :
  defs !! param = Some def ->
  (forall prop,
     (exists e, getFieldConfig defs param (Some prop) = Throw e) <->
     (param_props def = None \/
      exists props, param_props def = Some props /\ props !! prop = None /\
        (prop ∉ Object_prototype_names))) /\
  (forall prop props pd,
     param_props def = Some props -> props !! prop = Some pd ->
     getFieldConfig defs param (Some prop) = Ok (or_empty (prop_fieldConfig pd))) /\
  (forall prop props,
     param_props def = Some props -> props !! prop = None ->
     prop ∈ Object_prototype_names ->
     getFieldConfig defs param (Some prop) = Ok []) /\
  getFieldConfig defs param None = Ok (or_empty (param_fieldConfig def)).
Proof.
  intros Hdef. unfold getFieldConfig, plain_get. rewrite Hdef.
  split; [|split; [|split]];
    [|intros prop props pd Hp Hl; by rewrite Hp, Hl
     |intros prop props Hp Hl Hi%inherited_elem; by rewrite Hp, Hl, Hi|done].
  intros prop. destruct (param_props def) as [props|] eqn:Hp.
  - destruct (props !! prop) as [pd|] eqn:Hl.
    + split; [intros [e He]; discriminate|].
      intros [?|(props' & Heq & Hn & _)]; [discriminate|].
      injection Heq as <-. congruence.
    + destruct (inherited prop) eqn:Hi.
      * split; [intros [e He]; discriminate|].
        intros [?|(props' & _ & _ & Hno)]; [discriminate|].
        by apply inherited_elem in Hi.
      * split; [|eauto]. intros _. right. exists props.
        split; [done|]. split; [done|]. intros Hin%inherited_elem. congruence.
  - split; eauto.
Qed.

Lemma getFieldConfig_declared_witness :
  (exists e, getFieldConfig sample_parameters "index_options" (Some "other")
             = Throw e) /\
  getFieldConfig sample_parameters "index_options" (Some "text")
    = Ok [("type", VStr "select")] /\
  getFieldConfig sample_parameters "index_options" (Some "toString") = Ok [] /\
  getFieldConfig sample_parameters "index_options" None = Ok [].
Proof.
  pose proof (getFieldConfig_declared sample_parameters "index_options"
                (mkParameterDefinition None
                   (Some {[ "text" := mkPropDefinition (Some [("type", VStr "select")]);
                            "plain" := mkPropDefinition None ]}))
                eq_refl) as (Hthrow & Hprop & Hinh & Hnone).
  split; [|split; [|split; [|exact Hnone]]].
  - apply Hthrow. right. eexists. split; [reflexivity|].
    split; [vm_compute; reflexivity|].
    intros Hin%inherited_elem. discriminate.
  - exact (Hprop "text" _ (mkPropDefinition (Some [("type", VStr "select")]))
             eq_refl eq_refl).
  - apply (Hinh "toString" _ eq_refl); [vm_compute; reflexivity|].
    apply inherited_elem. reflexivity.
Defined.
